(** * yadloader: the public-share tree walk and the file download

    A shallow embedding of [client.go] (both revisions of the client that the
    file holds), [structs.go] and the download loop of [yadloader.go].

    Conventions.
    - Go's [int], [int64] and [time.Duration] are 64-bit two's-complement
      integers: they are [Z] values and every addition goes through [wrap64].
    - A slice is [option (list A)]: [None] is the nil slice.
    - A pointer field of a decoded JSON object is an [option]; dereferencing
      [None] panics.
    - An [error] interface value is [option error]: [None] is nil.
    - The HTTP client, the JSON decoder, the clock and the progress callback
      are outside the repository.  [Do] (what [retryablehttp.Client.Do] hands
      back for a URL) and [Unmarshal] are parameters; sleeping and calling the
      callback are recorded in a trace.
    - The listing loop need not terminate (a server may send non-empty pages
      for ever), so the walk takes fuel: one unit per loop iteration. *)

From Stdlib Require Import String ZArith Bool Lia Arith List.
From Stdlib.Strings Require Import Byte.
Import ListNotations.
Set Warnings "-register-all".
Open Scope string_scope.
Open Scope list_scope.
Open Scope Z_scope.

(** ** Machine integers *)

Definition int64_min : Z := - 2 ^ 63.
Definition int64_max : Z := 2 ^ 63 - 1.

Definition wrap64 (z : Z) : Z := (z + 2 ^ 63) mod 2 ^ 64 - 2 ^ 63.

Definition add64 (a b : Z) : Z := wrap64 (a + b).

Definition in_int64 (z : Z) : Prop := int64_min <= z <= int64_max.

(** ** Errors, panics and results *)

Definition error := string.

Definition ErrShortWrite : error := "short write".

Inductive result (A : Type) : Type :=
| Returned (a : A)
| Panicked (msg : string)
| OutOfFuel.
Arguments Returned {A} a.
Arguments Panicked {A} msg.
Arguments OutOfFuel {A}.

(** ** Slices *)

Definition slice (A : Type) := option (list A).

Definition elems {A} (s : slice A) : list A :=
  match s with
  | None => []
  | Some l => l
  end.

Definition append {A} (s : slice A) (x : A) : slice A := Some (elems s ++ [x]).

Definition len {A} (s : slice A) : nat := length (elems s).

(** ** structs.go *)

Definition entryType := string.
Definition FILE : entryType := "file".
Definition DIR : entryType := "dir".

Inductive response : Type :=
  mkResponse {
    rPath : string;
    rType : entryType;
    rName : string;
    rCreated : string;
    rModified : string;
    rSize : option Z;
    rMD5 : option string;
    rSHA256 : option string;
    rPublicKey : string;
    rMediaType : option string;
    rResourceId : string;
    rFile : option string;
    rEmbedded : option embedded
  }
with embedded : Type :=
  mkEmbedded {
    ePath : string;
    eLimit : Z;
    eOffset : Z;
    eSort : string;
    eTotal : Z;
    eItems : slice response
  }.

Record diskFile : Type :=
  mkDiskFile {
    Name : string;
    Path : string;
    Size : Z;
    File : string;
    MD5 : string;
    SHA256 : string;
    Created : string;
    Modified : string
  }.

(** ** client.go: configuration *)

Record Config : Type :=
  mkConfig {
    Limit : Z;
    Timeout : Z;
    Wait : Z;
    MaxTries : Z;
    ChunkSize : Z
  }.

Definition Second : Z := 1000000000.

Definition NewDefaultConfig : Config :=
  {| Limit := 100;
     Timeout := 10 * Second;
     Wait := 5 * Second;
     MaxTries := 3;
     ChunkSize := 1024 * 1024 |}.

(** A [GetTreeCallback] value is nil or a function; a function is named by a
    tag, so that the trace tells which one ran. *)
Definition GetTreeCallback := option nat.

(** ** The outside world *)

(** The four query parameters of a listing request, as [makeParams] gets
    them. *)
Record Query : Type :=
  mkQuery {
    q_path : string;
    q_limit : Z;
    q_offset : Z;
    q_public_key : string
  }.

Inductive URL : Type :=
| Listing (q : Query)
| Direct (u : string).

(** A response body as [Read] sees it: the bytes arrive in segments, a [Read]
    never crosses a segment boundary, and the stream ends with EOF ([None])
    or a read error.  With [with_last] set, the end is reported by the same
    [Read] that returns the last bytes, as [io.Reader] allows. *)
Record Reader : Type :=
  mkReader {
    segments : list (list byte);
    ending : option error;
    with_last : bool
  }.

Inductive exchange : Type :=
| BadRequest (e : error)
| DoError (e : error)
| Response (StatusCode : Z) (Body : Reader).

Inductive event : Type :=
| EvDo (u : URL) (x : exchange)
| EvSleep (d : Z)
| EvCallback (id : nat) (count totalSize : Z).

(** A destination [io.Writer]: it takes [room] more bytes ([None]: any
    number); a write that does not fit is cut short and reports [full_err]. *)
Record Sink : Type :=
  mkSink {
    written : list byte;
    room : option nat;
    full_err : option error
  }.

(** ** io *)

Inductive read_status : Type :=
| ReadMore
| ReadEOF
| ReadErr (e : error).

Definition end_status (rd : Reader) : read_status :=
  match ending rd with
  | None => ReadEOF
  | Some e => ReadErr e
  end.

(** [rd.Read(buf)] with [len(buf) = n]. *)
Definition Read (rd : Reader) (n : nat) : list byte * read_status * Reader :=
  match segments rd with
  | [] => ([], end_status rd, rd)
  | seg :: rest =>
      let chunk := firstn n seg in
      match skipn n seg with
      | [] =>
          let rd' := mkReader rest (ending rd) (with_last rd) in
          match rest with
          | [] => if with_last rd then (chunk, end_status rd, rd')
                  else (chunk, ReadMore, rd')
          | _ :: _ => (chunk, ReadMore, rd')
          end
      | b :: more =>
          (chunk, ReadMore,
           mkReader ((b :: more) :: rest) (ending rd) (with_last rd))
      end
  end.

(** [io.ReadAll]: every byte up to the end, and the read error if the stream
    did not end with EOF. *)
Definition ReadAll (rd : Reader) : list byte * option error :=
  (concat (segments rd), ending rd).

(** [w.Write(p)]: the number of bytes taken, the error, the sink afterwards. *)
Definition Write (s : Sink) (p : list byte) : nat * option error * Sink :=
  match room s with
  | None => (length p, None, mkSink (written s ++ p) None (full_err s))
  | Some r =>
      if (length p <=? r)%nat
      then (length p, None,
            mkSink (written s ++ p) (Some (r - length p)%nat) (full_err s))
      else (r, full_err s,
            mkSink (written s ++ firstn r p) (Some 0%nat) (full_err s))
  end.

(** The number of [Read] calls that exhaust a reader when the buffer is not
    empty: each call takes a byte or closes a segment. *)
Definition read_budget (rd : Reader) : nat :=
  S (length (concat (segments rd)) + length (segments rd)).

(** The loop of [io.CopyBuffer] (neither side offers [WriteTo] or
    [ReadFrom]). *)
Fixpoint copy_loop (fuel n : nat) (rd : Reader) (dst : Sink)
  : result (option error) * Sink :=
  match fuel with
  | O => (OutOfFuel, dst)
  | S fuel' =>
      let '(chunk, er, rd') := Read rd n in
      let after_read dst' :=
        match er with
        | ReadMore => copy_loop fuel' n rd' dst'
        | ReadEOF => (Returned None, dst')
        | ReadErr e => (Returned (Some e), dst')
        end in
      match chunk with
      | [] => after_read dst
      | _ :: _ =>
          let '(nw, ew, dst') := Write dst chunk in
          match ew with
          | Some e => (Returned (Some e), dst')
          | None =>
              if (length chunk =? nw)%nat then after_read dst'
              else (Returned (Some ErrShortWrite), dst')
          end
      end
  end.

(** [io.CopyBuffer(dst, src, buf)] with [len(buf) = n]; it panics on an empty
    buffer. *)
Definition CopyBuffer (dst : Sink) (src : Reader) (n : nat)
  : result (option error) * Sink :=
  match n with
  | O => (Panicked "empty buffer in CopyBuffer", dst)
  | S _ => copy_loop (read_budget src) n src dst
  end.

(** ** client.go *)

Definition nil_dereference : string :=
  "invalid memory address or nil pointer dereference".

(** [if path == "" { path = "/" }] *)
Definition root_if_empty (path : string) : string :=
  if (path =? "")%string then "/" else path.

(** [r.Embedded == nil || r.Embedded.Items == nil || len(r.Embedded.Items) == 0] *)
Definition no_items (r : response) : bool :=
  match rEmbedded r with
  | None => true
  | Some e =>
      match eItems e with
      | None => true
      | Some l => (length l =? 0)%nat
      end
  end.

(** [r.Embedded.Items], read once [no_items] has been ruled out. *)
Definition items (r : response) : list response :=
  match rEmbedded r with
  | None => []
  | Some e => elems (eItems e)
  end.

(** The composite literal [diskFile{Name: i.Name, Size: *i.Size, ...}]: four
    of its fields dereference a pointer of the entry; [None] when one of
    them is nil, and the dereference panics. *)
Definition file_result (i : response) : option diskFile :=
  match rSize i, rFile i, rMD5 i, rSHA256 i with
  | Some size, Some file, Some md5, Some sha256 =>
      Some (mkDiskFile (rName i) (rPath i) size file md5 sha256
                       (rCreated i) (rModified i))
  | _, _, _, _ => None
  end.

(** The accumulator that [getTree] reaches through its three pointers. *)
Record Walk : Type :=
  mkWalk {
    files : slice diskFile;
    count : Z;
    totalSize : Z
  }.

(** [if len(cb) > 0 { callback = cb[0] }] *)
Definition first_callback (cb : list GetTreeCallback) : GetTreeCallback :=
  match cb with
  | f :: _ => f
  | [] => None
  end.

Section Client.

Variable World : Type.

(** [Do u w]: what [NewRequestWithContext] followed by [c.client.Do] hands
    back for the URL [u], retries included, and the world afterwards. *)
Variable Do : URL -> World -> exchange * World.

(** [json.Unmarshal(body, &r)] on a zero [response]. *)
Variable Unmarshal : list byte -> error + response.

Variable c : Config.

Record Env : Type :=
  mkEnv {
    world : World;
    trace : list event
  }.

Definition log (e : event) (env : Env) : Env :=
  mkEnv (world env) (trace env ++ [e]).

Definition send (u : URL) (env : Env) : exchange * Env :=
  let '(x, w') := Do u (world env) in
  (x, mkEnv w' (trace env ++ [EvDo u x])).

Definition request (u : URL) (env : Env) : list byte * option error * Env :=
  let '(x, env') := send u env in
  match x with
  | BadRequest e => ([], Some e, env')
  | DoError e => ([], Some e, env')
  | Response _ body =>
      match ReadAll body with
      | (_, Some e) => ([], Some e, env')
      | (b, None) => (b, None, env')
      end
  end.

Definition Sleep (d : Z) (env : Env) : Env := log (EvSleep d) env.

Section Walk.

Variable link : string.
Variable cb : GetTreeCallback.

Definition notify (a : Walk) (env : Env) : Env :=
  match cb with
  | Some id => log (EvCallback id (count a) (totalSize a)) env
  | None => env
  end.

(** [for _, i := range r.Embedded.Items { switch i.Type { ... } }], with
    the recursive call on a directory entry left open. *)
Definition range_items
    (descend : string -> Walk -> Env -> result (option error) * Walk * Env)
  : list response -> Walk -> Env -> result (option error) * Walk * Env :=
  fix each (l : list response) (a : Walk) (env : Env) :=
    match l with
    | [] => (Returned None, a, env)
    | i :: l' =>
        if (rType i =? FILE)%string then
          match file_result i with
          | Some f =>
              let a' := mkWalk (append (files a) f)
                               (add64 (count a) 1)
                               (add64 (totalSize a) (Size f)) in
              each l' a' (notify a' env)
          | None => (Panicked nil_dereference, a, env)
          end
        else if (rType i =? DIR)%string then
          match descend (rPath i) a env with
          | (Returned None, a', env') => each l' a' env'
          | stop => stop
          end
        else each l' a env
    end.

(** [getTree], entered at [offset]; the source enters it at 0. *)
Fixpoint getTree (fuel : nat) (path : string) (offset : Z)
         (a : Walk) (env : Env) {struct fuel}
  : result (option error) * Walk * Env :=
  match fuel with
  | O => (OutOfFuel, a, env)
  | S fuel' =>
      let '(resp, err, env1) :=
        request (Listing (mkQuery path (Limit c) offset link)) env in
      match err with
      | Some e => (Returned (Some e), a, env1)
      | None =>
          match Unmarshal resp with
          | inl e => (Returned (Some e), a, env1)
          | inr r =>
              if no_items r then (Returned None, a, env1)
              else
                match range_items (fun p => getTree fuel' p 0)
                                  (items r) a env1 with
                | (Returned None, a2, env2) =>
                    getTree fuel' path (add64 offset (Limit c)) a2
                            (Sleep (Timeout c) env2)
                | stop => stop
                end
          end
      end
  end.

End Walk.

(** What [GetTree] runs between building its accumulator and looking at
    the error. *)
Definition GetTree_walk (link path : string) (cb : list GetTreeCallback)
           (fuel : nat) (w : World)
  : result (option error) * Walk * Env :=
  let path := root_if_empty path in
  let callback := first_callback cb in
  getTree link callback fuel path 0 (mkWalk (Some []) 0 0) (mkEnv w []).

(** [GetTree] of the second revision.  [make([]diskFile, 0, c.config.Limit)]
    panics on a negative capacity; a capacity too large for the allocator
    is outside this model. *)
Definition GetTree (link path : string) (cb : list GetTreeCallback)
           (fuel : nat) (w : World)
  : result (slice diskFile * option error) * Env :=
  if Limit c <? 0 then (Panicked "makeslice: cap out of range", mkEnv w [])
  else
    let '(res, a, env) := GetTree_walk link path cb fuel w in
    match res with
    | Returned (Some e) => (Returned (None, Some e), env)
    | Returned None => (Returned (files a, None), env)
    | Panicked m => (Panicked m, env)
    | OutOfFuel => (OutOfFuel, env)
    end.

(** *** The first revision of [GetTree] (no callback, results merged) *)

Definition copy (f : diskFile) : diskFile :=
  mkDiskFile (Name f) (Path f) (Size f) (File f) (MD5 f) (SHA256 f)
             (Created f) (Modified f).

(** [if subFiles != nil { for _, f := range subFiles { files = append(...) } }] *)
Definition merge (files0 subFiles : slice diskFile) : slice diskFile :=
  match subFiles with
  | None => files0
  | Some l => fold_left (fun fs f => append fs (copy f)) l files0
  end.

Section Merge.

Variable link : string.

Definition range_items_v1
    (descend : string -> Env -> result (slice diskFile * option error) * Env)
  : list response -> slice diskFile -> Env
    -> result (slice diskFile * option error) * Env :=
  fix each (l : list response) (fs : slice diskFile) (env : Env) :=
    match l with
    | [] => (Returned (fs, None), env)
    | i :: l' =>
        if (rType i =? FILE)%string then
          match file_result i with
          | Some f => each l' (append fs f) env
          | None => (Panicked nil_dereference, env)
          end
        else if (rType i =? DIR)%string then
          match descend (rPath i) env with
          | (Returned (subFiles, None), env') =>
              each l' (merge fs subFiles) env'
          | (Returned (_, Some e), env') => (Returned (None, Some e), env')
          | stop => stop
          end
        else each l' fs env
    end.

(** The loop of the first [GetTree], entered at [offset] with the files
    gathered so far. *)
Fixpoint GetTree_v1_loop (fuel : nat) (path : string) (offset : Z)
         (fs : slice diskFile) (env : Env) {struct fuel}
  : result (slice diskFile * option error) * Env :=
  match fuel with
  | O => (OutOfFuel, env)
  | S fuel' =>
      let '(resp, err, env1) :=
        request (Listing (mkQuery path (Limit c) offset link)) env in
      match err with
      | Some e => (Returned (None, Some e), env1)
      | None =>
          match Unmarshal resp with
          | inl e => (Returned (None, Some e), env1)
          | inr r =>
              if no_items r then (Returned (fs, None), env1)
              else
                match range_items_v1
                        (fun p => GetTree_v1_loop fuel' (root_if_empty p)
                                                  0 None)
                        (items r) fs env1 with
                | (Returned (fs2, None), env2) =>
                    GetTree_v1_loop fuel' path (add64 offset (Limit c))
                                    fs2 (Sleep (Timeout c) env2)
                | stop => stop
                end
          end
      end
  end.

Definition GetTree_v1 (path : string) (fuel : nat) (w : World)
  : result (slice diskFile * option error) * Env :=
  GetTree_v1_loop fuel (root_if_empty path) 0 None (mkEnv w []).

End Merge.

(** *** [DownloadFile] (the same in both revisions) *)

Definition DownloadFile (file : diskFile) (writer : Sink) (env : Env)
  : result (option error) * Sink * Env :=
  let '(x, env') := send (Direct (File file)) env in
  match x with
  | BadRequest e => (Returned (Some e), writer, env')
  | DoError e => (Returned (Some e), writer, env')
  | Response _ body =>
      if ChunkSize c <? 0
      then (Panicked "makeslice: len out of range", writer, env')
      else
        let '(res, writer') :=
          CopyBuffer writer body (Z.to_nat (ChunkSize c)) in
        (res, writer', env')
  end.

(** ** yadloader.go: [downloadFile] *)

Definition CHUNKSIZE : Z := 1024.
Definition StatusOK : Z := 200.

(** [for { n, err := resp.Body.Read(buffer); ... }] *)
Fixpoint read_write_loop (fuel : nat) (rd : Reader) (outFile : Sink)
  : result (option error) * Sink :=
  match fuel with
  | O => (OutOfFuel, outFile)
  | S fuel' =>
      let '(chunk, er, rd') := Read rd (Z.to_nat CHUNKSIZE) in
      match er with
      | ReadEOF => (Returned None, outFile)
      | ReadErr e =>
          (Returned (Some ("error reading response body: " ++ e)%string),
           outFile)
      | ReadMore =>
          let '(_, ew, outFile') := Write outFile chunk in
          match ew with
          | Some e =>
              (Returned (Some ("error writing to file: " ++ e)%string),
               outFile')
          | None => read_write_loop fuel' rd' outFile'
          end
      end
  end.

(** [created] is what [os.Create(output)] gives. *)
Definition downloadFile (url : string) (created : error + Sink) (env : Env)
  : result (option error) * option Sink * Env :=
  let '(x, env') := send (Direct url) env in
  match x with
  | BadRequest e => (Returned (Some e), None, env')
  | DoError e => (Returned (Some e), None, env')
  | Response status body =>
      if negb (status =? StatusOK)
      then (Returned (Some "request failed with status code"), None, env')
      else
        match created with
        | inl e =>
            (Returned (Some ("error creating output file: " ++ e)%string),
             None, env')
        | inr outFile =>
            let '(res, outFile') :=
              read_write_loop (read_budget body) body outFile in
            (res, Some outFile', env')
        end
  end.

End Client.

Arguments world {World} e.
Arguments trace {World} e.
Arguments mkEnv {World} world trace.
Arguments log {World} e env.
Arguments Sleep {World} d env.
Arguments send {World} Do u env.
Arguments request {World} Do u env.
Arguments notify {World} cb a env.
Arguments range_items {World} cb descend _ _ _.
Arguments getTree {World} Do Unmarshal c link cb fuel path offset a env.
Arguments GetTree_walk {World} Do Unmarshal c link path cb fuel w.
Arguments GetTree {World} Do Unmarshal c link path cb fuel w.
Arguments range_items_v1 {World} descend _ _ _.
Arguments GetTree_v1_loop {World} Do Unmarshal c link fuel path offset fs env.
Arguments GetTree_v1 {World} Do Unmarshal c link path fuel w.
Arguments DownloadFile {World} Do c file writer env.
Arguments downloadFile {World} Do url created env.

(** * Vocabulary of the properties *)

(** ** What a listing exchange amounts to *)

(** The pair [request] returns for an exchange. *)
Definition received (x : exchange) : list byte * option error :=
  match x with
  | BadRequest e => ([], Some e)
  | DoError e => ([], Some e)
  | Response _ body =>
      match ReadAll body with
      | (_, Some e) => ([], Some e)
      | (b, None) => (b, None)
      end
  end.

(** The page a listing exchange decodes to, or the error that [request] or
    [json.Unmarshal] reports for it. *)
Definition decoded (Unmarshal : list byte -> error + response) (x : exchange)
  : error + response :=
  match received x with
  | (_, Some e) => inl e
  | (b, None) => Unmarshal b
  end.

Definition page_failed (Unmarshal : list byte -> error + response)
           (x : exchange) : bool :=
  match decoded Unmarshal x with
  | inl _ => true
  | inr _ => false
  end.

Definition page_nonempty (Unmarshal : list byte -> error + response)
           (x : exchange) : bool :=
  match decoded Unmarshal x with
  | inl _ => false
  | inr r => negb (no_items r)
  end.

(** The exchange a request for [u] gets in [env], and the environment after
    it. *)
Definition reply {World} (Do : URL -> World -> exchange * World) (u : URL)
           (env : Env World) : exchange :=
  fst (Do u (world env)).

Definition after {World} (Do : URL -> World -> exchange * World) (u : URL)
           (env : Env World) : Env World :=
  mkEnv (snd (Do u (world env))) (trace env ++ [EvDo u (reply Do u env)]).

(** 1 for a run that returned an error, 0 for any other. *)
Definition errored (res : result (option error)) : nat :=
  match res with
  | Returned (Some _) => 1
  | _ => 0
  end.

(** ** Observers of a trace *)

Definition tally (p : event -> bool) (tr : list event) : nat :=
  length (filter p tr).

Definition is_failed_fetch (Unmarshal : list byte -> error + response)
           (e : event) : bool :=
  match e with
  | EvDo _ x => page_failed Unmarshal x
  | _ => false
  end.

Definition failed_fetches {World}
           (Unmarshal : list byte -> error + response) (env : Env World)
  : nat :=
  tally (is_failed_fetch Unmarshal) (trace env).

Definition is_nonempty_fetch (Unmarshal : list byte -> error + response)
           (e : event) : bool :=
  match e with
  | EvDo _ x => page_nonempty Unmarshal x
  | _ => false
  end.

Definition is_sleep (e : event) : bool :=
  match e with
  | EvSleep _ => true
  | _ => false
  end.

Definition pauses {World} (env : Env World) : nat :=
  tally is_sleep (trace env).

Definition nonempty_pages {World}
           (Unmarshal : list byte -> error + response) (env : Env World)
  : nat :=
  tally (is_nonempty_fetch Unmarshal) (trace env).

(** Every pause recorded in the trace lasts [d0]. *)
Definition pauses_last (d0 : Z) (tr : list event) : Prop :=
  forall d, In (EvSleep d) tr -> d = d0.

Definition is_listing (e : event) : bool :=
  match e with
  | EvDo (Listing _) _ => true
  | _ => false
  end.

(** The trace ends with a pause. *)
Fixpoint ends_paused (tr : list event) : bool :=
  match tr with
  | [] => false
  | e :: tl =>
      match tl with
      | [] => is_sleep e
      | _ :: _ => ends_paused tl
      end
  end.

(** Every pause is directly followed by a listing request, unless the trace
    ends with it. *)
Fixpoint well_paused (tr : list event) : bool :=
  match tr with
  | [] => true
  | e :: tl =>
      match tl with
      | [] => true
      | e' :: _ => (negb (is_sleep e) || is_listing e') && well_paused tl
      end
  end.

Definition is_callback (e : event) : bool :=
  match e with
  | EvCallback _ _ _ => true
  | _ => false
  end.

Definition callbacks (tr : list event) : list event := filter is_callback tr.

Definition without_callbacks (tr : list event) : list event :=
  filter (fun e => negb (is_callback e)) tr.

(** ** Progress reports *)

(** The sum of a list of [int64] values as Go computes it. *)
Definition sum64 (l : list Z) : Z := fold_left add64 l 0.

(** The exact sum. *)
Definition total (l : list Z) : Z := fold_left Z.add l 0.

(** The reports a callback [id] gets for the results [fs]: report [k] carries
    [k] and the size of the first [k] results, in [int64] arithmetic. *)
Definition progress (id : nat) (fs : list diskFile) : list event :=
  map (fun k => EvCallback id (wrap64 (Z.of_nat k))
                           (sum64 (map Size (firstn k fs))))
      (seq 1 (length fs)).

(** The same reports with exact numbers. *)
Definition exact_progress (id : nat) (fs : list diskFile) : list event :=
  map (fun k => EvCallback id (Z.of_nat k) (total (map Size (firstn k fs))))
      (seq 1 (length fs)).

(** The results are few enough and small enough for [int64]: the count fits
    and so does every running size. *)
Definition fits_int64 (fs : list diskFile) : Prop :=
  forall k, (k <= length fs)%nat ->
            in_int64 (Z.of_nat k) /\ in_int64 (total (map Size (firstn k fs))).

Definition expected_reports (cb : GetTreeCallback) (fs : list diskFile)
  : list event :=
  match cb with
  | Some id => progress id fs
  | None => []
  end.

(** The accumulator and the trace agree: the count is the number of results,
    the size is their sum, and the callback has been told of each result in
    turn. *)
Definition consistent {World} (cb : GetTreeCallback) (a : Walk)
           (env : Env World) : Prop :=
  count a = wrap64 (Z.of_nat (len (files a))) /\
  totalSize a = sum64 (map Size (elems (files a))) /\
  callbacks (trace env) = expected_reports cb (elems (files a)).

(** [env0] is [env] with the callback's invocations left out. *)
Definition quiet {World} (env0 env : Env World) : Prop :=
  world env0 = world env /\ trace env0 = without_callbacks (trace env).

(** ** A remote directory tree *)

Inductive rnode : Type :=
| RFile (f : diskFile)
| RDir (name path : string) (children : list rnode).

(** The files of a tree, depth first. *)
Fixpoint files_of (t : rnode) : list diskFile :=
  match t with
  | RFile f => [f]
  | RDir _ _ children => flat_map files_of children
  end.

(** The number of file entries of a tree. *)
Fixpoint file_count (t : rnode) : nat :=
  match t with
  | RFile _ => 1
  | RDir _ _ children =>
      fold_right (fun t' n => (file_count t' + n)%nat) 0%nat children
  end.

(** The listing entry [i] describes the node [t]. *)
Definition describes (i : response) (t : rnode) : Prop :=
  match t with
  | RFile f =>
      rType i = FILE /\ rName i = Name f /\ rPath i = Path f /\
      rSize i = Some (Size f) /\ rFile i = Some (File f) /\
      rMD5 i = Some (MD5 f) /\ rSHA256 i = Some (SHA256 f) /\
      rCreated i = Created f /\ rModified i = Modified f
  | RDir name path _ =>
      rType i = DIR /\ rName i = name /\ rPath i = path
  end.

(** [pages] cuts the listing [children] into pages: none is empty and their
    concatenation is the listing. *)
Definition partitions (pages : list (list rnode)) (children : list rnode)
  : Prop :=
  concat pages = children /\ Forall (fun p => p <> []) pages.

Section Server.

Variable World : Type.
Variable Do : URL -> World -> exchange * World.
Variable Unmarshal : list byte -> error + response.
Variable limit : Z.
Variable link : string.

(** Request number [k] for [path] is answered with the page [p]. *)
Definition answers (path : string) (k : nat) (p : list rnode) : Prop :=
  forall w, exists r,
    decoded Unmarshal
            (fst (Do (Listing (mkQuery path limit (Z.of_nat k * limit) link)) w))
    = inr r /\
    Forall2 describes (items r) p.

(** The server holds the tree [t]: each of its directories has a listing cut
    into pages in some way, request [k] for the directory gets page [k], and
    a request past the last page gets no items. *)
Inductive serves : rnode -> Prop :=
| serves_file : forall f, serves (RFile f)
| serves_dir : forall name path children pages,
    partitions pages children ->
    (forall k, answers path k (nth k pages [])) ->
    in_int64 (Z.of_nat (S (length pages)) * limit) ->
    Forall serves children ->
    serves (RDir name path children).

End Server.

Arguments answers {World} Do Unmarshal limit link path k p.
Arguments serves {World} Do Unmarshal limit link _.

Definition well_formed (f : diskFile) : Prop :=
  Name f <> "" /\ Path f <> "" /\ File f <> "" /\ 0 <= Size f.

(** From [n0] units of fuel on, the walk of the directory [path] with the
    children [children] returns normally, having appended the files of the
    children to the accumulator. *)
Definition walks_dir {World} (Do : URL -> World -> exchange * World)
           (Unmarshal : list byte -> error + response) (c : Config)
           (link : string) (cb : GetTreeCallback) (path : string)
           (offset : Z) (fs : list diskFile) (n0 : nat) : Prop :=
  forall fuel, (n0 <= fuel)%nat ->
  forall a env, exists a' env',
    getTree Do Unmarshal c link cb fuel path offset a env
    = (Returned None, a', env') /\
    elems (files a') = elems (files a) ++ fs /\
    (files a <> None -> files a' <> None).

Definition walks_node {World} (Do : URL -> World -> exchange * World)
           (Unmarshal : list byte -> error + response) (c : Config)
           (link : string) (cb : GetTreeCallback) (t : rnode) : Prop :=
  match t with
  | RFile _ => True
  | RDir _ path children =>
      exists n0, walks_dir Do Unmarshal c link cb path 0
                           (flat_map files_of children) n0
  end.

(** ** What the walk does not read *)

(** [f] leaves the items of a listing response as they are. *)
Definition keeps_items (f : response -> response) : Prop :=
  forall r, no_items (f r) = no_items r /\ items (f r) = items r.

(** The decoder that hands out [f r] where [Unmarshal] hands out [r]. *)
Definition redecode (f : response -> response)
           (Unmarshal : list byte -> error + response) (b : list byte)
  : error + response :=
  match Unmarshal b with
  | inl e => inl e
  | inr r => inr (f r)
  end.



Definition with_type (ty : entryType) (r : response) : response :=
  mkResponse (rPath r) ty (rName r) (rCreated r) (rModified r)
             (rSize r) (rMD5 r) (rSHA256 r) (rPublicKey r) (rMediaType r)
             (rResourceId r) (rFile r) (rEmbedded r).

(** ** Replaying a sequence of server responses *)

(** The world is the sequence of exchanges still to come: each request gets
    the next one, whatever it asks for; past the end the client gets an
    error. *)
Definition replay (u : URL) (w : list exchange) : exchange * list exchange :=
  match w with
  | [] => (DoError "no response", [])
  | x :: w' => (x, w')
  end.

(** A run of the first revision's loop, entered with the files [fs], and a
    run of [getTree], entered with the accumulator [a], end the same way and
    have gathered the same new files. *)
Definition agrees {World} (fs : slice diskFile) (a : Walk)
           (r1 : result (slice diskFile * option error) * Env World)
           (r2 : result (option error) * Walk * Env World) : Prop :=
  world (snd r1) = world (snd r2) /\
  match fst r1, fst (fst r2) with
  | Returned (fs', None), Returned None =>
      exists new, elems fs' = elems fs ++ new /\
                  elems (files (snd (fst r2))) = elems (files a) ++ new
  | Returned (fs', Some e1), Returned (Some e2) => fs' = None /\ e1 = e2
  | Panicked m1, Panicked m2 => m1 = m2
  | OutOfFuel, OutOfFuel => True
  | _, _ => False
  end.

(** Two runs end the same way: both return the same error and the same
    sequence of files, or both panic with the same message, or both are still
    running, and they leave the same world. *)
Definition same_outcome {World}
           (r1 r2 : result (slice diskFile * option error) * Env World) : Prop :=
  world (snd r1) = world (snd r2) /\
  match fst r1, fst r2 with
  | Returned (fs1, e1), Returned (fs2, e2) => elems fs1 = elems fs2 /\ e1 = e2
  | Panicked m1, Panicked m2 => m1 = m2
  | OutOfFuel, OutOfFuel => True
  | _, _ => False
  end.

(** * A small share to run the client on *)

Definition file_entry (name path : string) (size : Z) : response :=
  mkResponse path FILE name "2024-05-01T10:00:00+00:00"
             "2024-05-02T10:00:00+00:00" (Some size) (Some "md5") (Some "sha")
             "" (Some "text/plain") ""
             (Some ("https://downloader.disk/" ++ name)%string) None.

Definition dir_entry (name path : string) : response :=
  mkResponse path DIR name "" "" None None None "" None "" None None.

(** A listing response for [path] with the given items and reported total. *)
Definition listing (path : string) (reported : Z) (l : slice response)
  : response :=
  mkResponse path DIR "" "" "" None None None "" None ""
             None (Some (mkEmbedded path 2 0 "" reported l)).

(** The result a well-formed file entry turns into. *)
Definition file_of (name path : string) (size : Z) : diskFile :=
  mkDiskFile name path size ("https://downloader.disk/" ++ name)%string
             "md5" "sha" "2024-05-01T10:00:00+00:00"
             "2024-05-02T10:00:00+00:00".

(** Bodies are one byte long: the byte is the index of the decoded response
    in a table. Any other body is not JSON. *)
Definition decode_by_table (tbl : list response) (b : list byte)
  : error + response :=
  match b with
  | [x] =>
      match nth_error tbl (Byte.to_nat x) with
      | Some r => inr r
      | None => inl "unexpected end of JSON input"
      end
  | _ => inl "invalid character"
  end.

Definition body (status : Z) (b : byte) : exchange :=
  Response status (mkReader [[b]] None false).

(** A server without state: request [k] for a path gets the [k]-th exchange
    kept for that path, and a page without items past the last one. *)
Definition paged_server (pages : string -> list exchange)
           (download : string -> exchange) (u : URL) (w : unit)
  : exchange * unit :=
  match u with
  | Listing q =>
      (nth (Z.to_nat (q_offset q / q_limit q)) (pages (q_path q))
           (body 200 x00), tt)
  | Direct s => (download s, tt)
  end.

Definition two_per_page : Config :=
  mkConfig 2 (10 * Second) (5 * Second) 3 4.

(** The share: [/] holds [a] (3 bytes), the directory [d] and [b] (4 bytes);
    [/d] holds [c] (5 bytes).  With two entries per page, [/] takes two
    pages. *)
Definition share : rnode :=
  RDir "" "/" [RFile (file_of "a" "/a" 3);
               RDir "d" "/d" [RFile (file_of "c" "/d/c" 5)];
               RFile (file_of "b" "/b" 4)].

Definition share_table : list response :=
  [listing "/" 0 None;
   listing "/" 3 (Some [file_entry "a" "/a" 3; dir_entry "d" "/d"]);
   listing "/" 3 (Some [file_entry "b" "/b" 4]);
   listing "/d" 1 (Some [file_entry "c" "/d/c" 5]);
   (* a file entry without size, hashes and download URL *)
   listing "/" 1 (Some [mkResponse "/x" FILE "x" "" "" None None None
                                   "" None "" None None]);
   (* the metadata of a single file, as the API answers for a file path *)
   file_entry "a" "/a" 3;
   (* the JSON body of an error page *)
   mkResponse "" "" "" "" "" None None None "" None "" None None;
   (* a listing whose only entry is a directory without a path *)
   listing "/" 1 (Some [dir_entry "" ""])].

Definition share_pages (path : string) : list exchange :=
  if (path =? "/")%string then [body 200 x01; body 200 x02]
  else if (path =? "/d")%string then [body 200 x03]
  else [].

Definition no_download (s : string) : exchange := DoError "no such host".

Definition share_server : URL -> unit -> exchange * unit :=
  paged_server share_pages no_download.



(** A share whose only entry is a file without size, hashes and URL. *)
Definition nil_field_pages (path : string) : list exchange :=
  if (path =? "/")%string then [body 200 x04] else [].

Definition nil_field_server : URL -> unit -> exchange * unit :=
  paged_server nil_field_pages no_download.

(** The API asked to list a path that is a file: it describes the file. *)
Definition file_path_pages (path : string) : list exchange :=
  if (path =? "/a")%string then [body 200 x05] else [].

Definition file_path_server : URL -> unit -> exchange * unit :=
  paged_server file_path_pages no_download.

(** A server that answers every request with status 404 and an error page;
    the retrying client does not retry a 404 and hands the response on. *)
Definition error_page : list byte := list_byte_of_string "Not Found".

Definition not_found_pages (path : string) : list exchange :=
  [body 404 x06].

Definition not_found_download (s : string) : exchange :=
  Response 404 (mkReader [error_page] None true).

Definition not_found_server : URL -> unit -> exchange * unit :=
  paged_server not_found_pages not_found_download.

Definition empty_sink : Sink := mkSink [] None None.

(** A server that sends the 13 bytes of a file in two segments and reports
    EOF together with the last bytes. *)
Definition content : list byte := list_byte_of_string "hello, world!".

Definition content_download (s : string) : exchange :=
  Response 200 (mkReader [list_byte_of_string "hello, ";
                          list_byte_of_string "world!"] None true).

Definition content_server : URL -> unit -> exchange * unit :=
  paged_server share_pages content_download.

(** The responses the share sends during one walk, in order. *)
Definition share_script : list exchange :=
  [body 200 x01; body 200 x03; body 200 x00; body 200 x02; body 200 x00].

(** A server with state: it lists [/] once, as a single directory entry
    whose path is empty, and tells the empty path from [/]: under the empty
    path it lists the file [c]. *)
Definition once_server (u : URL) (listed : bool) : exchange * bool :=
  match u with
  | Listing q =>
      if (q_path q =? "/")%string
      then (if listed then body 200 x00 else body 200 x07, true)
      else if (q_path q =? "")%string && (q_offset q =? 0)
           then (body 200 x03, listed)
           else (body 200 x00, listed)
  | Direct _ => (DoError "no such host", listed)
  end.

(** * Further vocabulary *)

(** ** Where the reports stand in a trace *)

(** What one invocation of the callback leaves in the trace. *)
Definition report (cb : GetTreeCallback) (n t : Z) : list event :=
  match cb with
  | Some id => [EvCallback id n t]
  | None => []
  end.

(** A walk that ran to its end: it returned without an error. *)
Definition finished (res : result (option error)) : bool :=
  match res with
  | Returned None => true
  | _ => false
  end.

Section Layout.

Variable Unmarshal : list byte -> error + response.

(** The pause after a page. *)
Variable pause : Z.

Variable cb : GetTreeCallback.

(** [items_trace sub l n t tr n' t' fin]: [tr] is what ranging over the
    entries [l] leaves in the trace when the counters stand at [(n, t)]
    before and at [(n', t')] after.  A file entry leaves its report, with
    the counters as they are once the entry is counted, before anything of
    the entries that follow; a directory entry leaves the trace [sub] of
    its walk; any other entry leaves nothing.  [fin] is false when the
    range stopped before the end of [l]. *)
Inductive items_trace
          (sub : string -> Z -> Z -> list event -> Z -> Z -> bool -> Prop)
  : list response -> Z -> Z -> list event -> Z -> Z -> bool -> Prop :=
| items_end : forall n t, items_trace sub [] n t [] n t true
| items_file : forall i l f n t tr n' t' fin,
    (rType i =? FILE)%string = true ->
    file_result i = Some f ->
    items_trace sub l (add64 n 1) (add64 t (Size f)) tr n' t' fin ->
    items_trace sub (i :: l) n t
                (report cb (add64 n 1) (add64 t (Size f)) ++ tr) n' t' fin
| items_nil_field : forall i l n t,
    (rType i =? FILE)%string = true ->
    file_result i = None ->
    items_trace sub (i :: l) n t [] n t false
| items_dir : forall i l n t tr1 n1 t1 tr2 n2 t2 fin,
    (rType i =? FILE)%string = false ->
    (rType i =? DIR)%string = true ->
    sub (rPath i) n t tr1 n1 t1 true ->
    items_trace sub l n1 t1 tr2 n2 t2 fin ->
    items_trace sub (i :: l) n t (tr1 ++ tr2) n2 t2 fin
| items_dir_stops : forall i l n t tr1 n1 t1,
    (rType i =? FILE)%string = false ->
    (rType i =? DIR)%string = true ->
    sub (rPath i) n t tr1 n1 t1 false ->
    items_trace sub (i :: l) n t tr1 n1 t1 false
| items_other : forall i l n t tr n' t' fin,
    (rType i =? FILE)%string = false ->
    (rType i =? DIR)%string = false ->
    items_trace sub l n t tr n' t' fin ->
    items_trace sub (i :: l) n t tr n' t' fin.

(** [walk_trace path n t tr n' t' fin]: [tr] is the trace of a walk of the
    directory [path]: page after page, the request for the page, then what
    its entries leave, in their order, then the pause; the last request is
    the one that fails or brings no items.  [fin] is false when the walk
    stopped early: on an error, on a panic or out of fuel. *)
Inductive walk_trace
  : string -> Z -> Z -> list event -> Z -> Z -> bool -> Prop :=
| walk_cut : forall path n t, walk_trace path n t [] n t false
| walk_failed : forall path n t q x e,
    q_path q = path ->
    decoded Unmarshal x = inl e ->
    walk_trace path n t [EvDo (Listing q) x] n t false
| walk_end : forall path n t q x r,
    q_path q = path ->
    decoded Unmarshal x = inr r ->
    no_items r = true ->
    walk_trace path n t [EvDo (Listing q) x] n t true
| walk_page : forall path n t q x r tr1 n1 t1 tr2 n2 t2 fin,
    q_path q = path ->
    decoded Unmarshal x = inr r ->
    no_items r = false ->
    items_trace walk_trace (items r) n t tr1 n1 t1 true ->
    walk_trace path n1 t1 tr2 n2 t2 fin ->
    walk_trace path n t
               (EvDo (Listing q) x :: tr1 ++ EvSleep pause :: tr2) n2 t2 fin
| walk_stops : forall path n t q x r tr1 n1 t1,
    q_path q = path ->
    decoded Unmarshal x = inr r ->
    no_items r = false ->
    items_trace walk_trace (items r) n t tr1 n1 t1 false ->
    walk_trace path n t (EvDo (Listing q) x :: tr1) n1 t1 false.

End Layout.

(** ** A share whose server counts in entries *)

(** [/] holds the files [a] and [b]. *)
Definition pair_share : rnode :=
  RDir "" "/" [RFile (file_of "a" "/a" 3); RFile (file_of "b" "/b" 4)].

(** A file entry with an empty name, path and URL and a negative size. *)
Definition nameless_entry : response :=
  mkResponse "" FILE "" "" "" (Some (-1)) (Some "") (Some "") "" None ""
             (Some "") None.

Definition pair_table : list response :=
  [listing "/" 2 None;
   listing "/" 2 (Some [file_entry "a" "/a" 3]);
   listing "/" 2 (Some [file_entry "b" "/b" 4]);
   listing "/" 1 (Some [nameless_entry])].

(** The server sends one entry to a page, whatever limit it is asked for,
    and reads the offset as a number of entries: [a] at offset 0, [b] at
    offset 1, nothing further on. *)
Definition one_entry_server (u : URL) (w : unit) : exchange * unit :=
  match u with
  | Listing q =>
      (if (q_path q =? "/")%string
       then nth (Z.to_nat (q_offset q)) [body 200 x01; body 200 x02]
                (body 200 x00)
       else body 200 x00, tt)
  | Direct s => (no_download s, tt)
  end.

(** A share whose only entry is [nameless_entry]. *)
Definition nameless_pages (path : string) : list exchange :=
  if (path =? "/")%string then [body 200 x03] else [].

Definition nameless_server : URL -> unit -> exchange * unit :=
  paged_server nameless_pages no_download.

(** ** Downloads *)

(** The bytes of the body a download exchange carries. *)
Definition body_stream (x : exchange) : list byte :=
  match x with
  | Response _ body => concat (segments body)
  | _ => []
  end.

(** The error a copy ends with when the sink cuts a write short: the sink's
    own, or [io.ErrShortWrite] when it reports none. *)
Definition full_error (s : Sink) : error :=
  match full_err s with
  | Some e => e
  | None => ErrShortWrite
  end.

(** The last segment of a body, [[]] when it has none. *)
Definition last_segment (rd : Reader) : list byte := last (segments rd) [].

(** ** Entries and requests of a walk *)

(** The entry's type is one of the two the walk has a case for. *)
Definition known_type (i : response) : bool :=
  (rType i =? FILE)%string || (rType i =? DIR)%string.

(** A file entry that carries its size, URL and hashes. *)
Definition complete (i : response) : Prop :=
  rType i = FILE -> file_result i <> None.

(** Every file entry the decoder can hand out is complete. *)
Definition complete_pages (Unmarshal : list byte -> error + response) : Prop :=
  forall b r, Unmarshal b = inr r -> Forall complete (items r).

(** The entry [i] was an item of a page fetched in [tr]. *)
Definition seen_entry (Unmarshal : list byte -> error + response)
           (tr : list event) (i : response) : Prop :=
  exists u x r,
    In (EvDo u x) tr /\ decoded Unmarshal x = inr r /\ In i (items r).

(** The result [f] is what a file entry fetched in [tr] turns into. *)
Definition from_file_entry (Unmarshal : list byte -> error + response)
           (tr : list event) (f : diskFile) : Prop :=
  exists i,
    seen_entry Unmarshal tr i /\ rType i = FILE /\ file_result i = Some f.

(** Every result in the accumulator comes from a fetched file entry. *)
Definition sound_results {World}
           (Unmarshal : list byte -> error + response) (a : Walk)
           (env : Env World) : Prop :=
  Forall (from_file_entry Unmarshal (trace env)) (elems (files a)).

(** An offset the loop can be at: a multiple of the limit, in [int64]
    arithmetic. *)
Definition page_offset (c : Config) (o : Z) : Prop :=
  exists k : nat, o = wrap64 (Z.of_nat k * Limit c).

(** The event is no request, or a listing request with the configured limit,
    the caller's link and a page offset. *)
Definition asks_listing (c : Config) (link : string) (e : event) : Prop :=
  match e with
  | EvDo (Listing q) _ =>
      q_limit q = Limit c /\ q_public_key q = link /\
      page_offset c (q_offset q)
  | EvDo (Direct _) _ => False
  | _ => True
  end.

(** The URLs downloaded from, in order. *)
Fixpoint downloads (tr : list event) : list string :=
  match tr with
  | [] => []
  | EvDo (Direct u) _ :: tr' => u :: downloads tr'
  | _ :: tr' => downloads tr'
  end.

(** ** More servers and sinks for the small share *)

(** A download whose connection breaks after seven bytes. *)
Definition cut_download (s : string) : exchange :=
  Response 200 (mkReader [list_byte_of_string "hello, "]
                         (Some "unexpected EOF") false).

Definition cut_server : URL -> unit -> exchange * unit :=
  paged_server share_pages cut_download.

(** A disk with room for five more bytes. *)
Definition small_sink : Sink :=
  mkSink [] (Some 5%nat) (Some "no space left on device").

Definition no_chunk : Config :=
  mkConfig 2 (10 * Second) (5 * Second) 3 0.

(** The same 13 bytes with EOF reported by a [Read] of its own. *)
Definition plain_download (s : string) : exchange :=
  Response 200 (mkReader [list_byte_of_string "hello, ";
                          list_byte_of_string "world!"] None false).

Definition plain_server : URL -> unit -> exchange * unit :=
  paged_server share_pages plain_download.

(** The pages of the share that decode to complete entries. *)
Definition complete_table : list response := firstn 4 share_table.

(** * The callers: yadloader.go and the command-line program *)

(** ** strings *)

(** [strings.HasSuffix] and [strings.TrimSuffix]. *)
Definition HasSuffix (s suffix : string) : bool :=
  (String.length suffix <=? String.length s)%nat &&
  (substring (String.length s - String.length suffix) (String.length suffix) s
   =? suffix)%string.

Definition TrimSuffix (s suffix : string) : string :=
  if HasSuffix s suffix
  then substring 0 (String.length s - String.length suffix) s
  else s.

(** ** The file system *)

(** What [os.Stat] says of a path, as far as the callers look: it is there,
    it is not ([os.IsNotExist]), or the call failed otherwise. *)
Inductive stat : Type :=
| Exists
| NotExist
| StatError (e : error).

(** The machine a caller runs on: the network, the file system, the files
    opened for writing with what they hold in the end, and the lines
    logged. *)
Record Machine (World OS : Type) : Type :=
  mkMachine {
    net : Env World;
    disk : OS;
    stored : list (string * Sink);
    logged : list string
  }.
Arguments mkMachine {World OS} net disk stored logged.
Arguments net {World OS} m.
Arguments disk {World OS} m.
Arguments stored {World OS} m.
Arguments logged {World OS} m.

(** How a program ends: [os.Exit] (or the return of [main], code 0), a
    panic, or not yet. *)
Inductive exit : Type :=
| Exit (code : Z)
| Crash (msg : string)
| Running.

(** [0755] *)
Definition rwxr_xr_x : Z := 493.

(** ** yadloader.go *)

Module Script.

Definition LIMIT : Z := 100.
Definition TIMEOUT : Z := 10.
Definition WAIT : Z := 5.
Definition MAXTRIES : Z := 3.

(** How a function of the script ends: it returns, it panics, [log.Fatal]
    ends the program with the error [e] logged, or the model is out of
    fuel. *)
Inductive ending (A : Type) : Type :=
| Done (a : A)
| Panic (msg : string)
| Fatal (e : error)
| NoFuel.
Arguments Done {A} a.
Arguments Panic {A} msg.
Arguments Fatal {A} e.
Arguments NoFuel {A}.

(** An ending of the client's functions, which never call [log.Fatal]. *)
Definition of_result {A} (r : result A) : ending A :=
  match r with
  | Returned a => Done a
  | Panicked m => Panic m
  | OutOfFuel => NoFuel
  end.

Section Script.

Variable World : Type.
Variable Do : URL -> World -> exchange * World.
Variable Unmarshal : list byte -> error + response.

Variable OS : Type.
Variable Stat : string -> OS -> stat.
Variable MkdirAll : string -> Z -> OS -> option error * OS.
Variable Create : string -> OS -> (error + Sink) * OS.

(** [filepath.Join] of two elements. *)
Variable Join : string -> string -> string.

Section Tree.

(** [Body.Close()] of a response body: the error it returns, if any. *)
Variable Close : Reader -> option error.

Variable link : string.

(** [request(url)].  Once [retryClient.Get] has answered, the deferred
    function closes the body on the way out, whether [io.ReadAll] failed or
    not, and ends the program with [log.Fatal] when closing fails. *)
Definition request (u : URL) (env : Env World)
  : ending (list byte * option error) * Env World :=
  let '(x, env') := send Do u env in
  match x with
  | BadRequest e => (Done ([], Some e), env')
  | DoError e => (Done ([], Some e), env')
  | Response _ body =>
      let ret :=
        match ReadAll body with
        | (_, Some e) => ([], Some e)
        | (b, None) => (b, None)
        end in
      match Close body with
      | Some e => (Fatal e, env')
      | None => (Done ret, env')
      end
  end.

(** [for _, i := range r.Embedded.Items { switch i.Type { ... } }], with
    the recursive call on a directory entry left open. *)
Definition range_items
    (descend : string -> Env World
               -> ending (slice diskFile * option error) * Env World)
  : list response -> slice diskFile -> Env World
    -> ending (slice diskFile * option error) * Env World :=
  fix each (l : list response) (fs : slice diskFile) (env : Env World) :=
    match l with
    | [] => (Done (fs, None), env)
    | i :: l' =>
        if (rType i =? FILE)%string then
          match file_result i with
          | Some f => each l' (append fs f) env
          | None => (Panic nil_dereference, env)
          end
        else if (rType i =? DIR)%string then
          match descend (rPath i) env with
          | (Done (subFiles, None), env') => each l' (merge fs subFiles) env'
          | (Done (_, Some e), env') => (Done (None, Some e), env')
          | stop => stop
          end
        else each l' fs env
    end.

(** The loop of [getTree], entered at [offset] with the files gathered so
    far. *)
Fixpoint getTree_loop (fuel : nat) (path : string) (offset : Z)
         (fs : slice diskFile) (env : Env World) {struct fuel}
  : ending (slice diskFile * option error) * Env World :=
  match fuel with
  | O => (NoFuel, env)
  | S fuel' =>
      match request (Listing (mkQuery path LIMIT offset link)) env with
      | (Done (_, Some e), env1) => (Done (None, Some e), env1)
      | (Done (resp, None), env1) =>
          match Unmarshal resp with
          | inl e => (Done (None, Some e), env1)
          | inr r =>
              if no_items r then (Done (fs, None), env1)
              else
                match range_items
                        (fun p => getTree_loop fuel' (root_if_empty p) 0 None)
                        (items r) fs env1 with
                | (Done (fs2, None), env2) =>
                    getTree_loop fuel' path (add64 offset LIMIT) fs2
                                 (Sleep (TIMEOUT * Second) env2)
                | stop => stop
                end
          end
      | (Panic m, env1) => (Panic m, env1)
      | (Fatal e, env1) => (Fatal e, env1)
      | (NoFuel, env1) => (NoFuel, env1)
      end
  end.

Definition getTree (path : string) (fuel : nat) (w : World)
  : ending (slice diskFile * option error) * Env World :=
  getTree_loop fuel (root_if_empty path) 0 None (mkEnv w []).

End Tree.

(** [downloadFile(url, output)] on a machine: [os.Create] is reached only
    after a 200 response. *)
Definition downloadFile (url output : string) (m : Machine World OS)
  : result (option error) * Machine World OS :=
  let '(x, env') := send Do (Direct url) (net m) in
  match x with
  | BadRequest e =>
      (Returned (Some e), mkMachine env' (disk m) (stored m) (logged m))
  | DoError e =>
      (Returned (Some e), mkMachine env' (disk m) (stored m) (logged m))
  | Response status body =>
      if negb (status =? StatusOK)
      then (Returned (Some "request failed with status code"),
            mkMachine env' (disk m) (stored m) (logged m))
      else
        match Create output (disk m) with
        | (inl e, d) =>
            (Returned (Some ("error creating output file: " ++ e)%string),
             mkMachine env' d (stored m) (logged m))
        | (inr outFile, d) =>
            let '(res, outFile') :=
              read_write_loop (read_budget body) body outFile in
            (res, mkMachine env' d (stored m ++ [(output, outFile')])
                            (logged m))
        end
  end.

(** [for _, file := range files { ... }] of [downloadFiles]. *)
Fixpoint range_files (output : string) (files : list diskFile)
         (m : Machine World OS) : result (option error) * Machine World OS :=
  match files with
  | [] => (Returned None, m)
  | file :: rest =>
      let finalPath := TrimSuffix (Path file) (Name file) in
      let finalFolder := Join output finalPath in
      let '(err, d) :=
        match Stat finalFolder (disk m) with
        | NotExist => MkdirAll finalFolder rwxr_xr_x (disk m)
        | _ => (None, disk m)
        end in
      match err with
      | Some e =>
          (Returned (Some e), mkMachine (net m) d (stored m) (logged m))
      | None =>
          let finalPath := Join finalFolder (Name file) in
          match downloadFile (File file) finalPath
                             (mkMachine (net m) d (stored m) (logged m)) with
          | (Returned (Some e), m') =>
              range_files output rest
                (mkMachine (net m') (disk m') (stored m')
                   (logged m'
                    ++ [("error downloading file: " ++ Name file ++ ", " ++ e)
                          %string]))
          | (Returned None, m') => range_files output rest m'
          | stop => stop
          end
      end
  end.

Definition downloadFiles (files : list diskFile) (output : string)
           (m : Machine World OS) : result (option error) * Machine World OS :=
  match Stat output (disk m) with
  | NotExist =>
      match MkdirAll output rwxr_xr_x (disk m) with
      | (Some e, d) =>
          (Returned (Some e), mkMachine (net m) d (stored m) (logged m))
      | (None, d) =>
          range_files output files
                      (mkMachine (net m) d (stored m) (logged m))
      end
  | StatError e => (Returned (Some e), m)
  | Exists => range_files output files m
  end.

End Script.

End Script.

(** ** The command-line program *)

Module Cli.

Record Args : Type :=
  mkArgs {
    aLink : string;
    aPath : string;
    aFolder : string
  }.

Section Cli.

Variable World : Type.
Variable Do : URL -> World -> exchange * World.
Variable Unmarshal : list byte -> error + response.
Variable c : Config.

Variable OS : Type.
Variable Stat : string -> OS -> stat.
Variable MkdirAll : string -> Z -> OS -> option error * OS.
Variable Create : string -> OS -> (error + Sink) * OS.
Variable Join : string -> string -> string.

Definition makeFolder (folder : string) (perm : Z) (d : OS)
  : option error * OS :=
  let perm := if perm =? 0 then rwxr_xr_x else perm in
  match Stat folder d with
  | NotExist => MkdirAll folder perm d
  | StatError e => (Some e, d)
  | Exists => (None, d)
  end.

(** [log.Fatal(err)]: the line and exit code 1. *)
Definition Fatal (e : error) (m : Machine World OS) : exit * Machine World OS :=
  (Exit 1, mkMachine (net m) (disk m) (stored m) (logged m ++ [e])).

(** Where the loop of [main] puts a file. *)
Definition destination (output : string) (file : diskFile) : string :=
  Join (Join output (TrimSuffix (Path file) (Name file))) (Name file).

(** One turn of the loop of [main]; [None] when the loop goes on. *)
Definition fetch (output : string) (file : diskFile) (m : Machine World OS)
  : option exit * Machine World OS :=
  let finalPath := TrimSuffix (Path file) (Name file) in
  let finalFolder := Join output finalPath in
  match makeFolder finalFolder rwxr_xr_x (disk m) with
  | (Some e, d) =>
      let '(x, m') := Fatal e (mkMachine (net m) d (stored m) (logged m)) in
      (Some x, m')
  | (None, d) =>
      let finalPath := Join finalFolder (Name file) in
      match Create finalPath d with
      | (inl e, d') =>
          let '(x, m') :=
            Fatal e (mkMachine (net m) d' (stored m) (logged m)) in
          (Some x, m')
      | (inr f, d') =>
          let '(res, f', env') := DownloadFile Do c file f (net m) in
          let m' := mkMachine env' d' (stored m ++ [(finalPath, f')])
                              (logged m) in
          match res with
          | Returned (Some e) => let '(x, m'') := Fatal e m' in (Some x, m'')
          | Returned None => (None, m')
          | Panicked msg => (Some (Crash msg), m')
          | OutOfFuel => (Some Running, m')
          end
      end
  end.

(** [for _, file := range files { ... }] of [main]. *)
Fixpoint range_files (output : string) (files : list diskFile)
         (m : Machine World OS) : option exit * Machine World OS :=
  match files with
  | [] => (None, m)
  | file :: rest =>
      match fetch output file m with
      | (None, m') => range_files output rest m'
      | stop => stop
      end
  end.

(** [log.Println(file.Path, file.File)] *)
Definition listing_line (file : diskFile) : string :=
  (Path file ++ " " ++ File file)%string.

(** [main], from the parsed flags on. *)
Definition main (args : Args) (fuel : nat) (w : World) (d : OS)
  : exit * Machine World OS :=
  match GetTree Do Unmarshal c (aLink args) (aPath args) [] fuel w with
  | (Returned (_, Some e), env) => Fatal e (mkMachine env d [] [])
  | (Returned (files, None), env) =>
      if (aFolder args =? "")%string
      then (Exit 0, mkMachine env d [] (map listing_line (elems files)))
      else
        let output := aFolder args in
        match makeFolder output rwxr_xr_x d with
        | (Some e, d') => Fatal e (mkMachine env d' [] [])
        | (None, d') =>
            match range_files output (elems files)
                              (mkMachine env d' [] []) with
            | (Some x, m) => (x, m)
            | (None, m) => (Exit 0, m)
            end
        end
  | (Panicked msg, env) => (Crash msg, mkMachine env d [] [])
  | (OutOfFuel, env) => (Running, mkMachine env d [] [])
  end.

End Cli.

End Cli.

(** ** A machine for the callers *)

(** A file system where every folder is there, every folder can be made
    and every file can be created, empty and without bound. *)
Definition stat_there (p : string) (d : unit) : stat := Exists.

Definition mkdir_ok (p : string) (perm : Z) (d : unit) : option error * unit :=
  (None, tt).

Definition create_ok (p : string) (d : unit) : (error + Sink) * unit :=
  (inr empty_sink, tt).

(** A join that puts a slash between the two elements and cleans nothing. *)
Definition slash_join (a b : string) : string := (a ++ "/" ++ b)%string.

Definition fresh_machine : Machine unit unit := mkMachine (mkEnv tt []) tt [] [].



(** * Properties *)

(** ** Machine integers *)

Lemma wrap64_small (z : Z) : in_int64 z -> wrap64 z = z.
Proof.
  unfold in_int64, int64_min, int64_max, wrap64. intros H.
  rewrite Z.mod_small; lia.
Qed.

Lemma wrap64_add_l (a b : Z) : wrap64 (wrap64 a + b) = wrap64 (a + b).
Proof.
  unfold wrap64.
  replace ((a + 2 ^ 63) mod 2 ^ 64 - 2 ^ 63 + b + 2 ^ 63)
    with ((a + 2 ^ 63) mod 2 ^ 64 + b) by lia.
  rewrite Zplus_mod_idemp_l. f_equal. f_equal. lia.
Qed.

Lemma sum64_snoc (l : list Z) (x : Z) : sum64 (l ++ [x]) = add64 (sum64 l) x.
Proof. unfold sum64. now rewrite fold_left_app. Qed.

Lemma total_snoc (l : list Z) (x : Z) : total (l ++ [x]) = total l + x.
Proof. unfold total. now rewrite fold_left_app. Qed.

Lemma sum64_total (l : list Z) : sum64 l = wrap64 (total l).
Proof.
  induction l as [|x l IH] using rev_ind.
  - reflexivity.
  - rewrite sum64_snoc, total_snoc, IH. unfold add64. apply wrap64_add_l.
Qed.

Lemma surjective_pairing3 {A B C : Type} (x : A * B * C) :
  x = (fst (fst x), snd (fst x), snd x).
Proof. now destruct x as [[a b] c]. Qed.

(** ** Traces *)

Lemma tally_app (p : event -> bool) (l1 l2 : list event) :
  tally p (l1 ++ l2) = (tally p l1 + tally p l2)%nat.
Proof. unfold tally. now rewrite filter_app, length_app. Qed.

Lemma tally_snoc (p : event -> bool) (tr : list event) (e : event) :
  tally p (tr ++ [e]) = (tally p tr + if p e then 1 else 0)%nat.
Proof. rewrite tally_app. unfold tally. simpl. now destruct (p e). Qed.

(** ** Copying a body to a sink *)

(** A [Read] into a non-empty buffer from a stream that ends with EOF: the
    bytes returned and the bytes left make up the stream, and either the
    stream is over or the reader got closer to its end. *)
Lemma Read_progress (rd : Reader) (n : nat) :
  (0 < n)%nat -> ending rd = None ->
  forall chunk er rd',
    Read rd n = (chunk, er, rd') ->
    concat (segments rd) = chunk ++ concat (segments rd') /\
    ending rd' = None /\
    match er with
    | ReadMore => (read_budget rd' < read_budget rd)%nat
    | ReadEOF => concat (segments rd') = []
    | ReadErr _ => False
    end.
Proof.
  intros Hn He chunk er rd' H. unfold Read in H.
  destruct rd as [segs en wl]. simpl in He. subst en. simpl in H.
  destruct segs as [|seg rest].
  - inversion H; subst. simpl. auto.
  - pose proof (firstn_skipn n seg) as Hsplit.
    destruct (skipn n seg) as [|b more] eqn:Sk.
    + rewrite app_nil_r in Hsplit.
      assert (Hgen : (chunk, er, rd')
                     = (seg, ReadMore, mkReader rest None wl) \/
                     (rest = [] /\
                      (chunk, er, rd') = (seg, ReadEOF, mkReader [] None wl))).
      { rewrite Hsplit in H. destruct rest; [destruct wl|]; inversion H; auto. }
      destruct Hgen as [Hg|[-> Hg]]; inversion Hg; subst; simpl;
        unfold read_budget; simpl; repeat split; auto.
      rewrite length_app. lia.
    + inversion H; subst. cbn [segments ending concat].
      rewrite app_assoc, Hsplit.
      repeat split; auto. unfold read_budget. cbn [segments concat length].
      rewrite !length_app.
      assert (Hlen : length seg
                     = (length (firstn n seg) + length (b :: more))%nat)
        by now rewrite <- length_app, Hsplit.
      assert (length (firstn n seg) <> 0)%nat; [|lia].
      rewrite length_firstn. destruct seg; [now destruct n|simpl; lia].
Qed.

Lemma Write_unbounded (dst : Sink) (p : list byte) :
  room dst = None ->
  Write dst p = (length p, None, mkSink (written dst ++ p) None (full_err dst)).
Proof. unfold Write. now intros ->. Qed.

Lemma copy_loop_copies (fuel n : nat) :
  (0 < n)%nat ->
  forall rd dst,
    ending rd = None -> room dst = None ->
    (read_budget rd <= fuel)%nat ->
    copy_loop fuel n rd dst =
    (Returned None,
     mkSink (written dst ++ concat (segments rd)) None (full_err dst)).
Proof.
  intros Hn. induction fuel as [|fuel IH]; intros rd dst He Hr Hb.
  - unfold read_budget in Hb. lia.
  - cbn [copy_loop]. destruct (Read rd n) as [[chunk er] rd'] eqn:R.
    destruct (Read_progress rd n Hn He _ _ _ R) as (Hcat & He' & Her).
    rewrite Hcat.
    assert (Hdst : dst = mkSink (written dst) None (full_err dst))
      by (destruct dst; simpl in *; now subst).
    destruct chunk as [|b chunk].
    + destruct er as [| |e]; [|simpl in *|contradiction].
      * rewrite IH by (auto; lia). reflexivity.
      * rewrite Her, app_nil_r. now rewrite <- Hdst.
    + rewrite Write_unbounded by exact Hr. rewrite Nat.eqb_refl.
      destruct er as [| |e]; [|simpl in *|contradiction].
      * rewrite IH by (auto; lia). simpl. now rewrite <- app_assoc.
      * now rewrite Her, app_nil_r.
Qed.

Lemma ends_paused_snoc (tr : list event) (e : event) :
  ends_paused (tr ++ [e]) = is_sleep e.
Proof.
  induction tr as [|a tr IH]; [reflexivity|].
  change ((a :: tr) ++ [e]) with (a :: (tr ++ [e])). cbn [ends_paused].
  rewrite IH. now destruct tr.
Qed.

Lemma well_paused_snoc (tr : list event) (e : event) :
  well_paused (tr ++ [e]) =
  well_paused tr && (negb (ends_paused tr) || is_listing e).
Proof.
  induction tr as [|a tr IH]; [reflexivity|].
  change ((a :: tr) ++ [e]) with (a :: (tr ++ [e])).
  destruct tr as [|b tr].
  - simpl. now rewrite andb_true_r.
  - change ((b :: tr) ++ [e]) with (b :: (tr ++ [e])) in *.
    cbn [well_paused ends_paused] in *. rewrite IH.
    now rewrite andb_assoc.
Qed.

Section Step.

Variable World : Type.
Variable Do : URL -> World -> exchange * World.
Variable Unmarshal : list byte -> error + response.
Variable c : Config.


Lemma request_reply (u : URL) (env : Env World) :
  request Do u env = (received (reply Do u env), after Do u env).
Proof.
  unfold request, send, after, reply, received.
  destruct (Do u (world env)) as [x w']. cbn [fst snd].
  destruct x as [e|e|s body]; try reflexivity.
  unfold ReadAll. destruct (ending body); reflexivity.
Qed.

(** One turn of the listing loop. *)
Lemma getTree_step (link : string) (cb : GetTreeCallback) (fuel : nat)
      (path : string) (offset : Z) (a : Walk) (env : Env World) :
  getTree Do Unmarshal c link cb (S fuel) path offset a env =
  let u := Listing (mkQuery path (Limit c) offset link) in
  match decoded Unmarshal (reply Do u env) with
  | inl e => (Returned (Some e), a, after Do u env)
  | inr r =>
      if no_items r then (Returned None, a, after Do u env)
      else
        match range_items cb
                (fun p => getTree Do Unmarshal c link cb fuel p 0)
                (items r) a (after Do u env) with
        | (Returned None, a2, env2) =>
            getTree Do Unmarshal c link cb fuel path (add64 offset (Limit c))
                    a2 (Sleep (Timeout c) env2)
        | stop => stop
        end
  end.
Proof.
  cbn [getTree]. rewrite request_reply. unfold decoded. cbv zeta.
  destruct (received _) as [b [e|]]; reflexivity.
Qed.

Lemma GetTree_v1_step (link : string) (fuel : nat) (path : string)
      (offset : Z) (fs : slice diskFile) (env : Env World) :
  GetTree_v1_loop Do Unmarshal c link (S fuel) path offset fs env =
  let u := Listing (mkQuery path (Limit c) offset link) in
  match decoded Unmarshal (reply Do u env) with
  | inl e => (Returned (None, Some e), after Do u env)
  | inr r =>
      if no_items r then (Returned (fs, None), after Do u env)
      else
        match range_items_v1
                (fun p => GetTree_v1_loop Do Unmarshal c link fuel
                                          (root_if_empty p) 0 None)
                (items r) fs (after Do u env) with
        | (Returned (fs2, None), env2) =>
            GetTree_v1_loop Do Unmarshal c link fuel path
                            (add64 offset (Limit c)) fs2
                            (Sleep (Timeout c) env2)
        | stop => stop
        end
  end.
Proof.
  cbn [GetTree_v1_loop]. rewrite request_reply. unfold decoded. cbv zeta.
  destruct (received _) as [b [e|]]; reflexivity.
Qed.

End Step.

Section Properties.

Variable World : Type.
Variable Do : URL -> World -> exchange * World.
Variable Unmarshal : list byte -> error + response.
Variable c : Config.

Lemma trace_notify (cb : GetTreeCallback) (a : Walk) (env : Env World) :
  trace (notify cb a env) =
  trace env ++ match cb with
               | Some id => [EvCallback id (count a) (totalSize a)]
               | None => []
               end.
Proof. destruct cb; simpl; [reflexivity | now rewrite app_nil_r]. Qed.

Lemma world_notify (cb : GetTreeCallback) (a : Walk) (env : Env World) :
  world (notify cb a env) = world env.
Proof. now destruct cb. Qed.

(** *** Failed fetches and returned errors *)

Section Failures.

Variable link : string.
Variable cb : GetTreeCallback.

Lemma failures_notify (a : Walk) (env : Env World) :
  failed_fetches Unmarshal (notify cb a env) = failed_fetches Unmarshal env.
Proof.
  unfold failed_fetches. rewrite trace_notify, tally_app.
  destruct cb; unfold tally at 2; simpl; lia.
Qed.

Lemma failures_after (u : URL) (env : Env World) :
  failed_fetches Unmarshal (after Do u env) =
  (failed_fetches Unmarshal env +
   if page_failed Unmarshal (reply Do u env) then 1 else 0)%nat.
Proof.
  unfold failed_fetches, after. simpl. rewrite tally_app. unfold tally at 2. simpl.
  now destruct (page_failed _ _).
Qed.

Lemma failures_Sleep (d : Z) (env : Env World) :
  failed_fetches Unmarshal (Sleep d env) = failed_fetches Unmarshal env.
Proof.
  unfold failed_fetches, Sleep, log. simpl. rewrite tally_app.
  unfold tally at 2. simpl. lia.
Qed.

Lemma range_items_failures
      (descend : string -> Walk -> Env World
                 -> result (option error) * Walk * Env World) :
  (forall p a env res a' env',
      descend p a env = (res, a', env') ->
      failed_fetches Unmarshal env' = (failed_fetches Unmarshal env + errored res)%nat) ->
  forall l a env res a' env',
    range_items cb descend l a env = (res, a', env') ->
    failed_fetches Unmarshal env' = (failed_fetches Unmarshal env + errored res)%nat.
Proof.
  intros Hd. induction l as [|i l IH]; intros a env res a' env' H; simpl in H.
  - inversion H; subst. simpl. lia.
  - destruct (rType i =? FILE)%string.
    + destruct (file_result i) as [f|].
      * apply IH in H. now rewrite failures_notify in H.
      * inversion H; subst. simpl. lia.
    + destruct (rType i =? DIR)%string; [|now apply IH in H].
      destruct (descend (rPath i) a env) as [[r1 a1] env1] eqn:E.
      apply Hd in E.
      destruct r1 as [[e|]|m|]; try (inversion H; subst; exact E).
      apply IH in H. simpl in E. lia.
Qed.

Lemma getTree_failures (fuel : nat) :
  forall path offset a env res a' env',
    getTree Do Unmarshal c link cb fuel path offset a env = (res, a', env') ->
    failed_fetches Unmarshal env' = (failed_fetches Unmarshal env + errored res)%nat.
Proof.
  induction fuel as [|fuel IH]; intros path offset a env res a' env' H.
  - inversion H; subst. simpl. lia.
  - rewrite getTree_step in H. cbv zeta in H.
    set (u := Listing _) in H.
    pose proof (failures_after u env) as Hu. unfold page_failed in Hu.
    destruct (decoded Unmarshal (reply Do u env)) as [e|r] eqn:D.
    + inversion H; subst. simpl. exact Hu.
    + destruct (no_items r).
      * inversion H; subst. simpl. lia.
      * destruct (range_items _ _ _ _ _) as [[r1 a1] env1] eqn:E.
        apply (range_items_failures _ (fun p => IH p 0)) in E.
        destruct r1 as [[e|]|m|]; try (inversion H; subst; lia).
        apply IH in H. rewrite failures_Sleep in H. simpl in E. lia.
Qed.

Lemma range_items_error_last
      (descend : string -> Walk -> Env World
                 -> result (option error) * Walk * Env World) :
  (forall p a env e a' env',
      descend p a env = (Returned (Some e), a', env') ->
      exists tr u x, trace env' = tr ++ [EvDo u x] /\
                     decoded Unmarshal x = inl e) ->
  forall l a env e a' env',
    range_items cb descend l a env = (Returned (Some e), a', env') ->
    exists tr u x, trace env' = tr ++ [EvDo u x] /\
                   decoded Unmarshal x = inl e.
Proof.
  intros Hd. induction l as [|i l IH]; intros a env e a' env' H; simpl in H.
  - discriminate.
  - destruct (rType i =? FILE)%string.
    + destruct (file_result i) as [f|]; [eauto | discriminate..].
    + destruct (rType i =? DIR)%string; [|eauto].
      destruct (descend (rPath i) a env) as [[r1 a1] env1] eqn:E.
      destruct r1 as [[e1|]|m|]; try discriminate; [|eauto].
      inversion H; subst. eauto.
Qed.

(** A returned error is the error of the fetch the trace ends with. *)
Lemma getTree_error_last (fuel : nat) :
  forall path offset a env e a' env',
    getTree Do Unmarshal c link cb fuel path offset a env
    = (Returned (Some e), a', env') ->
    exists tr u x, trace env' = tr ++ [EvDo u x] /\
                   decoded Unmarshal x = inl e.
Proof.
  induction fuel as [|fuel IH]; intros path offset a env e a' env' H.
  - discriminate.
  - rewrite getTree_step in H. cbv zeta in H. set (u := Listing _) in H.
    destruct (decoded Unmarshal (reply Do u env)) as [e1|r] eqn:D.
    + inversion H; subst. simpl. eauto.
    + destruct (no_items r); [discriminate|].
      destruct (range_items _ _ _ _ _) as [[r1 a1] env1] eqn:E.
      destruct r1 as [[e1|]|m|]; try discriminate; [|eauto].
      inversion H; subst.
      eapply range_items_error_last; [|exact E].
      intros p. apply IH.
Qed.

End Failures.



(** *** Progress reports *)

Lemma progress_snoc (id : nat) (fs : list diskFile) (f : diskFile) :
  progress id (fs ++ [f]) =
  progress id fs ++
  [EvCallback id (wrap64 (Z.of_nat (S (length fs))))
              (sum64 (map Size (fs ++ [f])))].
Proof.
  unfold progress. rewrite length_app. cbn [length].
  rewrite seq_app, map_app. f_equal.
  - apply map_ext_in. intros k Hk. apply in_seq in Hk.
    rewrite firstn_app. replace (k - length fs)%nat with 0%nat by lia.
    cbn [firstn]. now rewrite app_nil_r.
  - cbn [seq map Nat.add].
    rewrite firstn_all2 by (rewrite length_app; cbn [length]; lia).
    reflexivity.
Qed.

Lemma progress_exact (id : nat) (fs : list diskFile) :
  fits_int64 fs -> progress id fs = exact_progress id fs.
Proof.
  intros Hfit. unfold progress, exact_progress. apply map_ext_in.
  intros k Hk. apply in_seq in Hk.
  destruct (Hfit k) as [Hc Hs]; [lia|].
  now rewrite sum64_total, !wrap64_small.
Qed.

Section Reports.

Variable link : string.
Variable cb : GetTreeCallback.

Lemma consistent_after (u : URL) (a : Walk) (env : Env World) :
  consistent cb a env -> consistent cb a (after Do u env).
Proof.
  unfold consistent, callbacks, after. simpl. rewrite filter_app. simpl.
  now rewrite app_nil_r.
Qed.

Lemma consistent_Sleep (d : Z) (a : Walk) (env : Env World) :
  consistent cb a env -> consistent cb a (Sleep d env).
Proof.
  unfold consistent, callbacks, Sleep, log. simpl. rewrite filter_app. simpl.
  now rewrite app_nil_r.
Qed.

Lemma consistent_file (f : diskFile) (a : Walk) (env : Env World) :
  consistent cb a env ->
  let a' := mkWalk (append (files a) f) (add64 (count a) 1)
                   (add64 (totalSize a) (Size f)) in
  consistent cb a' (notify cb a' env).
Proof.
  unfold consistent. intros (Hc & Hs & Ht). cbv zeta. simpl.
  assert (Hc' : add64 (count a) 1 = wrap64 (Z.of_nat (S (len (files a))))).
  { rewrite Hc. unfold add64. rewrite wrap64_add_l. f_equal. lia. }
  assert (Hs' : add64 (totalSize a) (Size f)
                = sum64 (map Size (elems (files a) ++ [f]))).
  { rewrite map_app. simpl. now rewrite sum64_snoc, Hs. }
  repeat split.
  - rewrite Hc'. unfold len. simpl. rewrite length_app. simpl.
    f_equal. lia.
  - exact Hs'.
  - unfold callbacks in *. rewrite trace_notify, filter_app, Ht.
    destruct cb as [id|]; simpl.
    + rewrite progress_snoc. f_equal. now rewrite Hc', Hs'.
    + reflexivity.
Qed.

Lemma range_items_consistent
      (descend : string -> Walk -> Env World
                 -> result (option error) * Walk * Env World) :
  (forall p a env res a' env',
      descend p a env = (res, a', env') ->
      consistent cb a env -> consistent cb a' env') ->
  forall l a env res a' env',
    range_items cb descend l a env = (res, a', env') ->
    consistent cb a env -> consistent cb a' env'.
Proof.
  intros Hd. induction l as [|i l IH]; intros a env res a' env' H Hc;
    simpl in H.
  - now inversion H; subst.
  - destruct (rType i =? FILE)%string.
    + destruct (file_result i) as [f|].
      * eapply IH; [exact H|]. now apply consistent_file.
      * now inversion H; subst.
    + destruct (rType i =? DIR)%string; [|eauto].
      destruct (descend (rPath i) a env) as [[r1 a1] env1] eqn:E.
      apply Hd in E; [|exact Hc].
      destruct r1 as [[e|]|m|]; try (now inversion H; subst).
      eauto.
Qed.

Lemma getTree_consistent (fuel : nat) :
  forall path offset a env res a' env',
    getTree Do Unmarshal c link cb fuel path offset a env = (res, a', env') ->
    consistent cb a env -> consistent cb a' env'.
Proof.
  induction fuel as [|fuel IH]; intros path offset a env res a' env' H Hc.
  - now inversion H; subst.
  - rewrite getTree_step in H. cbv zeta in H. set (u := Listing _) in H.
    apply (consistent_after u) in Hc.
    destruct (decoded Unmarshal (reply Do u env)) as [e|r].
    + now inversion H; subst.
    + destruct (no_items r); [now inversion H; subst|].
      destruct (range_items _ _ _ _ _) as [[r1 a1] env1] eqn:E.
      apply (range_items_consistent _ (fun p => IH p 0)) in E; [|exact Hc].
      destruct r1 as [[e|]|m|]; try (now inversion H; subst).
      eapply IH; [exact H|]. now apply consistent_Sleep.
Qed.

(** Leaving the callback out changes nothing but the trace. *)

Lemma reply_quiet (u : URL) (env0 env : Env World) :
  quiet env0 env -> reply Do u env0 = reply Do u env.
Proof. unfold quiet, reply. now intros [-> _]. Qed.

Lemma quiet_after (u : URL) (env0 env : Env World) :
  quiet env0 env -> quiet (after Do u env0) (after Do u env).
Proof.
  intros Hq. pose proof (reply_quiet u _ _ Hq) as Hr.
  destruct Hq as [Hw Ht]. unfold quiet, after. simpl. rewrite Hr, Hw, Ht.
  unfold without_callbacks. rewrite filter_app. simpl. auto.
Qed.

Lemma quiet_Sleep (d : Z) (env0 env : Env World) :
  quiet env0 env -> quiet (Sleep d env0) (Sleep d env).
Proof.
  intros [Hw Ht]. unfold quiet, Sleep, log. simpl. rewrite Hw, Ht.
  unfold without_callbacks. rewrite filter_app. simpl. auto.
Qed.

Lemma quiet_notify (a : Walk) (env0 env : Env World) :
  quiet env0 env -> quiet env0 (notify cb a env).
Proof.
  intros [Hw Ht]. unfold quiet. rewrite world_notify, trace_notify.
  unfold without_callbacks in *. rewrite filter_app, <- Ht.
  destruct cb; simpl; now rewrite app_nil_r.
Qed.

Lemma range_items_quiet
      (descend descend0 : string -> Walk -> Env World
                          -> result (option error) * Walk * Env World) :
  (forall p a env res a' env',
      descend p a env = (res, a', env') ->
      forall env0, quiet env0 env ->
      exists env0', descend0 p a env0 = (res, a', env0') /\ quiet env0' env') ->
  forall l a env res a' env',
    range_items cb descend l a env = (res, a', env') ->
    forall env0, quiet env0 env ->
    exists env0',
      range_items None descend0 l a env0 = (res, a', env0') /\
      quiet env0' env'.
Proof.
  intros Hd. induction l as [|i l IH]; intros a env res a' env' H env0 Hq;
    simpl in H |- *.
  - inversion H; subst. eauto.
  - destruct (rType i =? FILE)%string.
    + destruct (file_result i) as [f|].
      * eapply IH; [exact H|]. now apply quiet_notify.
      * inversion H; subst. eauto.
    + destruct (rType i =? DIR)%string; [|eauto].
      destruct (descend (rPath i) a env) as [[r1 a1] env1] eqn:E.
      destruct (Hd _ _ _ _ _ _ E env0 Hq) as (env0' & E0 & Hq').
      rewrite E0.
      destruct r1 as [[e|]|m|]; try (inversion H; subst; eauto).
Qed.

Lemma getTree_quiet (fuel : nat) :
  forall path offset a env res a' env',
    getTree Do Unmarshal c link cb fuel path offset a env = (res, a', env') ->
    forall env0, quiet env0 env ->
    exists env0',
      getTree Do Unmarshal c link None fuel path offset a env0
      = (res, a', env0') /\
      quiet env0' env'.
Proof.
  induction fuel as [|fuel IH]; intros path offset a env res a' env' H env0 Hq.
  - inversion H; subst. simpl. eauto.
  - rewrite getTree_step in H |- *. cbv zeta in H |- *.
    set (u := Listing _) in *.
    rewrite (reply_quiet u _ _ Hq).
    apply (quiet_after u) in Hq.
    destruct (decoded Unmarshal (reply Do u env)) as [e|r].
    + inversion H; subst. eauto.
    + destruct (no_items r); [inversion H; subst; eauto|].
      destruct (range_items cb _ _ _ _) as [[r1 a1] env1] eqn:E.
      destruct (range_items_quiet
                  (fun p => getTree Do Unmarshal c link cb fuel p 0)
                  (fun p => getTree Do Unmarshal c link None fuel p 0)
                  (fun p => IH p 0) _ _ _ _ _ _ E _ Hq)
        as (env0' & E0 & Hq').
      rewrite E0.
      destruct r1 as [[e|]|m|]; try (inversion H; subst; eauto).
      eapply IH; [exact H|]. now apply quiet_Sleep.
Qed.

(** Where the reports stand. *)

Lemma range_items_layout
      (descend : string -> Walk -> Env World
                 -> result (option error) * Walk * Env World) :
  (forall p a env res a' env',
      descend p a env = (res, a', env') ->
      exists d,
        trace env' = trace env ++ d /\
        walk_trace Unmarshal (Timeout c) cb p (count a) (totalSize a) d
                   (count a') (totalSize a') (finished res)) ->
  forall l a env res a' env',
    range_items cb descend l a env = (res, a', env') ->
    exists d,
      trace env' = trace env ++ d /\
      items_trace cb (walk_trace Unmarshal (Timeout c) cb) l
                  (count a) (totalSize a) d (count a') (totalSize a')
                  (finished res).
Proof.
  intros Hd. induction l as [|i l IH]; intros a env res a' env' H;
    simpl in H.
  - inversion H; subst. exists []. split; [now rewrite app_nil_r|].
    apply items_end.
  - destruct (rType i =? FILE)%string eqn:TF.
    + destruct (file_result i) as [f|] eqn:FR.
      * apply IH in H. destruct H as (d & Ht & Hl). cbn [count totalSize] in Hl.
        exists (report cb (add64 (count a) 1) (add64 (totalSize a) (Size f))
                ++ d).
        split.
        -- rewrite Ht, trace_notify, <- app_assoc. reflexivity.
        -- now apply items_file.
      * inversion H; subst. exists []. split; [now rewrite app_nil_r|].
        now apply items_nil_field.
    + destruct (rType i =? DIR)%string eqn:TD.
      * destruct (descend (rPath i) a env) as [[r1 a1] env1] eqn:E.
        apply Hd in E. destruct E as (d1 & Ht1 & Hw1).
        destruct r1 as [[e|]|m|];
          try (inversion H; subst; exists d1; split; [exact Ht1|];
               now apply items_dir_stops).
        apply IH in H. destruct H as (d2 & Ht2 & Hl2).
        exists (d1 ++ d2). split.
        -- now rewrite Ht2, Ht1, app_assoc.
        -- eapply items_dir; eauto.
      * apply IH in H. destruct H as (d & Ht & Hl).
        exists d. split; [exact Ht|]. now apply items_other.
Qed.

Lemma getTree_layout (fuel : nat) :
  forall path offset a env res a' env',
    getTree Do Unmarshal c link cb fuel path offset a env = (res, a', env') ->
    exists d,
      trace env' = trace env ++ d /\
      walk_trace Unmarshal (Timeout c) cb path (count a) (totalSize a) d
                 (count a') (totalSize a') (finished res).
Proof.
  induction fuel as [|fuel IH]; intros path offset a env res a' env' H.
  - inversion H; subst. exists []. split; [now rewrite app_nil_r|].
    apply walk_cut.
  - rewrite getTree_step in H. cbv zeta in H.
    set (q := mkQuery path (Limit c) offset link) in H.
    destruct (decoded Unmarshal (reply Do (Listing q) env)) as [e|r] eqn:D.
    + inversion H; subst. exists [EvDo (Listing q) (reply Do (Listing q) env)].
      split; [reflexivity|]. now apply walk_failed with (e := e).
    + destruct (no_items r) eqn:N.
      * inversion H; subst.
        exists [EvDo (Listing q) (reply Do (Listing q) env)].
        split; [reflexivity|]. now apply walk_end with (r := r).
      * destruct (range_items _ _ _ _ _) as [[r1 a1] env1] eqn:E.
        apply (range_items_layout _ (fun p => IH p 0)) in E.
        destruct E as (d1 & Ht1 & Hl1).
        assert (Ht : trace env1
                     = trace env
                       ++ EvDo (Listing q) (reply Do (Listing q) env) :: d1).
        { rewrite Ht1. unfold after. cbn [trace].
          now rewrite <- app_assoc. }
        destruct r1 as [[e|]|m|];
          try (inversion H; subst; eexists; split; [exact Ht|];
               now apply walk_stops with (r := r)).
        apply IH in H. destruct H as (d2 & Ht2 & Hw2).
        exists (EvDo (Listing q) (reply Do (Listing q) env)
                :: d1 ++ EvSleep (Timeout c) :: d2).
        split.
        -- rewrite Ht2. unfold Sleep, log. cbn [trace]. rewrite Ht.
           rewrite <- !app_assoc. reflexivity.
        -- now apply walk_page with (r := r) (n1 := count a1)
                                    (t1 := totalSize a1).
Qed.

End Reports.

(** C3. With a callback supplied, the [k]-th invocation carries the count [k]
    and the size of results 1 to [k], in traversal order, and there is one
    invocation per result.  The numbers are [int64] values; they are the
    exact count and sum whenever these fit.  Without a callback nothing is
    invoked, and the walk, its results and what [GetTree] returns are the
    same as with one.  Each invocation is made as soon as its result is
    appended: in the trace of the walk the report of a file entry stands
    where the entry stands in its page, after the request for the page and
    all that the entries before it left, and before any request or pause
    that follows; and ranging over a file entry is appending its result,
    counting it, invoking the callback with the new counters, and only then
    going on with the next entry. *)
Theorem GetTree_progress_reports
        (link path : string) (cb : list GetTreeCallback) (fuel : nat)
        (w : World) (res : result (option error)) (a : Walk)
        (env : Env World) :
  GetTree_walk Do Unmarshal c link path cb fuel w = (res, a, env) ->
  callbacks (trace env)
  = expected_reports (first_callback cb) (elems (files a)) /\
  (forall id, first_callback cb = Some id ->
              fits_int64 (elems (files a)) ->
              callbacks (trace env) = exact_progress id (elems (files a))) /\
  (exists env0,
      GetTree_walk Do Unmarshal c link path [] fuel w = (res, a, env0) /\
      world env0 = world env /\
      trace env0 = without_callbacks (trace env) /\
      callbacks (trace env0) = []) /\
  fst (GetTree Do Unmarshal c link path [] fuel w)
  = fst (GetTree Do Unmarshal c link path cb fuel w) /\
  walk_trace Unmarshal (Timeout c) (first_callback cb) (root_if_empty path)
             0 0 (trace env) (count a) (totalSize a) (finished res) /\
  (forall (descend : string -> Walk -> Env World
                     -> result (option error) * Walk * Env World)
          (i : response) (l : list response) (f : diskFile)
          (a0 : Walk) (env0 : Env World),
      (rType i =? FILE)%string = true ->
      file_result i = Some f ->
      let a1 := mkWalk (append (files a0) f) (add64 (count a0) 1)
                       (add64 (totalSize a0) (Size f)) in
      range_items (first_callback cb) descend (i :: l) a0 env0
      = range_items (first_callback cb) descend l a1
                    (notify (first_callback cb) a1 env0) /\
      trace (notify (first_callback cb) a1 env0)
      = trace env0 ++ report (first_callback cb) (count a1) (totalSize a1)).
Proof.
  intros H. unfold GetTree_walk in H.
  assert (Hrep : callbacks (trace env)
                 = expected_reports (first_callback cb) (elems (files a))).
  { apply (getTree_consistent _ _ _ _ _ _ _ _ _ _ H).
    unfold consistent. simpl. destruct (first_callback cb); auto. }
  destruct (getTree_quiet _ _ _ _ _ _ _ _ _ _ H (mkEnv w []))
    as (env0 & H0 & Hw & Ht); [split; reflexivity|].
  split; [exact Hrep|]. split; [|split; [|split; [|split]]].
  - intros id Hid Hfit. rewrite Hrep, Hid. simpl. now apply progress_exact.
  - exists env0. unfold GetTree_walk. simpl first_callback.
    repeat split; auto.
    apply (getTree_consistent _ _ _ _ _ _ _ _ _ _ H0).
    unfold consistent. simpl. auto.
  - unfold GetTree, GetTree_walk. simpl first_callback.
    destruct (Limit c <? 0); [reflexivity|].
    rewrite H, H0. destruct res as [[e|]|m|]; reflexivity.
  - destruct (getTree_layout _ _ _ _ _ _ _ _ _ _ H) as (d & Hd & Hlay).
    cbn [trace app count totalSize] in Hd, Hlay. now rewrite Hd.
  - intros descend i l f a1 env1 TF FR. cbv zeta. split.
    + cbn [range_items]. now rewrite TF, FR.
    + apply trace_notify.
Qed.

(** *** Pauses between pages *)

Section Pauses.

Variable link : string.
Variable cb : GetTreeCallback.

Lemma pauses_notify (a : Walk) (env : Env World) :
  pauses (notify cb a env) = pauses env /\
  nonempty_pages Unmarshal (notify cb a env) = nonempty_pages Unmarshal env.
Proof.
  unfold pauses, nonempty_pages.
  rewrite trace_notify, !tally_app.
  destruct cb; unfold tally; simpl; lia.
Qed.

Lemma pauses_after (u : URL) (env : Env World) :
  pauses (after Do u env) = pauses env /\
  nonempty_pages Unmarshal (after Do u env) =
  (nonempty_pages Unmarshal env + if page_nonempty Unmarshal (reply Do u env) then 1 else 0)%nat.
Proof.
  unfold pauses, nonempty_pages, after. cbn [trace].
  rewrite !tally_snoc. cbn [is_sleep is_nonempty_fetch].
  destruct (page_nonempty _ _); lia.
Qed.

Lemma pauses_Sleep (d : Z) (env : Env World) :
  pauses (Sleep d env) = S (pauses env) /\ nonempty_pages Unmarshal (Sleep d env) = nonempty_pages Unmarshal env.
Proof.
  unfold pauses, nonempty_pages, Sleep, log. cbn [trace].
  rewrite !tally_snoc. cbn [is_sleep is_nonempty_fetch]. lia.
Qed.

Lemma range_items_pauses
      (descend : string -> Walk -> Env World
                 -> result (option error) * Walk * Env World) :
  (forall p a env res a' env',
      descend p a env = (res, a', env') ->
      (pauses env' + nonempty_pages Unmarshal env <= pauses env + nonempty_pages Unmarshal env')%nat /\
      (res = Returned None ->
       (pauses env' + nonempty_pages Unmarshal env = pauses env + nonempty_pages Unmarshal env')%nat)) ->
  forall l a env res a' env',
    range_items cb descend l a env = (res, a', env') ->
    (pauses env' + nonempty_pages Unmarshal env <= pauses env + nonempty_pages Unmarshal env')%nat /\
    (res = Returned None ->
     (pauses env' + nonempty_pages Unmarshal env = pauses env + nonempty_pages Unmarshal env')%nat).
Proof.
  intros Hd. induction l as [|i l IH]; intros a env res a' env' H; simpl in H.
  - inversion H; subst. lia.
  - destruct (rType i =? FILE)%string.
    + destruct (file_result i) as [f|].
      * apply IH in H. destruct (pauses_notify
          (mkWalk (append (files a) f) (add64 (count a) 1)
                  (add64 (totalSize a) (Size f))) env) as [Hs Hf].
        rewrite Hs, Hf in H. exact H.
      * inversion H; subst. split; [lia | discriminate].
    + destruct (rType i =? DIR)%string; [|now apply IH in H].
      destruct (descend (rPath i) a env) as [[r1 a1] env1] eqn:E.
      apply Hd in E. destruct E as [E1 E2].
      destruct r1 as [[e|]|m|];
        try (inversion H; subst; split; [lia | discriminate]).
      apply IH in H. specialize (E2 eq_refl). destruct H as [H1 H2].
      split; [lia | intros Hr; specialize (H2 Hr); lia].
Qed.

Lemma getTree_pauses (fuel : nat) :
  forall path offset a env res a' env',
    getTree Do Unmarshal c link cb fuel path offset a env = (res, a', env') ->
    (pauses env' + nonempty_pages Unmarshal env <= pauses env + nonempty_pages Unmarshal env')%nat /\
    (res = Returned None ->
     (pauses env' + nonempty_pages Unmarshal env = pauses env + nonempty_pages Unmarshal env')%nat).
Proof.
  induction fuel as [|fuel IH]; intros path offset a env res a' env' H.
  - inversion H; subst. split; [lia | discriminate].
  - rewrite getTree_step in H. cbv zeta in H. set (u := Listing _) in H.
    destruct (pauses_after u env) as [Hs Hf]. unfold page_nonempty in Hf.
    destruct (decoded Unmarshal (reply Do u env)) as [e|r].
    + inversion H; subst. split; [lia | discriminate].
    + destruct (no_items r); simpl in Hf.
      * inversion H; subst. lia.
      * destruct (range_items _ _ _ _ _) as [[r1 a1] env1] eqn:E.
        apply (range_items_pauses _ (fun p => IH p 0)) in E.
        destruct E as [E1 E2].
        destruct r1 as [[e|]|m|];
          try (inversion H; subst; split; [lia | discriminate]).
        apply IH in H. specialize (E2 eq_refl).
        destruct (pauses_Sleep (Timeout c) env1) as [Hs1 Hf1].
        rewrite Hs1, Hf1 in H. destruct H as [H1 H2].
        split; [lia | intros Hr; specialize (H2 Hr); lia].
Qed.

Lemma pauses_last_snoc (d0 : Z) (tr : list event) (e : event) :
  pauses_last d0 tr ->
  (forall d, e = EvSleep d -> d = d0) ->
  pauses_last d0 (tr ++ [e]).
Proof.
  intros Ht He d Hin. apply in_app_or in Hin. destruct Hin as [Hin|[Hin|[]]].
  - now apply Ht.
  - now apply He.
Qed.

Lemma pauses_last_notify (d0 : Z) (a : Walk) (env : Env World) :
  pauses_last d0 (trace env) -> pauses_last d0 (trace (notify cb a env)).
Proof.
  intros H. rewrite trace_notify. destruct cb.
  - apply pauses_last_snoc; [exact H | discriminate].
  - now rewrite app_nil_r.
Qed.

Lemma range_items_pauses_last
      (descend : string -> Walk -> Env World
                 -> result (option error) * Walk * Env World) (d0 : Z) :
  (forall p a env res a' env',
      descend p a env = (res, a', env') ->
      pauses_last d0 (trace env) -> pauses_last d0 (trace env')) ->
  forall l a env res a' env',
    range_items cb descend l a env = (res, a', env') ->
    pauses_last d0 (trace env) -> pauses_last d0 (trace env').
Proof.
  intros Hd. induction l as [|i l IH]; intros a env res a' env' H Hp;
    simpl in H.
  - now inversion H; subst.
  - destruct (rType i =? FILE)%string.
    + destruct (file_result i) as [f|].
      * eapply IH; [exact H|]. now apply pauses_last_notify.
      * now inversion H; subst.
    + destruct (rType i =? DIR)%string; [|eauto].
      destruct (descend (rPath i) a env) as [[r1 a1] env1] eqn:E.
      apply Hd in E; [|exact Hp].
      destruct r1 as [[e|]|m|]; try (now inversion H; subst).
      eauto.
Qed.

Lemma getTree_pauses_last (fuel : nat) :
  forall path offset a env res a' env',
    getTree Do Unmarshal c link cb fuel path offset a env = (res, a', env') ->
    pauses_last (Timeout c) (trace env) ->
    pauses_last (Timeout c) (trace env').
Proof.
  induction fuel as [|fuel IH]; intros path offset a env res a' env' H Hp.
  - now inversion H; subst.
  - rewrite getTree_step in H. cbv zeta in H. set (u := Listing _) in H.
    assert (Hu : pauses_last (Timeout c) (trace (after Do u env)))
      by (apply pauses_last_snoc; [exact Hp | discriminate]).
    destruct (decoded Unmarshal (reply Do u env)) as [e|r].
    + now inversion H; subst.
    + destruct (no_items r); [now inversion H; subst|].
      destruct (range_items _ _ _ _ _) as [[r1 a1] env1] eqn:E.
      apply (range_items_pauses_last _ _ (fun p => IH p 0)) in E; [|exact Hu].
      destruct r1 as [[e|]|m|]; try (now inversion H; subst).
      eapply IH; [exact H|].
      apply pauses_last_snoc; [exact E|]. intros d Hd. now inversion Hd.
Qed.

(** Where the pauses stand. *)

Lemma range_items_well_paused
      (descend : string -> Walk -> Env World
                 -> result (option error) * Walk * Env World) :
  (forall p a env res a' env',
      descend p a env = (res, a', env') ->
      well_paused (trace env) = true ->
      well_paused (trace env') = true /\
      (res <> OutOfFuel -> ends_paused (trace env') = false)) ->
  forall l a env res a' env',
    range_items cb descend l a env = (res, a', env') ->
    well_paused (trace env) = true -> ends_paused (trace env) = false ->
    well_paused (trace env') = true /\
    (res <> OutOfFuel -> ends_paused (trace env') = false).
Proof.
  intros Hd. induction l as [|i l IH]; intros a env res a' env' H Hw He;
    simpl in H.
  - inversion H; subst. auto.
  - destruct (rType i =? FILE)%string.
    + destruct (file_result i) as [f|]; [|inversion H; subst; auto..].
      apply IH in H; [exact H| |]; rewrite trace_notify; destruct cb;
        rewrite ?app_nil_r, ?well_paused_snoc, ?ends_paused_snoc, ?Hw, ?He;
        reflexivity.
    + destruct (rType i =? DIR)%string; [|eauto].
      destruct (descend (rPath i) a env) as [[r1 a1] env1] eqn:E.
      destruct (Hd _ _ _ _ _ _ E Hw) as [Hw1 He1].
      destruct r1 as [[e|]|m|]; try (inversion H; subst; auto; fail).
      apply IH in H; auto. apply He1. discriminate.
Qed.

Lemma getTree_well_paused (fuel : nat) :
  forall path offset a env res a' env',
    getTree Do Unmarshal c link cb fuel path offset a env = (res, a', env') ->
    well_paused (trace env) = true ->
    well_paused (trace env') = true /\
    (res <> OutOfFuel -> ends_paused (trace env') = false).
Proof.
  induction fuel as [|fuel IH]; intros path offset a env res a' env' H Hw.
  - inversion H; subst. split; [exact Hw | congruence].
  - rewrite getTree_step in H. cbv zeta in H. set (u := Listing _) in H.
    assert (Hu : well_paused (trace (after Do u env)) = true /\
                 ends_paused (trace (after Do u env)) = false).
    { unfold after. cbn [trace].
      rewrite well_paused_snoc, ends_paused_snoc, Hw. simpl.
      now rewrite orb_true_r. }
    destruct Hu as [Hw1 He1].
    destruct (decoded Unmarshal (reply Do u env)) as [e|r].
    + inversion H; subst. auto.
    + destruct (no_items r); [inversion H; subst; auto|].
      destruct (range_items _ _ _ _ _) as [[r1 a1] env1] eqn:E.
      destruct (range_items_well_paused _ (fun p => IH p 0) _ _ _ _ _ _
                                        E Hw1 He1) as [Hw2 He2].
      destruct r1 as [[e|]|m|]; try (inversion H; subst; auto; fail).
      apply IH in H; [exact H|].
      unfold Sleep, log. cbn [trace]. rewrite well_paused_snoc, Hw2, He2.
      reflexivity. discriminate.
Qed.

End Pauses.

(** C9, as the code has it. The pause after a page lasts [Config.Timeout]
    (10 seconds by default; [Config.Wait], 5 seconds by default, only sets
    the retry client's minimum back-off).  Each pause is directly followed
    by the request for the next page.  A traversal that returns without
    error has paused exactly once per fetched page that had items, whatever
    the number of items; one that stops early has paused at most that
    often. *)
Theorem GetTree_pauses
        (link path : string) (cb : list GetTreeCallback) (fuel : nat)
        (w : World) (res : result (slice diskFile * option error))
        (env : Env World) :
  GetTree Do Unmarshal c link path cb fuel w = (res, env) ->
  pauses_last (Timeout c) (trace env) /\
  well_paused (trace env) = true /\
  (pauses env <= nonempty_pages Unmarshal env)%nat /\
  (forall fs, res = Returned (fs, None) ->
              pauses env = nonempty_pages Unmarshal env).
Proof.
  unfold GetTree, GetTree_walk. intros H.
  destruct (Limit c <? 0).
  - inversion H; subst. unfold pauses, nonempty_pages, tally. simpl.
    repeat split; try lia. intros d [].
  - destruct (getTree _ _ _ _ _ _ _ _ _ _) as [[r a] env1] eqn:E.
    assert (Henv : env1 = env) by (destruct r as [[e|]|m|]; now inversion H).
    subst env1.
    pose proof (getTree_pauses_last _ _ _ _ _ _ _ _ _ _ E) as Hl.
    destruct (getTree_pauses _ _ _ _ _ _ _ _ _ _ E) as [H1 H2].
    unfold pauses, nonempty_pages, tally in H1, H2. simpl in H1, H2.
    split; [apply Hl; intros d []|].
    split; [apply (getTree_well_paused _ _ _ _ _ _ _ _ _ _ E); reflexivity|].
    split; [unfold pauses, nonempty_pages, tally; lia|].
    intros fs Hr. destruct r as [[e|]|m|]; inversion H; subst; try discriminate.
    specialize (H2 eq_refl). unfold pauses, nonempty_pages, tally. lia.
Qed.

(** *** The pagination loop *)

Lemma range_items_ext (cb : GetTreeCallback)
      (d1 d2 : string -> Walk -> Env World
               -> result (option error) * Walk * Env World) :
  (forall p a env, d1 p a env = d2 p a env) ->
  forall l a env, range_items cb d1 l a env = range_items cb d2 l a env.
Proof.
  intros Hd. induction l as [|i l IH]; intros a env; simpl.
  - reflexivity.
  - destruct (rType i =? FILE)%string.
    + destruct (file_result i); auto.
    + destruct (rType i =? DIR)%string; [|auto].
      rewrite Hd. destruct (d2 (rPath i) a env) as [[r1 a1] env1].
      destruct r1 as [[e|]|m|]; auto.
Qed.

Lemma decoded_redecode (f : response -> response) (x : exchange) :
  decoded (redecode f Unmarshal) x =
  match decoded Unmarshal x with
  | inl e => inl e
  | inr r => inr (f r)
  end.
Proof.
  unfold decoded, redecode. destruct (received x) as [b [e|]]; reflexivity.
Qed.

(** The walk reads nothing of a listing response but its items. *)
Lemma getTree_redecode (f : response -> response) (link : string)
      (cb : GetTreeCallback) (fuel : nat) :
  keeps_items f ->
  forall path offset a env,
    getTree Do (redecode f Unmarshal) c link cb fuel path offset a env =
    getTree Do Unmarshal c link cb fuel path offset a env.
Proof.
  intros Hf. induction fuel as [|fuel IH]; intros path offset a env.
  - reflexivity.
  - rewrite !getTree_step. cbv zeta. rewrite decoded_redecode.
    destruct (decoded Unmarshal _) as [e|r]; [reflexivity|].
    destruct (Hf r) as [-> ->].
    destruct (no_items r); [reflexivity|].
    rewrite (range_items_ext cb _
               (fun p => getTree Do Unmarshal c link cb fuel p 0))
      by (intros; apply IH).
    destruct (range_items _ _ _ _ _) as [[r1 a1] env1].
    destruct r1 as [[e|]|m|]; auto.
Qed.


Lemma keeps_items_with_type (ty : entryType) : keeps_items (with_type ty).
Proof. intros r. split; reflexivity. Qed.



(** C7, as the code has it. The type a listing response declares for itself
    is never read.  When the root request is answered with the description
    of a file, which embeds no items, [GetTree] makes that one request and
    returns an empty list and no error; and whatever type the responses
    declare, [GetTree] returns the same. *)
Theorem GetTree_file_at_root
        (link path : string) (cb : list GetTreeCallback) (fuel : nat)
        (w : World) (r : response) :
  let u := Listing (mkQuery (root_if_empty path) (Limit c) 0 link) in
  0 <= Limit c ->
  decoded Unmarshal (reply Do u (mkEnv w [])) = inr r ->
  rType r = FILE ->
  no_items r = true ->
  GetTree Do Unmarshal c link path cb (S fuel) w
  = (Returned (Some [], None), after Do u (mkEnv w [])) /\
  forall ty n,
    GetTree Do (redecode (with_type ty) Unmarshal) c link path cb n w
    = GetTree Do Unmarshal c link path cb n w.
Proof.
  cbv zeta. intros Hl D _ N. split.
  - unfold GetTree, GetTree_walk.
    destruct (Limit c <? 0) eqn:L; [apply Z.ltb_lt in L; lia|].
    rewrite getTree_step. cbv zeta. now rewrite D, N.
  - intros ty n. unfold GetTree, GetTree_walk.
    now rewrite getTree_redecode by apply keeps_items_with_type.
Qed.

(** C8. With a chunk size above 0, [DownloadFile] copies the response body
    to the sink byte for byte, whatever the size of the body and however its
    bytes arrive: the sink ends up with what it had followed by the whole
    stream, and no error is returned. *)
Theorem DownloadFile_copies_stream
        (file : diskFile) (writer : Sink) (env : Env World)
        (status : Z) (body : Reader) :
  0 < ChunkSize c ->
  reply Do (Direct (File file)) env = Response status body ->
  ending body = None ->
  room writer = None ->
  DownloadFile Do c file writer env =
  (Returned None,
   mkSink (written writer ++ concat (segments body)) None (full_err writer),
   after Do (Direct (File file)) env).
Proof.
  intros Hc Hx He Hr. unfold DownloadFile, send.
  unfold after. rewrite Hx. unfold reply in Hx.
  destruct (Do (Direct (File file)) (world env)) as [x w']. simpl in Hx.
  subst x. cbn [snd].
  destruct (ChunkSize c <? 0) eqn:L; [apply Z.ltb_lt in L; lia|].
  unfold CopyBuffer. destruct (Z.to_nat (ChunkSize c)) as [|n] eqn:N; [lia|].
  rewrite copy_loop_copies; auto; lia.
Qed.

End Properties.

(** ** Walking a directory tree *)

Lemma rnode_induction (P : rnode -> Prop) :
  (forall f, P (RFile f)) ->
  (forall name path children,
      Forall P children -> P (RDir name path children)) ->
  forall t, P t.
Proof.
  intros Hf Hd. fix IH 1. intros [f|name path children].
  - apply Hf.
  - apply Hd. induction children as [|t ts IHts]; constructor.
    + apply IH.
    + apply IHts.
Qed.

Lemma length_files_of (t : rnode) : length (files_of t) = file_count t.
Proof.
  induction t as [f|name path children IH] using rnode_induction.
  - reflexivity.
  - simpl. induction IH as [|t ts Ht _ IHts]; simpl.
    + reflexivity.
    + now rewrite length_app, Ht, IHts.
Qed.

Lemma items_nil_no_items (r : response) : items r = [] -> no_items r = true.
Proof.
  unfold items, no_items. destruct (rEmbedded r) as [e|]; [|reflexivity].
  destruct (eItems e) as [l|]; [|reflexivity]. simpl. now intros ->.
Qed.

Lemma items_cons_no_items (r : response) :
  items r <> [] -> no_items r = false.
Proof.
  unfold items, no_items. destruct (rEmbedded r) as [e|]; [|congruence].
  destruct (eItems e) as [[|i l]|]; simpl; congruence.
Qed.

Lemma file_result_describes (i : response) (f : diskFile) :
  describes i (RFile f) ->
  (rType i =? FILE)%string = true /\ file_result i = Some f.
Proof.
  simpl. intros (Ht & Hn & Hp & Hs & Hf & Hm & Hh & Hc & Hmo). split.
  - rewrite Ht. apply String.eqb_refl.
  - unfold file_result. rewrite Hs, Hf, Hm, Hh, Hn, Hp, Hc, Hmo.
    now destruct f.
Qed.

Section Tree.

Variable World : Type.
Variable Do : URL -> World -> exchange * World.
Variable Unmarshal : list byte -> error + response.
Variable c : Config.
Variable link : string.
Variable cb : GetTreeCallback.

Hypothesis Limit_positive : 0 < Limit c.

(** The items of one page. *)
Lemma range_items_page (p : list rnode) :
  Forall (walks_node Do Unmarshal c link cb) p ->
  exists m0, forall its, Forall2 describes its p ->
    forall fuel, (m0 <= fuel)%nat ->
    forall a env, exists a' env',
      range_items cb (fun q => getTree Do Unmarshal c link cb fuel q 0)
                  its a env
      = (Returned None, a', env') /\
      elems (files a') = elems (files a) ++ flat_map files_of p /\
      (files a <> None -> files a' <> None).
Proof.
  induction 1 as [|t p Ht _ (m0 & Hm0)].
  - exists 0%nat. intros its Hits fuel _ a env. inversion Hits; subst.
    exists a, env. simpl. rewrite app_nil_r. auto.
  - destruct t as [f|name path children].
    + exists m0. intros its Hits fuel Hfuel a env.
      inversion Hits as [|i ? its' ? Hd Hits']; subst.
      destruct (file_result_describes _ _ Hd) as [Hty Hres].
      simpl. rewrite Hty, Hres.
      destruct (Hm0 its' Hits' fuel Hfuel
                    (mkWalk (append (files a) f) (add64 (count a) 1)
                            (add64 (totalSize a) (Size f)))
                    (notify cb (mkWalk (append (files a) f)
                                       (add64 (count a) 1)
                                       (add64 (totalSize a) (Size f))) env))
        as (a' & env' & E & Hfs & Hnn).
      exists a', env'. rewrite E. split; [reflexivity|].
      simpl in Hfs, Hnn. rewrite Hfs, <- app_assoc.
      split; [reflexivity|]. intros _. apply Hnn. discriminate.
    + destruct Ht as (n0 & Hn0).
      exists (Nat.max m0 n0). intros its Hits fuel Hfuel a env.
      inversion Hits as [|i ? its' ? Hd Hits']; subst.
      destruct Hd as (Hty & _ & Hpath).
      simpl. rewrite Hty, Hpath.
      change ((DIR =? FILE)%string) with false.
      change ((DIR =? DIR)%string) with true. cbv iota.
      destruct (Hn0 fuel ltac:(lia) a env) as (a1 & env1 & E1 & Hfs1 & Hnn1).
      rewrite E1.
      destruct (Hm0 its' Hits' fuel ltac:(lia) a1 env1)
        as (a' & env' & E & Hfs & Hnn).
      exists a', env'. rewrite E. split; [reflexivity|].
      rewrite Hfs, Hfs1, <- app_assoc. auto.
Qed.

(** The pages of one directory, from page [k] on. *)
Lemma getTree_pages (path : string) (pages : list (list rnode)) :
  (forall k, answers Do Unmarshal (Limit c) link path k (nth k pages [])) ->
  forall rest k,
    (forall j, nth (k + j) pages [] = nth j rest []) ->
    Forall (fun p => p <> []) rest ->
    Forall (Forall (walks_node Do Unmarshal c link cb)) rest ->
    in_int64 (Z.of_nat (S (k + length rest)) * Limit c) ->
    exists n0,
      walks_dir Do Unmarshal c link cb path (Z.of_nat k * Limit c)
                (flat_map files_of (concat rest)) n0.
Proof.
  intros Hans. induction rest as [|p rest IH]; intros k Hnth Hne Hw Hfit.
  - exists 1%nat. intros fuel Hfuel a env.
    destruct fuel as [|fuel]; [lia|].
    rewrite getTree_step. cbv zeta.
    destruct (Hans k (world env)) as (r & D & Hit).
    unfold reply. rewrite D.
    pose proof (Hnth 0%nat) as H0. rewrite Nat.add_0_r in H0.
    rewrite H0 in Hit. simpl in Hit.
    inversion Hit as [Hnil|]. symmetry in Hnil.
    rewrite (items_nil_no_items _ Hnil).
    eexists _, _. split; [reflexivity|]. simpl. rewrite app_nil_r. auto.
  - inversion Hne as [|? ? Hp Hne']; subst.
    inversion Hw as [|? ? Hwp Hw']; subst.
    destruct (IH (S k)) as (n0 & Hn0); auto.
    { intros j. replace (S k + j)%nat with (k + S j)%nat by lia.
      apply (Hnth (S j)). }
    { simpl in Hfit. replace (S (S k + length rest))
        with (S (k + S (length rest))) by lia. exact Hfit. }
    assert (Hoff : add64 (Z.of_nat k * Limit c) (Limit c)
                   = Z.of_nat (S k) * Limit c).
    { unfold add64. rewrite wrap64_small; [lia|].
      unfold in_int64, int64_min, int64_max in *. simpl length in Hfit. nia. }
    destruct (range_items_page p Hwp) as (m0 & Hm0).
    exists (S (Nat.max m0 n0)). intros fuel Hfuel a env.
    destruct fuel as [|fuel]; [lia|].
    rewrite getTree_step. cbv zeta.
    destruct (Hans k (world env)) as (r & D & Hit).
    unfold reply. rewrite D.
    pose proof (Hnth 0%nat) as H0. rewrite Nat.add_0_r in H0.
    rewrite H0 in Hit. simpl in Hit.
    assert (Hnonempty : items r <> [])
      by (intros Hnil; rewrite Hnil in Hit; inversion Hit; subst; auto).
    rewrite (items_cons_no_items _ Hnonempty).
    destruct (Hm0 (items r) Hit fuel ltac:(lia) a
                  (after Do (Listing (mkQuery path (Limit c)
                                              (Z.of_nat k * Limit c) link))
                         env))
      as (a1 & env1 & E1 & Hfs1 & Hnn1).
    unfold reply in E1. rewrite E1, Hoff.
    destruct (Hn0 fuel ltac:(lia) a1 (Sleep (Timeout c) env1))
      as (a' & env' & E & Hfs & Hnn).
    exists a', env'. split; [exact E|].
    simpl concat. rewrite flat_map_app, Hfs, Hfs1, <- app_assoc. auto.
Qed.

(** A directory the server holds is walked to the end. *)
Lemma getTree_tree (t : rnode) :
  serves Do Unmarshal (Limit c) link t ->
  walks_node Do Unmarshal c link cb t.
Proof.
  induction t as [f|name path children IH] using rnode_induction; intros Hs.
  - exact I.
  - inversion Hs as [|? ? ? pages [Hcat Hne] Hans Hfit Hch]; subst.
    simpl. apply (getTree_pages path pages Hans pages 0%nat); auto.
    apply Forall_concat. rewrite Forall_forall in IH, Hch |- *.
    intros t Hin. auto.
Qed.

End Tree.

(** C1, as the code has it.  Take a directory tree with [N] file entries in
    all, each with a name, a path, a download URL and a size of at least 0,
    a positive [Limit], and a server that answers the [k]-th request for a
    directory, the one with offset [k * Limit], with page [k] of a cut of
    the directory's listing into non-empty pages, and any later request
    with no items; the offsets asked for fit in [int64].  Then, given
    enough fuel, [GetTree] returns no error and exactly the files of the
    tree, depth first: [N] results, each with the non-empty name, path and
    URL and the non-negative size of its entry.  The walk checks none of
    these fields; it hands on what the entries hold. *)
Theorem GetTree_returns_every_file
        (World : Type) (Do : URL -> World -> exchange * World)
        (Unmarshal : list byte -> error + response) (c : Config)
        (link path : string) (cbs : list GetTreeCallback) (w : World)
        (name : string) (children : list rnode) :
  let t := RDir name (root_if_empty path) children in
  0 < Limit c ->
  serves Do Unmarshal (Limit c) link t ->
  Forall well_formed (files_of t) ->
  exists n0, forall fuel, (n0 <= fuel)%nat ->
    exists fs env,
      GetTree Do Unmarshal c link path cbs fuel w
      = (Returned (Some fs, None), env) /\
      fs = files_of t /\
      length fs = file_count t /\
      Forall well_formed fs.
Proof.
  cbv zeta. intros Hl Hs Hwf.
  destruct (getTree_tree World Do Unmarshal c link (first_callback cbs)
                         Hl _ Hs) as (n0 & Hn0).
  exists n0. intros fuel Hfuel.
  destruct (Hn0 fuel Hfuel (mkWalk (Some []) 0 0) (mkEnv w []))
    as (a' & env' & E & Hfs & Hnn).
  unfold GetTree, GetTree_walk.
  destruct (Limit c <? 0) eqn:L; [apply Z.ltb_lt in L; lia|].
  rewrite E. simpl in Hfs, Hnn.
  destruct (files a') as [fs|] eqn:F; [|now destruct Hnn].
  simpl in Hfs. subst fs.
  eexists _, _. split; [reflexivity|]. split; [reflexivity|].
  split; [apply (length_files_of (RDir name (root_if_empty path) children))
         | exact Hwf].
Qed.


(** ** The two revisions of [GetTree] *)

Lemma copy_id (f : diskFile) : copy f = f.
Proof. now destruct f. Qed.

Lemma elems_merge (fs sub : slice diskFile) :
  elems (merge fs sub) = elems fs ++ elems sub.
Proof.
  destruct sub as [l|]; simpl; [|now rewrite app_nil_r].
  revert fs. induction l as [|f l IH]; intros fs; simpl.
  - now rewrite app_nil_r.
  - rewrite IH, copy_id. simpl. now rewrite <- app_assoc.
Qed.

Lemma root_if_empty_twice (p : string) :
  root_if_empty (root_if_empty p) = root_if_empty p.
Proof. unfold root_if_empty. now destruct (p =? "")%string eqn:E; [|rewrite E]. Qed.

Section Agreement.

Variable World : Type.
Variable Do : URL -> World -> exchange * World.
Variable Unmarshal : list byte -> error + response.
Variable c : Config.
Variable link : string.

(** The server takes the empty path for the root. *)
Hypothesis Do_root :
  forall p l o k w,
    Do (Listing (mkQuery (root_if_empty p) l o k)) w
    = Do (Listing (mkQuery p l o k)) w.

Lemma agrees_rebase (fs fs1 : slice diskFile) (a a1 : Walk)
      (pre : list diskFile)
      (r1 : result (slice diskFile * option error) * Env World)
      (r2 : result (option error) * Walk * Env World) :
  elems fs1 = elems fs ++ pre ->
  elems (files a1) = elems (files a) ++ pre ->
  agrees fs1 a1 r1 r2 -> agrees fs a r1 r2.
Proof.
  intros H1 H2 [Hw H]. split; [exact Hw|].
  destruct (fst r1) as [[fs' [e1|]]|m1|], (fst (fst r2)) as [[e2|]|m2|]; auto.
  destruct H as (new & Hn1 & Hn2). exists (pre ++ new).
  rewrite Hn1, Hn2, H1, H2, <- !app_assoc. auto.
Qed.

Lemma range_items_agree
      (d1 : string -> Env World
            -> result (slice diskFile * option error) * Env World)
      (d2 : string -> Walk -> Env World
            -> result (option error) * Walk * Env World) :
  (forall p a env1 env2,
      world env1 = world env2 -> agrees None a (d1 p env1) (d2 p a env2)) ->
  forall l fs a env1 env2,
    world env1 = world env2 ->
    agrees fs a (range_items_v1 d1 l fs env1) (range_items None d2 l a env2).
Proof.
  intros Hd. induction l as [|i l IH]; intros fs a env1 env2 Hw; simpl.
  - split; [exact Hw|]. simpl. exists []. now rewrite !app_nil_r.
  - destruct (rType i =? FILE)%string.
    + destruct (file_result i) as [f|]; [|split; simpl; auto..].
      eapply agrees_rebase; [| |apply IH; exact Hw]; reflexivity.
    + destruct (rType i =? DIR)%string; [|now apply IH].
      specialize (Hd (rPath i) a env1 env2 Hw).
      destruct (d1 (rPath i) env1) as [r1 env1'].
      destruct (d2 (rPath i) a env2) as [[r2 a2] env2'].
      destruct Hd as [Hw' H]. simpl in Hw', H.
      destruct r1 as [[sub [e1|]]|m1|], r2 as [[e2|]|m2|];
        try contradiction; try (split; simpl; auto; fail).
      * destruct H as [_ ->]. split; simpl; auto.
      * destruct H as (new & Hn1 & Hn2). simpl in Hn1.
        eapply agrees_rebase; [| |apply IH; exact Hw'].
        -- rewrite elems_merge, Hn1. reflexivity.
        -- exact Hn2.
Qed.

Lemma reply_root (p : string) (o : Z) (env1 env2 : Env World) :
  world env1 = world env2 ->
  reply Do (Listing (mkQuery (root_if_empty p) (Limit c) o link)) env1
  = reply Do (Listing (mkQuery p (Limit c) o link)) env2 /\
  world (after Do (Listing (mkQuery (root_if_empty p) (Limit c) o link)) env1)
  = world (after Do (Listing (mkQuery p (Limit c) o link)) env2).
Proof.
  intros Hw. unfold reply, after. simpl. now rewrite Hw, Do_root.
Qed.

Lemma GetTree_v1_loop_agrees (fuel : nat) :
  forall p offset fs a env1 env2,
    world env1 = world env2 ->
    agrees fs a
           (GetTree_v1_loop Do Unmarshal c link fuel (root_if_empty p)
                            offset fs env1)
           (getTree Do Unmarshal c link None fuel p offset a env2).
Proof.
  induction fuel as [|fuel IH]; intros p offset fs a env1 env2 Hw.
  - split; simpl; auto.
  - rewrite GetTree_v1_step, getTree_step. cbv zeta.
    destruct (reply_root p offset env1 env2 Hw) as [-> Hw1].
    set (u1 := Listing (mkQuery (root_if_empty p) _ _ _)) in *.
    set (u2 := Listing (mkQuery p _ _ _)) in *.
    destruct (decoded Unmarshal (reply Do u2 env2)) as [e|r].
    + split; simpl; auto.
    + destruct (no_items r).
      * split; simpl; auto. exists []. now rewrite !app_nil_r.
      * pose proof (range_items_agree
                      (fun q => GetTree_v1_loop Do Unmarshal c link fuel
                                                (root_if_empty q) 0 None)
                      (fun q => getTree Do Unmarshal c link None fuel q 0)
                      (fun q a' e1 e2 Hq => IH q 0 None a' e1 e2 Hq)
                      (items r) fs a _ _ Hw1) as H.
        destruct (range_items_v1 _ _ _ _) as [r1 env1'].
        destruct (range_items _ _ _ _ _) as [[r2 a2] env2'].
        destruct H as [Hw' H]. simpl in Hw', H.
        destruct r1 as [[fs2 [e1|]]|m1|], r2 as [[e2|]|m2|];
          try contradiction; try (split; simpl; auto; fail).
        destruct H as (new & Hn1 & Hn2).
        eapply agrees_rebase; [exact Hn1 | exact Hn2 |].
        apply IH. exact Hw'.
Qed.

(** On any server that takes the empty path for the root, and for a
    non-negative [Limit], the two revisions end the same way. *)
Lemma GetTree_revisions_agree (path : string) (fuel : nat) (w : World) :
  0 <= Limit c ->
  same_outcome (GetTree_v1 Do Unmarshal c link path fuel w)
               (GetTree Do Unmarshal c link path [] fuel w).
Proof.
  intros Hl. unfold GetTree_v1, GetTree, GetTree_walk. simpl first_callback.
  destruct (Limit c <? 0) eqn:L; [apply Z.ltb_lt in L; lia|].
  rewrite <- (root_if_empty_twice path) at 1.
  pose proof (GetTree_v1_loop_agrees fuel (root_if_empty path) 0 None
                (mkWalk (Some []) 0 0) (mkEnv w []) (mkEnv w []) eq_refl) as H.
  destruct (GetTree_v1_loop _ _ _ _ _ _ _ _ _) as [r1 env1].
  destruct (getTree _ _ _ _ _ _ _ _ _ _) as [[r2 a2] env2].
  destruct H as [Hw H]. simpl in Hw, H.
  destruct r1 as [[fs1 [e1|]]|m1|], r2 as [[e2|]|m2|]; try contradiction;
    split; simpl; auto.
  - destruct H as [-> ->]. auto.
  - destruct H as (new & Hn1 & Hn2). simpl in Hn1, Hn2. now rewrite Hn1, Hn2.
Qed.

End Agreement.

(** C10. Given the same sequence of server responses, and a [Limit] that is
    not negative, the first revision of [GetTree] (which merges the results
    of a subdirectory after the recursive call) and the second one called
    without a callback (which appends to one shared accumulator) return the
    same sequence of files and the same error, or panic alike, or are both
    still running; and they have used up the same responses. *)
Theorem GetTree_revisions_equal
        (Unmarshal : list byte -> error + response) (c : Config)
        (link path : string) (fuel : nat) (w : list exchange) :
  0 <= Limit c ->
  same_outcome (GetTree_v1 replay Unmarshal c link path fuel w)
               (GetTree replay Unmarshal c link path [] fuel w).
Proof. apply GetTree_revisions_agree. reflexivity. Qed.

(** * The properties on the small share *)


(** The walk over the share with a callback: three reports, (1, 3), (2, 8)
    and (3, 12), and the same results as without it.  The report of [a]
    stands before the request for [/d], that of [c] before the pause of
    [/d], and that of [b] right after the request for the second page of
    [/]. *)
Lemma GetTree_progress_reports_witness :
  callbacks (trace (snd (GetTree_walk share_server
                                      (decode_by_table share_table)
                                      two_per_page "link" "" [Some 7%nat]
                                      9 tt)))
  = [EvCallback 7 1 3; EvCallback 7 2 8; EvCallback 7 3 12] /\
  fst (GetTree share_server (decode_by_table share_table) two_per_page
               "link" "" [] 9 tt)
  = fst (GetTree share_server (decode_by_table share_table) two_per_page
                 "link" "" [Some 7%nat] 9 tt) /\
  trace (snd (GetTree_walk share_server (decode_by_table share_table)
                           two_per_page "link" "" [Some 7%nat] 9 tt))
  = [EvDo (Listing (mkQuery "/" 2 0 "link")) (body 200 x01);
     EvCallback 7 1 3;
     EvDo (Listing (mkQuery "/d" 2 0 "link")) (body 200 x03);
     EvCallback 7 2 8;
     EvSleep (10 * Second);
     EvDo (Listing (mkQuery "/d" 2 2 "link")) (body 200 x00);
     EvSleep (10 * Second);
     EvDo (Listing (mkQuery "/" 2 2 "link")) (body 200 x02);
     EvCallback 7 3 12;
     EvSleep (10 * Second);
     EvDo (Listing (mkQuery "/" 2 4 "link")) (body 200 x00)] /\
  walk_trace (decode_by_table share_table) (10 * Second) (Some 7%nat) "/" 0 0
             (trace (snd (GetTree_walk share_server
                                       (decode_by_table share_table)
                                       two_per_page "link" "" [Some 7%nat]
                                       9 tt)))
             3 12 true.
Proof.
  destruct (GetTree_progress_reports
              unit share_server (decode_by_table share_table) two_per_page
              "link" "" [Some 7%nat] 9 tt _ _ _
              (surjective_pairing3 _)) as (_ & Hexact & _ & Hsame & Hlay & _).
  split; [|split; [exact Hsame|split; [reflexivity|exact Hlay]]].
  rewrite (Hexact 7%nat eq_refl); [reflexivity|].
  intros k Hk. vm_compute in Hk.
  do 4 (destruct k as [|k]; [vm_compute; intuition discriminate|]).
  lia.
Defined.

(** The walk over the share with the default configuration pauses for 10
    seconds, which is not [Wait]. *)
Lemma GetTree_pause_is_not_Wait :
  ~ pauses_last (Wait NewDefaultConfig)
      (trace (snd (GetTree share_server (decode_by_table share_table)
                           NewDefaultConfig "link" "" [] 9 tt))).
Proof.
  intros H. specialize (H (10 * Second)).
  assert (Hin : In (EvSleep (10 * Second))
                   (trace (snd (GetTree share_server
                                        (decode_by_table share_table)
                                        NewDefaultConfig "link" "" [] 9 tt))))
    by (vm_compute; tauto).
  apply H in Hin. discriminate Hin.
Qed.

(** Three pages with items, three pauses of [Timeout] each. *)
Lemma GetTree_pauses_witness :
  pauses_last (Timeout two_per_page)
    (trace (snd (GetTree share_server (decode_by_table share_table)
                         two_per_page "link" "" [] 9 tt))) /\
  pauses (snd (GetTree share_server (decode_by_table share_table)
                       two_per_page "link" "" [] 9 tt)) = 3%nat /\
  nonempty_pages (decode_by_table share_table)
    (snd (GetTree share_server (decode_by_table share_table)
                  two_per_page "link" "" [] 9 tt)) = 3%nat.
Proof.
  destruct (GetTree_pauses unit share_server (decode_by_table share_table)
              two_per_page "link" "" [] 9 tt _ _ (surjective_pairing _))
    as (Hlast & _ & _ & _).
  split; [exact Hlast|]. split; reflexivity.
Defined.

(** A path that is a file: [GetTree] returns an empty list and no error. *)
Lemma GetTree_accepts_file_at_root :
  exists r,
    decoded (decode_by_table share_table)
            (fst (file_path_server
                    (Listing (mkQuery "/a" (Limit NewDefaultConfig) 0 "link"))
                    tt)) = inr r /\
    rType r = FILE /\
    fst (GetTree file_path_server (decode_by_table share_table)
                 NewDefaultConfig "link" "/a" [] 3 tt)
    = Returned (Some [], None).
Proof. exists (file_entry "a" "/a" 3). repeat split. Qed.

Lemma GetTree_file_at_root_witness :
  fst (GetTree file_path_server (decode_by_table share_table)
               NewDefaultConfig "link" "/a" [] 3 tt)
  = Returned (Some [], None).
Proof.
  rewrite (proj1 (GetTree_file_at_root
                    unit file_path_server (decode_by_table share_table)
                    NewDefaultConfig "link" "/a" [] 2 tt
                    (file_entry "a" "/a" 3)
                    ltac:(vm_compute; discriminate) eq_refl eq_refl eq_refl)).
  reflexivity.
Defined.

(** C5. A file entry whose size, hashes and download URL are absent: the
    walk dereferences the nil pointers and panics; no error is returned. *)
Theorem GetTree_nil_field_panics :
  fst (GetTree nil_field_server (decode_by_table share_table)
               NewDefaultConfig "link" "" [] 3 tt)
  = Panicked nil_dereference.
Proof. reflexivity. Qed.

(** C6. A 404 with an error page: [request] returns the page and no error,
    [GetTree] an empty list and no error, and [DownloadFile] writes the page
    to the sink and returns no error; [downloadFile] of yadloader.go, with
    its check of the status, does return an error. *)
Theorem request_returns_error_page :
  fst (request not_found_server (Listing (mkQuery "/" 100 0 "link"))
               (mkEnv tt []))
  = ([x06], None) /\
  fst (GetTree not_found_server (decode_by_table share_table)
               NewDefaultConfig "link" "" [] 3 tt)
  = Returned (Some [], None) /\
  fst (DownloadFile not_found_server NewDefaultConfig (file_of "a" "/a" 3)
                    empty_sink (mkEnv tt []))
  = (Returned None, mkSink error_page None None) /\
  fst (downloadFile not_found_server (File (file_of "a" "/a" 3))
                    (inr empty_sink) (mkEnv tt []))
  = (Returned (Some "request failed with status code"), None).
Proof. repeat split. Qed.

(** Thirteen bytes through a buffer of four. *)
Lemma DownloadFile_copies_stream_witness :
  DownloadFile content_server two_per_page (file_of "a" "/a" 13) empty_sink
               (mkEnv tt [])
  = (Returned None, mkSink content None None,
     after content_server (Direct (File (file_of "a" "/a" 13))) (mkEnv tt [])).
Proof.
  apply (DownloadFile_copies_stream
           unit content_server two_per_page (file_of "a" "/a" 13) empty_sink
           (mkEnv tt []) 200
           (mkReader [list_byte_of_string "hello, ";
                      list_byte_of_string "world!"] None true));
    reflexivity.
Defined.

(** The loop of yadloader.go looks at the error of a [Read] before its
    bytes: what arrives together with EOF is not written. *)
Lemma downloadFile_drops_last_read :
  fst (downloadFile content_server (File (file_of "a" "/a" 13))
                    (inr empty_sink) (mkEnv tt []))
  = (Returned None, Some (mkSink (list_byte_of_string "hello, ") None None)).
Proof. reflexivity. Qed.

(** Not every way of paging suits the walk.  A server may cut a listing
    into pages shorter than the limit and count the offset in entries: here [/] holds
    [a] and [b], sent one to a page, [a] at offset 0 and [b] at offset 1.
    With a limit of 2 the walk asks for the offsets 0 and 2, since it moves
    on by the limit and not by the length of the page; it never sees [b] and
    returns one result for the two files, without an error.  Nor are the
    fields of a result checked: an entry with an empty name, path and URL
    and a size of -1 comes back as it is. *)
Lemma GetTree_misses_entries_of_short_pages :
  file_count pair_share = 2%nat /\
  decoded (decode_by_table pair_table)
          (fst (one_entry_server (Listing (mkQuery "/" 2 0 "link")) tt))
  = inr (listing "/" 2 (Some [file_entry "a" "/a" 3])) /\
  decoded (decode_by_table pair_table)
          (fst (one_entry_server (Listing (mkQuery "/" 2 1 "link")) tt))
  = inr (listing "/" 2 (Some [file_entry "b" "/b" 4])) /\
  GetTree one_entry_server (decode_by_table pair_table) two_per_page
          "link" "" [] 9 tt
  = (Returned (Some [file_of "a" "/a" 3], None),
     mkEnv tt [EvDo (Listing (mkQuery "/" 2 0 "link")) (body 200 x01);
               EvSleep (10 * Second);
               EvDo (Listing (mkQuery "/" 2 2 "link")) (body 200 x00)]) /\
  (forall fuel, (2 <= fuel)%nat ->
     fst (GetTree one_entry_server (decode_by_table pair_table) two_per_page
                  "link" "" [] fuel tt)
     = Returned (Some [file_of "a" "/a" 3], None)) /\
  fst (GetTree nameless_server (decode_by_table pair_table) two_per_page
               "link" "" [] 9 tt)
  = Returned (Some [mkDiskFile "" "" (-1) "" "" "" "" ""], None).
Proof.
  repeat split; try reflexivity.
  intros fuel Hfuel.
  destruct fuel as [|[|fuel]]; [lia | lia | reflexivity].
Qed.

(** The small server holds the share, two entries to a page. *)
Lemma share_served :
  serves share_server (decode_by_table share_table) 2 "link" share.
Proof.
  assert (Hidx : forall k, Z.to_nat (Z.of_nat k * 2 / 2) = k)
    by (intros k; rewrite Z.div_mul by lia; apply Nat2Z.id).
  apply serves_dir
    with (pages := [[RFile (file_of "a" "/a" 3);
                     RDir "d" "/d" [RFile (file_of "c" "/d/c" 5)]];
                    [RFile (file_of "b" "/b" 4)]]).
  - split; [reflexivity | repeat constructor; discriminate].
  - intros k w. unfold share_server, paged_server. cbn [q_path q_offset q_limit].
    rewrite Hidx. destruct k as [|[|k]].
    + eexists. split; [reflexivity|]. repeat constructor.
    + eexists. split; [reflexivity|]. repeat constructor.
    + exists (listing "/" 0 None). split; [now destruct k|].
      destruct k; constructor.
  - unfold in_int64, int64_min, int64_max. simpl. lia.
  - repeat constructor.
    apply serves_dir with (pages := [[RFile (file_of "c" "/d/c" 5)]]).
    + split; [reflexivity | repeat constructor; discriminate].
    + intros k w. unfold share_server, paged_server.
      cbn [q_path q_offset q_limit]. rewrite Hidx. destruct k as [|k].
      * eexists. split; [reflexivity|]. repeat constructor.
      * exists (listing "/" 0 None). split; [now destruct k|].
        destruct k; constructor.
    + unfold in_int64, int64_min, int64_max. simpl. lia.
    + repeat constructor.
Qed.

(** [GetTree] on the share: its three files, [a], [c] and [b]. *)
Lemma GetTree_returns_every_file_witness :
  exists n0, forall fuel, (n0 <= fuel)%nat ->
    exists fs env,
      GetTree share_server (decode_by_table share_table) two_per_page
              "link" "" [] fuel tt
      = (Returned (Some fs, None), env) /\
      fs = [file_of "a" "/a" 3; file_of "c" "/d/c" 5; file_of "b" "/b" 4] /\
      length fs = 3%nat /\
      Forall well_formed fs.
Proof.
  apply (GetTree_returns_every_file
           unit share_server (decode_by_table share_table) two_per_page
           "link" "" [] tt ""
           [RFile (file_of "a" "/a" 3);
            RDir "d" "/d" [RFile (file_of "c" "/d/c" 5)];
            RFile (file_of "b" "/b" 4)]).
  - reflexivity.
  - exact share_served.
  - repeat constructor; simpl; try discriminate.
Defined.

(** The two revisions on the responses of one walk over the share. *)
Lemma GetTree_revisions_equal_witness :
  same_outcome
    (GetTree_v1 replay (decode_by_table share_table) two_per_page
                "link" "" 9 share_script)
    (GetTree replay (decode_by_table share_table) two_per_page
             "link" "" [] 9 share_script).
Proof.
  apply (GetTree_revisions_equal (decode_by_table share_table) two_per_page
                                 "link" "" 9 share_script).
  discriminate.
Defined.

(** The first revision asks for [/] where a directory entry has an empty
    path, the second asks for the empty path: on a server that tells them
    apart the two get different responses, and here different results. *)
Lemma GetTree_revisions_on_empty_path :
  fst (GetTree_v1 once_server (decode_by_table share_table) two_per_page
                  "link" "" 9 false)
  = Returned (None, None) /\
  fst (GetTree once_server (decode_by_table share_table) two_per_page
               "link" "" [] 9 false)
  = Returned (Some [file_of "c" "/d/c" 5], None).
Proof. split; reflexivity. Qed.

(** * More of the code *)

(** ** [DownloadFile]: errors and bounds *)

(** One [Read], whatever the buffer and the end of the stream. *)
Lemma Read_step (rd : Reader) (n : nat) (chunk : list byte)
      (er : read_status) (rd' : Reader) :
  Read rd n = (chunk, er, rd') ->
  concat (segments rd) = chunk ++ concat (segments rd') /\
  ending rd' = ending rd /\ with_last rd' = with_last rd /\
  match er with
  | ReadMore => (0 < n -> read_budget rd' < read_budget rd)%nat
  | ReadEOF => ending rd = None /\ concat (segments rd') = []
  | ReadErr e => ending rd = Some e /\ concat (segments rd') = []
  end.
Proof.
  intros H. unfold Read in H. destruct rd as [segs en wl]. simpl in H.
  assert (Hend : match end_status (mkReader segs en wl) with
                 | ReadMore => False
                 | ReadEOF => en = None
                 | ReadErr e => en = Some e
                 end)
    by (unfold end_status; simpl; now destruct en).
  destruct segs as [|seg rest].
  - inversion H; subst. simpl.
    destruct (end_status _); [contradiction|auto..].
  - pose proof (firstn_skipn n seg) as Hsplit.
    destruct (skipn n seg) as [|b more] eqn:Sk.
    + rewrite app_nil_r in Hsplit. rewrite Hsplit in H.
      assert (Hgen : (chunk, er, rd')
                     = (seg, ReadMore, mkReader rest en wl) \/
                     (rest = [] /\
                      (chunk, er, rd')
                      = (seg, end_status (mkReader (seg :: rest) en wl),
                         mkReader [] en wl)))
        by (destruct rest; [destruct wl|]; inversion H; auto).
      destruct Hgen as [Hg|[-> Hg]]; inversion Hg; subst; simpl.
      * repeat split; auto. intros _. unfold read_budget. simpl.
        rewrite length_app. lia.
      * rewrite app_nil_r. repeat split; auto.
        unfold end_status in *. simpl in *. destruct en; auto.
    + inversion H; subst. cbn [segments ending with_last concat].
      rewrite app_assoc, Hsplit. repeat split; auto.
      intros Hn. unfold read_budget. cbn [segments concat length].
      rewrite !length_app.
      assert (Hlen : length seg
                     = (length (firstn n seg) + length (b :: more))%nat)
        by now rewrite <- length_app, Hsplit.
      assert (length (firstn n seg) <> 0)%nat; [|lia].
      rewrite length_firstn. destruct seg; [now destruct n|simpl; lia].
Qed.

Lemma sink_eta (s : Sink) : s = mkSink (written s) (room s) (full_err s).
Proof. now destruct s. Qed.

Lemma Write_full_err (s : Sink) (p : list byte) :
  full_err (snd (Write s p)) = full_err s.
Proof.
  unfold Write. destruct (room s) as [r|]; [|reflexivity].
  now destruct (length p <=? r)%nat.
Qed.

(** The copy into a sink that takes everything: the whole stream is
    written and the end of the stream is what the copy returns. *)
Lemma copy_loop_unbounded (fuel n : nat) :
  (0 < n)%nat ->
  forall rd dst,
    room dst = None ->
    (read_budget rd <= fuel)%nat ->
    copy_loop fuel n rd dst =
    (Returned (ending rd),
     mkSink (written dst ++ concat (segments rd)) None (full_err dst)).
Proof.
  intros Hn. induction fuel as [|fuel IH]; intros rd dst Hr Hb.
  - unfold read_budget in Hb. lia.
  - cbn [copy_loop]. destruct (Read rd n) as [[chunk er] rd'] eqn:R.
    destruct (Read_step _ _ _ _ _ R) as (Hcat & He' & _ & Her).
    rewrite Hcat.
    assert (Hdst : dst = mkSink (written dst) None (full_err dst))
      by (rewrite <- Hr; apply sink_eta).
    destruct chunk as [|b chunk].
    + destruct er as [| |e].
      * rewrite IH by (auto; specialize (Her Hn); lia). now rewrite He'.
      * destruct Her as [-> ->]. rewrite app_nil_r. now rewrite <- Hdst.
      * destruct Her as [-> ->]. rewrite app_nil_r. now rewrite <- Hdst.
    + rewrite Write_unbounded by exact Hr. rewrite Nat.eqb_refl.
      destruct er as [| |e].
      * rewrite IH by (auto; specialize (Her Hn); lia).
        simpl. now rewrite He', <- app_assoc.
      * destruct Her as [-> ->]. now rewrite app_nil_r.
      * destruct Her as [-> ->]. now rewrite app_nil_r.
Qed.

(** The copy into a sink with room for [r] more bytes, from a stream that
    ends with EOF. *)
Lemma copy_loop_bounded (fuel n : nat) :
  (0 < n)%nat ->
  forall rd dst r,
    ending rd = None -> room dst = Some r ->
    (read_budget rd <= fuel)%nat ->
    copy_loop fuel n rd dst =
    if (length (concat (segments rd)) <=? r)%nat
    then (Returned None,
          mkSink (written dst ++ concat (segments rd))
                 (Some (r - length (concat (segments rd)))%nat)
                 (full_err dst))
    else (Returned (Some (full_error dst)),
          mkSink (written dst ++ firstn r (concat (segments rd)))
                 (Some 0%nat) (full_err dst)).
Proof.
  intros Hn. induction fuel as [|fuel IH]; intros rd dst r He Hr Hb.
  - unfold read_budget in Hb. lia.
  - cbn [copy_loop]. destruct (Read rd n) as [[chunk er] rd'] eqn:R.
    destruct (Read_step _ _ _ _ _ R) as (Hcat & He' & _ & Her).
    rewrite He in He'. rewrite Hcat, length_app.
    assert (Hdst : dst = mkSink (written dst) (Some r) (full_err dst))
      by (rewrite <- Hr; apply sink_eta).
    destruct chunk as [|b chunk].
    + destruct er as [| |e]; [|destruct Her as [_ ->]|destruct Her; congruence].
      * rewrite (IH rd' dst r) by (auto; specialize (Her Hn); lia).
        reflexivity.
      * simpl. rewrite app_nil_r, Nat.sub_0_r. now rewrite <- Hdst.
    + unfold Write. rewrite Hr.
      destruct (length (b :: chunk) <=? r)%nat eqn:Fit.
      * apply Nat.leb_le in Fit. rewrite Nat.eqb_refl.
        destruct er as [| |e];
          [|destruct Her as [_ ->]|destruct Her; congruence].
        -- rewrite (IH rd' _ (r - length (b :: chunk))%nat)
             by (auto; specialize (Her Hn); lia).
           cbn [written full_err].
           destruct (length (concat (segments rd')) <=? _)%nat eqn:Fit2.
           ++ apply Nat.leb_le in Fit2.
              replace (length (b :: chunk) + length (concat (segments rd'))
                       <=? r)%nat with true
                by (symmetry; apply Nat.leb_le; lia).
              rewrite <- app_assoc. do 3 f_equal. lia.
           ++ apply Nat.leb_gt in Fit2.
              replace (length (b :: chunk) + length (concat (segments rd'))
                       <=? r)%nat with false
                by (symmetry; apply Nat.leb_gt; lia).
              rewrite firstn_app, (firstn_all2 (n := r)) by lia.
              now rewrite <- app_assoc.
        -- rewrite app_nil_r.
           replace (length (b :: chunk) + length (@nil byte))%nat
             with (length (b :: chunk)) by (cbn [length]; lia).
           replace (length (b :: chunk) <=? r)%nat with true
             by (symmetry; apply Nat.leb_le; lia).
           reflexivity.
      * apply Nat.leb_gt in Fit.
        replace (length (b :: chunk) + length (concat (segments rd'))
                 <=? r)%nat with false
          by (symmetry; apply Nat.leb_gt; lia).
        rewrite firstn_app.
        replace (r - length (b :: chunk))%nat with 0%nat by lia.
        cbn [firstn]. rewrite app_nil_r.
        unfold full_error. destruct (full_err dst) as [e|]; [reflexivity|].
        replace (length (b :: chunk) =? r)%nat with false
          by (symmetry; apply Nat.eqb_neq; lia).
        reflexivity.
Qed.

Lemma copy_loop_prefix (fuel n : nat) :
  forall rd dst,
  exists k,
    written (snd (copy_loop fuel n rd dst))
    = written dst ++ firstn k (concat (segments rd)).
Proof.
  induction fuel as [|fuel IH]; intros rd dst.
  - exists 0%nat. simpl. now rewrite app_nil_r.
  - cbn [copy_loop]. destruct (Read rd n) as [[chunk er] rd'] eqn:R.
    destruct (Read_step _ _ _ _ _ R) as (Hcat & _). rewrite Hcat.
    assert (Hstop : forall d : Sink,
               written d = written dst ++ chunk ->
               exists k, written d
                         = written dst
                           ++ firstn k (chunk ++ concat (segments rd'))).
    { intros d Hd. exists (length chunk).
      rewrite <- (Nat.add_0_r (length chunk)), firstn_app_2.
      simpl. now rewrite app_nil_r. }
    assert (Hgo : forall d : Sink,
               written d = written dst ++ chunk ->
               exists k, written (snd (copy_loop fuel n rd' d))
                         = written dst
                           ++ firstn k (chunk ++ concat (segments rd'))).
    { intros d Hd. destruct (IH rd' d) as (k & Hk).
      exists (length chunk + k)%nat.
      now rewrite Hk, Hd, firstn_app_2, <- app_assoc. }
    destruct chunk as [|b chunk].
    + destruct er; [apply Hgo|apply Hstop..]; now rewrite app_nil_r.
    + unfold Write. destruct (room dst) as [r|].
      * destruct (length (b :: chunk) <=? r)%nat eqn:Fit.
        -- rewrite Nat.eqb_refl.
           destruct er; [apply Hgo|apply Hstop..]; reflexivity.
        -- apply Nat.leb_gt in Fit.
           assert (Hcut : exists k,
                      written dst ++ firstn r (b :: chunk)
                      = written dst
                        ++ firstn k ((b :: chunk) ++ concat (segments rd'))).
           { exists r. rewrite firstn_app.
             replace (r - length (b :: chunk))%nat with 0%nat by lia.
             simpl firstn at 2. now rewrite app_nil_r. }
           destruct (full_err dst); [exact Hcut|].
           replace (length (b :: chunk) =? r)%nat with false
             by (symmetry; apply Nat.eqb_neq; lia).
           exact Hcut.
      * rewrite Nat.eqb_refl.
        destruct er; [apply Hgo|apply Hstop..]; reflexivity.
Qed.

Section Downloads.

Variable World : Type.
Variable Do : URL -> World -> exchange * World.
Variable c : Config.

Lemma DownloadFile_response (file : diskFile) (writer : Sink)
      (env : Env World) (status : Z) (body : Reader) :
  reply Do (Direct (File file)) env = Response status body ->
  DownloadFile Do c file writer env =
  if ChunkSize c <? 0
  then (Panicked "makeslice: len out of range", writer,
        after Do (Direct (File file)) env)
  else (CopyBuffer writer body (Z.to_nat (ChunkSize c)),
        after Do (Direct (File file)) env).
Proof.
  intros Hx. unfold DownloadFile, send, after. rewrite Hx.
  unfold reply in Hx.
  destruct (Do (Direct (File file)) (world env)) as [x w']. simpl in Hx.
  subst x. cbn [snd]. destruct (ChunkSize c <? 0); [reflexivity|].
  now destruct (CopyBuffer _ _ _).
Qed.

(** X1. When the body breaks off with a read error, [DownloadFile] returns
    that error unchanged, after writing every byte that arrived before it. *)
Theorem DownloadFile_read_error
        (file : diskFile) (writer : Sink) (env : Env World)
        (status : Z) (body : Reader) (e : error) :
  0 < ChunkSize c ->
  reply Do (Direct (File file)) env = Response status body ->
  ending body = Some e ->
  room writer = None ->
  DownloadFile Do c file writer env =
  (Returned (Some e),
   mkSink (written writer ++ concat (segments body)) None (full_err writer),
   after Do (Direct (File file)) env).
Proof.
  intros Hc Hx He Hr. rewrite (DownloadFile_response _ _ _ _ _ Hx).
  destruct (ChunkSize c <? 0) eqn:L; [apply Z.ltb_lt in L; lia|].
  unfold CopyBuffer. destruct (Z.to_nat (ChunkSize c)) as [|n] eqn:N; [lia|].
  rewrite copy_loop_unbounded by (auto; lia). now rewrite He.
Qed.

(** X2. A sink with room for [r] more bytes, a body that ends with EOF: if
    the body fits, it is copied whole and no error is returned; if not, the
    sink gets exactly the first [r] bytes of the body and [DownloadFile]
    returns the sink's error ([io.ErrShortWrite] if the sink reports
    none). *)
Theorem DownloadFile_bounded_sink
        (file : diskFile) (writer : Sink) (env : Env World)
        (status : Z) (body : Reader) (r : nat) :
  0 < ChunkSize c ->
  reply Do (Direct (File file)) env = Response status body ->
  ending body = None ->
  room writer = Some r ->
  DownloadFile Do c file writer env =
  (if (length (concat (segments body)) <=? r)%nat
   then (Returned None,
         mkSink (written writer ++ concat (segments body))
                (Some (r - length (concat (segments body)))%nat)
                (full_err writer))
   else (Returned (Some (full_error writer)),
         mkSink (written writer ++ firstn r (concat (segments body)))
                (Some 0%nat) (full_err writer)),
   after Do (Direct (File file)) env).
Proof.
  intros Hc Hx He Hr. rewrite (DownloadFile_response _ _ _ _ _ Hx).
  destruct (ChunkSize c <? 0) eqn:L; [apply Z.ltb_lt in L; lia|].
  unfold CopyBuffer. destruct (Z.to_nat (ChunkSize c)) as [|n] eqn:N; [lia|].
  now rewrite (copy_loop_bounded (read_budget body) (S n)
                                 (Nat.lt_0_succ n) body writer r He Hr
                                 (Nat.le_refl _)).
Qed.

(** X3. Whatever happens, [DownloadFile] makes exactly one request, for the
    file's download URL, and leaves in the sink what it had followed by a
    prefix of the body: nothing else is ever written, and nothing at all when
    the request fails. *)
Theorem DownloadFile_writes_prefix
        (file : diskFile) (writer : Sink) (env : Env World) :
  snd (DownloadFile Do c file writer env)
  = after Do (Direct (File file)) env /\
  exists k,
    written (snd (fst (DownloadFile Do c file writer env)))
    = written writer
      ++ firstn k (body_stream (reply Do (Direct (File file)) env)).
Proof.
  destruct (reply Do (Direct (File file)) env) as [e|e|status body] eqn:Hx.
  - unfold DownloadFile, send, after. rewrite Hx. unfold reply in Hx.
    destruct (Do _ _) as [x w']. simpl in Hx. subst x. simpl.
    split; [reflexivity|]. exists 0%nat. now rewrite app_nil_r.
  - unfold DownloadFile, send, after. rewrite Hx. unfold reply in Hx.
    destruct (Do _ _) as [x w']. simpl in Hx. subst x. simpl.
    split; [reflexivity|]. exists 0%nat. now rewrite app_nil_r.
  - rewrite (DownloadFile_response _ _ _ _ _ Hx).
    destruct (ChunkSize c <? 0).
    + split; [reflexivity|]. exists 0%nat. simpl. now rewrite app_nil_r.
    + split; [reflexivity|]. cbn [fst snd body_stream]. unfold CopyBuffer.
      destruct (Z.to_nat (ChunkSize c)) as [|n].
      * exists 0%nat. simpl. now rewrite app_nil_r.
      * apply copy_loop_prefix.
Qed.

(** X4. With a chunk size of 0 or less, [DownloadFile] panics as soon as
    the server responds, whatever the response: making the buffer panics on
    a negative size and [io.CopyBuffer] on an empty buffer.  Nothing is
    written. *)
Theorem DownloadFile_bad_chunk_size
        (file : diskFile) (writer : Sink) (env : Env World)
        (status : Z) (body : Reader) :
  ChunkSize c <= 0 ->
  reply Do (Direct (File file)) env = Response status body ->
  exists msg,
    DownloadFile Do c file writer env =
    (Panicked msg, writer, after Do (Direct (File file)) env).
Proof.
  intros Hc Hx. rewrite (DownloadFile_response _ _ _ _ _ Hx).
  destruct (ChunkSize c <? 0) eqn:L; [eauto|].
  apply Z.ltb_ge in L. replace (ChunkSize c) with 0 by lia. simpl. eauto.
Qed.

End Downloads.

(** ** yadloader.go: the read and write loop of [downloadFile] *)

(** Without [with_last], the end of the stream comes with no bytes. *)
Lemma Read_end_alone (rd : Reader) (n : nat) (chunk : list byte)
      (er : read_status) (rd' : Reader) :
  with_last rd = false ->
  Read rd n = (chunk, er, rd') ->
  er <> ReadMore -> chunk = [].
Proof.
  intros Hwl H Hne. unfold Read in H. rewrite Hwl in H.
  destruct (segments rd) as [|seg rest]; [now inversion H|].
  destruct (skipn n seg); [destruct rest|]; inversion H; subst;
    now destruct Hne.
Qed.

(** With [with_last], a stream whose last segment has bytes ends on a
    [Read] that returns bytes. *)
Lemma Read_end_with_last (rd : Reader) (n : nat) (chunk : list byte)
      (er : read_status) (rd' : Reader) :
  with_last rd = true -> ending rd = None -> last_segment rd <> [] ->
  Read rd n = (chunk, er, rd') ->
  (er = ReadEOF /\ chunk <> []) \/ (er = ReadMore /\ last_segment rd' <> []).
Proof.
  unfold last_segment, Read, end_status. intros Hwl He Hlast H.
  rewrite Hwl, He in H.
  destruct (segments rd) as [|seg rest]; [now destruct Hlast|].
  pose proof (firstn_skipn n seg) as Hsplit.
  destruct (skipn n seg) as [|b more].
  - rewrite app_nil_r in Hsplit. rewrite Hsplit in H. destruct rest.
    + inversion H; subst. left. auto.
    + inversion H; subst. right. auto.
  - inversion H; subst. right. split; [reflexivity|]. simpl.
    destruct rest; [discriminate | exact Hlast].
Qed.

Lemma read_write_loop_copies (fuel : nat) :
  forall rd dst,
    with_last rd = false -> ending rd = None -> room dst = None ->
    (read_budget rd <= fuel)%nat ->
    read_write_loop fuel rd dst =
    (Returned None,
     mkSink (written dst ++ concat (segments rd)) None (full_err dst)).
Proof.
  induction fuel as [|fuel IH]; intros rd dst Hwl He Hr Hb.
  - unfold read_budget in Hb. lia.
  - cbn [read_write_loop].
    destruct (Read rd (Z.to_nat CHUNKSIZE)) as [[chunk er] rd'] eqn:R.
    destruct (Read_step _ _ _ _ _ R) as (Hcat & He' & Hwl' & Her).
    rewrite Hcat.
    assert (Hdst : dst = mkSink (written dst) None (full_err dst))
      by (rewrite <- Hr; apply sink_eta).
    destruct er as [| |e].
    + rewrite Write_unbounded by exact Hr.
      assert (Hpos : (0 < Z.to_nat CHUNKSIZE)%nat) by (unfold CHUNKSIZE; lia).
      specialize (Her Hpos).
      rewrite IH; [|congruence|congruence|reflexivity|lia].
      simpl. now rewrite <- app_assoc.
    + rewrite (Read_end_alone _ _ _ _ _ Hwl R) by discriminate.
      destruct Her as [_ ->]. rewrite app_nil_r. now rewrite <- Hdst.
    + destruct Her. congruence.
Qed.

Lemma read_write_loop_truncates (fuel : nat) :
  forall rd dst,
    with_last rd = true -> ending rd = None -> last_segment rd <> [] ->
    room dst = None ->
    (read_budget rd <= fuel)%nat ->
    exists k,
      (k < length (concat (segments rd)))%nat /\
      read_write_loop fuel rd dst =
      (Returned None,
       mkSink (written dst ++ firstn k (concat (segments rd))) None
              (full_err dst)).
Proof.
  induction fuel as [|fuel IH]; intros rd dst Hwl He Hlast Hr Hb.
  - unfold read_budget in Hb. lia.
  - cbn [read_write_loop].
    destruct (Read rd (Z.to_nat CHUNKSIZE)) as [[chunk er] rd'] eqn:R.
    destruct (Read_step _ _ _ _ _ R) as (Hcat & He' & Hwl' & Her).
    rewrite Hcat.
    assert (Hdst : dst = mkSink (written dst) None (full_err dst))
      by (rewrite <- Hr; apply sink_eta).
    destruct (Read_end_with_last _ _ _ _ _ Hwl He Hlast R)
      as [[-> Hchunk]|[-> Hlast']].
    + exists 0%nat. split.
      * rewrite length_app. destruct chunk; [contradiction|simpl; lia].
      * simpl. rewrite app_nil_r. now rewrite <- Hdst.
    + rewrite Write_unbounded by exact Hr.
      assert (Hpos : (0 < Z.to_nat CHUNKSIZE)%nat) by (unfold CHUNKSIZE; lia).
      specialize (Her Hpos).
      destruct (IH rd' (mkSink (written dst ++ chunk) None (full_err dst)))
        as (k & Hk & E); [congruence|congruence|exact Hlast'|reflexivity|lia|].
      exists (length chunk + k)%nat. split.
      * rewrite length_app. lia.
      * rewrite E. simpl. now rewrite firstn_app_2, <- app_assoc.
Qed.

Section Script.

Variable World : Type.
Variable Do : URL -> World -> exchange * World.

Lemma downloadFile_response (url : string) (created : error + Sink)
      (env : Env World) (body : Reader) :
  reply Do (Direct url) env = Response StatusOK body ->
  downloadFile Do url created env =
  match created with
  | inl e =>
      (Returned (Some ("error creating output file: " ++ e)%string), None,
       after Do (Direct url) env)
  | inr outFile =>
      (fst (read_write_loop (read_budget body) body outFile),
       Some (snd (read_write_loop (read_budget body) body outFile)),
       after Do (Direct url) env)
  end.
Proof.
  intros Hx. unfold downloadFile, send, after. rewrite Hx.
  unfold reply in Hx. destruct (Do (Direct url) (world env)) as [x w'].
  simpl in Hx. subst x. cbn [snd].
  change (negb (StatusOK =? StatusOK)) with false. cbv iota.
  destruct created as [e|outFile]; [reflexivity|].
  now destruct (read_write_loop _ _ _).
Qed.

(** X5. [downloadFile] of yadloader.go, on a 200 response whose body
    reports EOF by a [Read] of its own: the file gets the whole body and no
    error is returned. *)
Theorem downloadFile_copies_when_eof_alone
        (url : string) (outFile : Sink) (env : Env World) (body : Reader) :
  reply Do (Direct url) env = Response StatusOK body ->
  ending body = None ->
  with_last body = false ->
  room outFile = None ->
  downloadFile Do url (inr outFile) env =
  (Returned None,
   Some (mkSink (written outFile ++ concat (segments body)) None
                (full_err outFile)),
   after Do (Direct url) env).
Proof.
  intros Hx He Hwl Hr. rewrite (downloadFile_response _ _ _ _ Hx).
  now rewrite read_write_loop_copies.
Qed.

(** X6. The same function when the body reports EOF together with its last
    bytes, as [io.Reader] allows: the loop leaves on the error before it
    writes those bytes, so the file is a proper prefix of the body, shorter
    than it, and still no error is returned. *)
Theorem downloadFile_truncates
        (url : string) (outFile : Sink) (env : Env World) (body : Reader) :
  reply Do (Direct url) env = Response StatusOK body ->
  ending body = None ->
  with_last body = true ->
  last_segment body <> [] ->
  room outFile = None ->
  exists k,
    (k < length (concat (segments body)))%nat /\
    downloadFile Do url (inr outFile) env =
    (Returned None,
     Some (mkSink (written outFile ++ firstn k (concat (segments body)))
                  None (full_err outFile)),
     after Do (Direct url) env).
Proof.
  intros Hx He Hwl Hlast Hr. rewrite (downloadFile_response _ _ _ _ Hx).
  destruct (read_write_loop_truncates _ body outFile Hwl He Hlast Hr
                                      (Nat.le_refl _)) as (k & Hk & E).
  exists k. now rewrite E.
Qed.

End Script.

(** ** [GetTree]: what it asks for and what it returns *)

Lemma decoded_Unmarshal (Unmarshal : list byte -> error + response)
      (x : exchange) (r : response) :
  decoded Unmarshal x = inr r -> exists b, Unmarshal b = inr r.
Proof.
  unfold decoded. destruct (received x) as [b [e|]]; [discriminate|eauto].
Qed.

Lemma seen_entry_app (Unmarshal : list byte -> error + response)
      (tr d : list event) (i : response) :
  seen_entry Unmarshal tr i -> seen_entry Unmarshal (tr ++ d) i.
Proof.
  intros (u & x & r & Hin & D & Hi). exists u, x, r.
  split; [apply in_or_app; now left | auto].
Qed.

Lemma from_file_entry_app (Unmarshal : list byte -> error + response)
      (tr d : list event) (f : diskFile) :
  from_file_entry Unmarshal tr f -> from_file_entry Unmarshal (tr ++ d) f.
Proof.
  intros (i & Hs & Ht & Hf). exists i. split; [now apply seen_entry_app|auto].
Qed.

Section Walks.

Variable World : Type.
Variable Do : URL -> World -> exchange * World.
Variable Unmarshal : list byte -> error + response.
Variable c : Config.
Variable link : string.
Variable cb : GetTreeCallback.

(** *** Results come from file entries *)

Lemma sound_results_app (a : Walk) (env env' : Env World) (d : list event) :
  trace env' = trace env ++ d ->
  sound_results Unmarshal a env -> sound_results Unmarshal a env'.
Proof.
  unfold sound_results. intros -> H. eapply Forall_impl; [|exact H].
  intros f. apply from_file_entry_app.
Qed.

Lemma range_items_sound
      (descend : string -> Walk -> Env World
                 -> result (option error) * Walk * Env World) :
  (forall p a env res a' env',
      descend p a env = (res, a', env') ->
      (exists d, trace env' = trace env ++ d) /\
      (sound_results Unmarshal a env -> sound_results Unmarshal a' env')) ->
  forall l a env res a' env',
    range_items cb descend l a env = (res, a', env') ->
    (forall i, In i l -> seen_entry Unmarshal (trace env) i) ->
    (exists d, trace env' = trace env ++ d) /\
    (sound_results Unmarshal a env -> sound_results Unmarshal a' env').
Proof.
  intros Hd. induction l as [|i l IH]; intros a env res a' env' H Hseen;
    simpl in H.
  - inversion H; subst. split; [exists []; now rewrite app_nil_r | auto].
  - assert (Hnext : forall (env1 : Env World) d,
               trace env1 = trace env ++ d ->
               forall j, In j l -> seen_entry Unmarshal (trace env1) j).
    { intros env1 d -> j Hj. apply seen_entry_app, Hseen. now right. }
    destruct (rType i =? FILE)%string eqn:Ty.
    + destruct (file_result i) as [f|] eqn:Fr.
      * apply IH in H; [|eapply Hnext; apply trace_notify].
        destruct H as [(d & Hd') Hs]. rewrite trace_notify in Hd'.
        split; [rewrite Hd', <- app_assoc; eauto|].
        intros Ha. apply Hs. unfold sound_results in *. simpl.
        apply Forall_app. split.
        -- eapply Forall_impl; [|exact Ha]. intros f0.
           rewrite trace_notify. apply from_file_entry_app.
        -- constructor; [|constructor]. rewrite trace_notify.
           apply from_file_entry_app. exists i.
           split; [apply Hseen; now left|].
           split; [now apply String.eqb_eq | exact Fr].
      * inversion H; subst. split; [exists []; now rewrite app_nil_r | auto].
    + destruct (rType i =? DIR)%string.
      * destruct (descend (rPath i) a env) as [[r1 a1] env1] eqn:E.
        destruct (Hd _ _ _ _ _ _ E) as [(d1 & Hd1) Hs1].
        destruct r1 as [[e|]|m|];
          try (inversion H; subst; split; [eauto | auto]; fail).
        apply IH in H; [|eapply Hnext; exact Hd1].
        destruct H as [(d & Hd') Hs].
        split; [rewrite Hd', Hd1, <- app_assoc; eauto | auto].
      * apply IH in H; [exact H|]. intros j Hj. apply Hseen. now right.
Qed.

Lemma getTree_sound (fuel : nat) :
  forall path offset a env res a' env',
    getTree Do Unmarshal c link cb fuel path offset a env = (res, a', env') ->
    (exists d, trace env' = trace env ++ d) /\
    (sound_results Unmarshal a env -> sound_results Unmarshal a' env').
Proof.
  induction fuel as [|fuel IH]; intros path offset a env res a' env' H.
  - inversion H; subst. split; [exists []; now rewrite app_nil_r | auto].
  - rewrite getTree_step in H. cbv zeta in H. set (u := Listing _) in H.
    assert (Hu : trace (after Do u env)
                 = trace env ++ [EvDo u (reply Do u env)]) by reflexivity.
    destruct (decoded Unmarshal (reply Do u env)) as [e|r] eqn:D.
    + inversion H; subst. split; [eauto|]. now apply sound_results_app with (d := [EvDo u (reply Do u env)]).
    + destruct (no_items r).
      * inversion H; subst. split; [eauto|]. now apply sound_results_app with (d := [EvDo u (reply Do u env)]).
      * destruct (range_items _ _ _ _ _) as [[r1 a1] env1] eqn:E.
        apply (range_items_sound _ (fun p => IH p 0)) in E.
        2:{ intros i Hi. exists u, (reply Do u env), r. rewrite Hu.
            split; [apply in_or_app; right; now left | auto]. }
        destruct E as [(d1 & Hd1) Hs1].
        assert (Hstop : (exists d, trace env1 = trace env ++ d) /\
                        (sound_results Unmarshal a env
                         -> sound_results Unmarshal a1 env1)).
        { split; [rewrite Hd1, Hu, <- app_assoc; eauto|].
          intros Ha. apply Hs1. now apply sound_results_app with (d := [EvDo u (reply Do u env)]) (env := env). }
        destruct r1 as [[e|]|m|]; try (inversion H; subst; exact Hstop).
        apply IH in H. destruct H as [(d & Hd') Hs].
        destruct Hstop as [(d0 & Hd0) Hs0].
        split.
        -- unfold Sleep, log in Hd'. simpl in Hd'.
           rewrite Hd', Hd0, <- !app_assoc. eauto.
        -- intros Ha. apply Hs.
           apply sound_results_app with (env := env1) (d := [EvSleep (Timeout c)]);
             [reflexivity | auto].
Qed.

(** *** Requests *)

Lemma range_items_asks
      (descend : string -> Walk -> Env World
                 -> result (option error) * Walk * Env World) :
  (forall p a env res a' env',
      descend p a env = (res, a', env') ->
      Forall (asks_listing c link) (trace env) ->
      Forall (asks_listing c link) (trace env')) ->
  forall l a env res a' env',
    range_items cb descend l a env = (res, a', env') ->
    Forall (asks_listing c link) (trace env) ->
    Forall (asks_listing c link) (trace env').
Proof.
  intros Hd. induction l as [|i l IH]; intros a env res a' env' H Hok;
    simpl in H.
  - now inversion H; subst.
  - destruct (rType i =? FILE)%string.
    + destruct (file_result i) as [f|]; [|now inversion H; subst].
      eapply IH; [exact H|]. rewrite trace_notify. apply Forall_app.
      split; [exact Hok|]. destruct cb; repeat constructor.
    + destruct (rType i =? DIR)%string; [|eauto].
      destruct (descend (rPath i) a env) as [[r1 a1] env1] eqn:E.
      apply Hd in E; [|exact Hok].
      destruct r1 as [[e|]|m|]; try (now inversion H; subst). eauto.
Qed.

Lemma getTree_asks (fuel : nat) :
  forall path offset a env res a' env',
    getTree Do Unmarshal c link cb fuel path offset a env = (res, a', env') ->
    page_offset c offset ->
    Forall (asks_listing c link) (trace env) ->
    Forall (asks_listing c link) (trace env').
Proof.
  induction fuel as [|fuel IH]; intros path offset a env res a' env' H Ho Hok.
  - now inversion H; subst.
  - rewrite getTree_step in H. cbv zeta in H. set (u := Listing _) in H.
    assert (Hu : Forall (asks_listing c link) (trace (after Do u env))).
    { unfold after. simpl. apply Forall_app. split; [exact Hok|].
      repeat constructor. exact Ho. }
    assert (H0 : page_offset c 0) by (exists 0%nat; reflexivity).
    destruct (decoded Unmarshal (reply Do u env)) as [e|r].
    + now inversion H; subst.
    + destruct (no_items r); [now inversion H; subst|].
      destruct (range_items _ _ _ _ _) as [[r1 a1] env1] eqn:E.
      apply (range_items_asks _ (fun p a0 e0 r0 a0' e0' Hp => IH p 0 a0 e0 r0 a0' e0' Hp H0)) in E;
        [|exact Hu].
      destruct r1 as [[e|]|m|]; try (now inversion H; subst).
      eapply IH; [exact H| |].
      * destruct Ho as (k & ->). exists (S k). unfold add64.
        rewrite wrap64_add_l. f_equal. lia.
      * unfold Sleep, log. simpl. apply Forall_app.
        split; [exact E | repeat constructor].
Qed.

(** *** Panics *)

Lemma range_items_no_panic
      (descend : string -> Walk -> Env World
                 -> result (option error) * Walk * Env World) :
  (forall p a env m, fst (fst (descend p a env)) <> Panicked m) ->
  forall l a env m,
    Forall complete l ->
    fst (fst (range_items cb descend l a env)) <> Panicked m.
Proof.
  intros Hd. induction l as [|i l IH]; intros a env m Hc; simpl.
  - discriminate.
  - inversion Hc as [|? ? Hi Hl]; subst.
    destruct (rType i =? FILE)%string eqn:Ty.
    + apply String.eqb_eq in Ty. specialize (Hi Ty).
      destruct (file_result i) as [f|]; [now apply IH | now destruct Hi].
    + destruct (rType i =? DIR)%string; [|now apply IH].
      specialize (Hd (rPath i) a env m).
      destruct (descend (rPath i) a env) as [[r1 a1] env1]. simpl in Hd.
      destruct r1 as [[e|]|m1|]; simpl; try discriminate; auto.
Qed.

Lemma getTree_no_panic (fuel : nat) :
  complete_pages Unmarshal ->
  forall path offset a env m,
    fst (fst (getTree Do Unmarshal c link cb fuel path offset a env))
    <> Panicked m.
Proof.
  intros Hc. induction fuel as [|fuel IH]; intros path offset a env m.
  - discriminate.
  - rewrite getTree_step. cbv zeta.
    destruct (decoded Unmarshal _) as [e|r] eqn:D; [discriminate|].
    destruct (no_items r); [discriminate|].
    destruct (decoded_Unmarshal _ _ _ D) as (b & Hb).
    pose proof (range_items_no_panic
                  (fun p => getTree Do Unmarshal c link cb fuel p 0)
                  (fun p => IH p 0) (items r) a
                  (after Do (Listing (mkQuery path (Limit c) offset link)) env)
                  m (Hc b r Hb)) as Hr.
    destruct (range_items _ _ _ _ _) as [[r1 a1] env1]. simpl in Hr.
    destruct r1 as [[e|]|m1|]; simpl; try discriminate; auto.
Qed.

(** *** The slice of results *)

Lemma range_items_files
      (descend : string -> Walk -> Env World
                 -> result (option error) * Walk * Env World) :
  (forall p a env,
      files a <> None -> files (snd (fst (descend p a env))) <> None) ->
  forall l a env,
    files a <> None ->
    files (snd (fst (range_items cb descend l a env))) <> None.
Proof.
  intros Hd. induction l as [|i l IH]; intros a env Ha; simpl.
  - exact Ha.
  - destruct (rType i =? FILE)%string.
    + destruct (file_result i) as [f|]; [|exact Ha].
      apply IH. discriminate.
    + destruct (rType i =? DIR)%string; [|now apply IH].
      specialize (Hd (rPath i) a env Ha).
      destruct (descend (rPath i) a env) as [[r1 a1] env1]. simpl in Hd.
      destruct r1 as [[e|]|m1|]; simpl; auto.
Qed.

Lemma getTree_files (fuel : nat) :
  forall path offset a env,
    files a <> None ->
    files (snd (fst (getTree Do Unmarshal c link cb fuel path offset a env)))
    <> None.
Proof.
  induction fuel as [|fuel IH]; intros path offset a env Ha.
  - exact Ha.
  - rewrite getTree_step. cbv zeta.
    destruct (decoded Unmarshal _) as [e|r]; [exact Ha|].
    destruct (no_items r); [exact Ha|].
    pose proof (range_items_files
                  (fun p => getTree Do Unmarshal c link cb fuel p 0)
                  (fun p => IH p 0) (items r) a
                  (after Do (Listing (mkQuery path (Limit c) offset link)) env)
                  Ha) as Hr.
    destruct (range_items _ _ _ _ _) as [[r1 a1] env1]. simpl in Hr.
    destruct r1 as [[e|]|m1|]; simpl; auto.
Qed.

End Walks.

Section Results.

Variable World : Type.
Variable Do : URL -> World -> exchange * World.
Variable Unmarshal : list byte -> error + response.
Variable c : Config.

Lemma GetTree_trace_asks
      (link path : string) (cb : list GetTreeCallback) (fuel : nat)
      (w : World) :
  Forall (asks_listing c link)
         (trace (snd (GetTree Do Unmarshal c link path cb fuel w))).
Proof.
  unfold GetTree, GetTree_walk. destruct (Limit c <? 0); [constructor|].
  destruct (getTree _ _ _ _ _ _ _ _ _ _) as [[r a] env] eqn:E.
  assert (H : Forall (asks_listing c link) (trace env)).
  { eapply getTree_asks; [exact E | exists 0%nat; reflexivity | constructor]. }
  destruct r as [[e|]|m|]; exact H.
Qed.

(** X7. Every result [GetTree] returns is what a file entry of a page it
    fetched turns into: the entry has type file and the result carries its
    name, path, size, URL, hashes and dates.  No directory entry and nothing
    of the walk's own making is ever among the results. *)
Theorem GetTree_results_from_entries
        (link path : string) (cb : list GetTreeCallback) (fuel : nat)
        (w : World) :
  match GetTree Do Unmarshal c link path cb fuel w with
  | (Returned (fs, _), env) =>
      Forall (from_file_entry Unmarshal (trace env)) (elems fs)
  | _ => True
  end.
Proof.
  unfold GetTree, GetTree_walk. destruct (Limit c <? 0); [exact I|].
  destruct (getTree _ _ _ _ _ _ _ _ _ _) as [[r a] env] eqn:E.
  destruct (getTree_sound _ _ _ _ _ _ _ _ _ _ _ _ _ _ E) as [_ Hs].
  destruct r as [[e|]|m|]; try exact I; [constructor|].
  apply Hs. constructor.
Qed.

(** X8. Every request [GetTree] makes is a listing request that carries
    the configured limit, the caller's link and an offset that is a multiple
    of the limit (in [int64] arithmetic; so offset 0 throughout when the
    limit is 0).  It never asks for a download URL. *)
Theorem GetTree_requests
        (link path : string) (cb : list GetTreeCallback) (fuel : nat)
        (w : World) :
  Forall (asks_listing c link)
         (trace (snd (GetTree Do Unmarshal c link path cb fuel w))).
Proof. apply GetTree_trace_asks. Qed.

(** X9. When [Limit] is not negative and every file entry the server
    sends carries its size, download URL and both hashes, [GetTree] never
    panics, whatever else the responses hold. *)
Theorem GetTree_no_panic_on_complete_entries
        (link path : string) (cb : list GetTreeCallback) (fuel : nat)
        (w : World) (m : string) :
  0 <= Limit c ->
  complete_pages Unmarshal ->
  fst (GetTree Do Unmarshal c link path cb fuel w) <> Panicked m.
Proof.
  intros Hl Hc. unfold GetTree, GetTree_walk.
  destruct (Limit c <? 0) eqn:L; [apply Z.ltb_lt in L; lia|].
  pose proof (getTree_no_panic World Do Unmarshal c link (first_callback cb)
                fuel Hc (root_if_empty path) 0 (mkWalk (Some []) 0 0)
                (mkEnv w []) m) as H.
  destruct (getTree _ _ _ _ _ _ _ _ _ _) as [[r a] env]. simpl in H.
  destruct r as [[e|]|m1|]; simpl; try (intros D; discriminate D).
  intros D. apply H. now inversion D.
Qed.

(** X10. What [GetTree] returns and what happened on the wire: an error is
    returned only when the last fetch failed (at request or at decoding),
    it is that fetch's error, and the slice is nil; when no error is
    returned, no fetch failed and the slice is not nil, even if empty. *)
Theorem GetTree_error_source
        (link path : string) (cb : list GetTreeCallback) (fuel : nat)
        (w : World) :
  match GetTree Do Unmarshal c link path cb fuel w with
  | (Returned (fs, Some e), env) =>
      fs = None /\
      exists tr u x,
        trace env = tr ++ [EvDo u x] /\ decoded Unmarshal x = inl e
  | (Returned (fs, None), env) =>
      fs <> None /\ failed_fetches Unmarshal env = 0%nat
  | _ => True
  end.
Proof.
  unfold GetTree, GetTree_walk. destruct (Limit c <? 0); [exact I|].
  pose proof (getTree_files World Do Unmarshal c link (first_callback cb)
                fuel (root_if_empty path) 0 (mkWalk (Some []) 0 0)
                (mkEnv w []) ltac:(discriminate)) as Hf.
  destruct (getTree _ _ _ _ _ _ _ _ _ _) as [[r a] env] eqn:E.
  simpl in Hf. destruct r as [[e|]|m|]; try exact I.
  - split; [reflexivity|]. eapply getTree_error_last. exact E.
  - split; [exact Hf|].
    pose proof (getTree_failures _ _ _ _ _ _ _ _ _ _ _ _ _ _ E) as Hn.
    unfold failed_fetches in *. simpl in Hn. exact Hn.
Qed.

(** X11. The items of a page whose type is neither file nor dir are
    skipped: ranging over a page gives the same as ranging over the page
    without them. *)
Theorem range_items_skips_unknown
        (cb : GetTreeCallback)
        (descend : string -> Walk -> Env World
                   -> result (option error) * Walk * Env World)
        (l : list response) (a : Walk) (env : Env World) :
  range_items cb descend (filter known_type l) a env
  = range_items cb descend l a env.
Proof.
  revert a env. induction l as [|i l IH]; intros a env; [reflexivity|].
  unfold known_type in *. simpl.
  destruct (rType i =? FILE)%string eqn:Tf; simpl.
  - rewrite Tf. destruct (file_result i); auto.
  - destruct (rType i =? DIR)%string eqn:Td; simpl.
    + rewrite Tf, Td. destruct (descend (rPath i) a env) as [[r1 a1] env1].
      destruct r1 as [[e|]|m|]; auto.
    + apply IH.
Qed.

(** *** The first revision *)

Lemma merge_not_empty (fs sub : slice diskFile) :
  fs <> Some [] -> merge fs sub <> Some [].
Proof.
  destruct sub as [l|]; simpl; [|auto]. revert fs.
  induction l as [|f l IH]; intros fs Hfs; simpl; [exact Hfs|].
  apply IH. unfold append. intros H. inversion H as [H1].
  now destruct (elems fs).
Qed.

Lemma range_items_v1_not_empty
      (descend : string -> Env World
                 -> result (slice diskFile * option error) * Env World) :
  (forall p env fs, fst (descend p env) = Returned (fs, None) ->
                    fs <> Some []) ->
  forall l fs env fs',
    fs <> Some [] ->
    fst (range_items_v1 descend l fs env) = Returned (fs', None) ->
    fs' <> Some [].
Proof.
  intros Hd. induction l as [|i l IH]; intros fs env fs' Hfs H; simpl in H.
  - now inversion H; subst.
  - destruct (rType i =? FILE)%string.
    + destruct (file_result i) as [f|]; [|discriminate].
      eapply IH; [|exact H]. unfold append. intros E. inversion E as [E1].
      now destruct (elems fs).
    + destruct (rType i =? DIR)%string; [|eauto].
      specialize (Hd (rPath i) env).
      destruct (descend (rPath i) env) as [r1 env1]. simpl in Hd.
      destruct r1 as [[sub [e|]]|m|]; try discriminate.
      eapply IH; [|exact H]. apply merge_not_empty, Hfs.
Qed.

Lemma GetTree_v1_loop_not_empty (link : string) (fuel : nat) :
  forall path offset fs env fs',
    fs <> Some [] ->
    fst (GetTree_v1_loop Do Unmarshal c link fuel path offset fs env)
    = Returned (fs', None) ->
    fs' <> Some [].
Proof.
  induction fuel as [|fuel IH]; intros path offset fs env fs' Hfs H.
  - discriminate.
  - rewrite GetTree_v1_step in H. cbv zeta in H.
    destruct (decoded Unmarshal _) as [e|r]; [discriminate|].
    destruct (no_items r); [now inversion H; subst|].
    pose proof (range_items_v1_not_empty
                  (fun p => GetTree_v1_loop Do Unmarshal c link fuel
                                            (root_if_empty p) 0 None)
                  (fun p e0 fs0 => IH (root_if_empty p) 0 None e0 fs0
                                      ltac:(discriminate))
                  (items r) fs
                  (after Do (Listing (mkQuery path (Limit c) offset link)) env))
      as Hr.
    destruct (range_items_v1 _ _ _ _) as [r1 env1]. simpl in Hr.
    destruct r1 as [[fs2 [e|]]|m|]; try discriminate.
    eapply IH; [|exact H]. now apply Hr.
Qed.

(** X12. When the first revision of [GetTree] returns no error, the slice
    it returns is nil exactly when no file was found: it never returns an
    empty slice that is not nil (the second revision always does, see
    X10). *)
Theorem GetTree_v1_nil_when_empty
        (link path : string) (fuel : nat) (w : World) :
  match GetTree_v1 Do Unmarshal c link path fuel w with
  | (Returned (fs, None), _) => fs = None <-> elems fs = []
  | _ => True
  end.
Proof.
  unfold GetTree_v1.
  pose proof (GetTree_v1_loop_not_empty link fuel (root_if_empty path) 0
                None (mkEnv w [])) as H.
  destruct (GetTree_v1_loop _ _ _ _ _ _ _ _ _) as [r env]. simpl in H.
  destruct r as [[fs [e|]]|m|]; try exact I.
  specialize (H fs ltac:(discriminate) eq_refl).
  destruct fs as [[|f l]|]; simpl; split; try discriminate; auto.
  intros _. now destruct H.
Qed.

End Results.

(** ** yadloader.go: [getTree] *)

Section ScriptTree.

Variable World : Type.
Variable Do : URL -> World -> exchange * World.
Variable Unmarshal : list byte -> error + response.
Variable Close : Reader -> option error.
Variable c : Config.
Variable link : string.

Lemma Script_request_closed (u : URL) (env : Env World) :
  (forall rd, Close rd = None) ->
  Script.request World Do Close u env
  = (Script.Done (fst (request Do u env)), snd (request Do u env)).
Proof.
  intros Hclose. unfold Script.request, request.
  destruct (send Do u env) as [x env1].
  destruct x as [e|e|status body]; try reflexivity.
  rewrite Hclose. destruct (ReadAll body) as [b [e|]]; reflexivity.
Qed.

Lemma Script_request_fatal (u : URL) (env : Env World)
      (status : Z) (body : Reader) (e : error) :
  reply Do u env = Response status body ->
  Close body = Some e ->
  Script.request World Do Close u env = (Script.Fatal e, after Do u env).
Proof.
  unfold after, reply, Script.request, send. intros Hx Hclose.
  destruct (Do u (world env)) as [x w1]. simpl in Hx. subst x.
  simpl. rewrite Hclose. reflexivity.
Qed.

Lemma Script_range_items_of_result
      (d1 : string -> Env World
            -> Script.ending (slice diskFile * option error) * Env World)
      (d2 : string -> Env World
            -> result (slice diskFile * option error) * Env World) :
  (forall p env,
      d1 p env = (Script.of_result (fst (d2 p env)), snd (d2 p env))) ->
  forall l fs env,
    Script.range_items World d1 l fs env
    = (Script.of_result (fst (range_items_v1 d2 l fs env)),
       snd (range_items_v1 d2 l fs env)).
Proof.
  intros Hd. induction l as [|i l IH]; intros fs env; simpl.
  - reflexivity.
  - destruct (rType i =? FILE)%string.
    + destruct (file_result i); auto.
    + destruct (rType i =? DIR)%string; [|auto].
      rewrite Hd. destruct (d2 (rPath i) env) as [r1 env1].
      destruct r1 as [[sub [e|]]|m|]; simpl; auto.
Qed.

Lemma Script_getTree_loop_closed :
  (forall rd, Close rd = None) ->
  Limit c = Script.LIMIT ->
  Timeout c = Script.TIMEOUT * Second ->
  forall fuel path offset fs env,
    Script.getTree_loop World Do Unmarshal Close link fuel path offset fs env
    = (Script.of_result
         (fst (GetTree_v1_loop Do Unmarshal c link fuel path offset fs env)),
       snd (GetTree_v1_loop Do Unmarshal c link fuel path offset fs env)).
Proof.
  intros Hclose Hl Ht.
  induction fuel as [|fuel IH]; intros path offset fs env.
  - reflexivity.
  - cbn [Script.getTree_loop GetTree_v1_loop]. rewrite Hl, Ht.
    rewrite Script_request_closed by exact Hclose.
    destruct (request Do _ env) as [[resp [e|]] env1];
      cbn [fst snd]; [reflexivity|].
    destruct (Unmarshal resp) as [e|r]; [reflexivity|].
    destruct (no_items r); [reflexivity|].
    rewrite (Script_range_items_of_result _
               (fun p => GetTree_v1_loop Do Unmarshal c link fuel
                                         (root_if_empty p) 0 None))
      by (intros; apply IH).
    destruct (range_items_v1 _ _ _ _) as [r1 env2].
    destruct r1 as [[fs2 [e|]]|m|]; cbn [fst snd Script.of_result]; auto.
Qed.

End ScriptTree.

(** X13. As long as closing a response body never fails, [getTree] of
    yadloader.go ends as the first revision of the client's [GetTree] does
    when run with a limit of 100 and a pause of 10 seconds (the default
    configuration): same requests, same pauses, same result, panic or
    exhaustion.  They part where closing fails, which the client ignores:
    when the body of the first response does not close, [getTree] ends the
    program with [log.Fatal] after that one request, whatever the response
    held. *)
Theorem Script_getTree_is_GetTree
        (World : Type) (Do : URL -> World -> exchange * World)
        (Unmarshal : list byte -> error + response)
        (Close : Reader -> option error) (c : Config)
        (link path : string) (fuel : nat) (w : World) :
  Limit c = Script.LIMIT ->
  Timeout c = Script.TIMEOUT * Second ->
  ((forall rd, Close rd = None) ->
   Script.getTree World Do Unmarshal Close link path fuel w
   = (Script.of_result (fst (GetTree_v1 Do Unmarshal c link path fuel w)),
      snd (GetTree_v1 Do Unmarshal c link path fuel w))) /\
  (forall (status : Z) (body : Reader) (e : error),
      let first := Listing (mkQuery (root_if_empty path) Script.LIMIT 0 link) in
      reply Do first (mkEnv w []) = Response status body ->
      Close body = Some e ->
      Script.getTree World Do Unmarshal Close link path (S fuel) w
      = (Script.Fatal e, after Do first (mkEnv w []))).
Proof.
  intros Hl Ht. split.
  - intros Hclose. unfold Script.getTree, GetTree_v1.
    now apply Script_getTree_loop_closed.
  - intros status body e first Hx Hclose.
    unfold Script.getTree. cbn [Script.getTree_loop]. fold first.
    now rewrite (Script_request_fatal _ Do Close first _ status body e Hx Hclose).
Qed.

(** ** Where a downloaded file goes *)

Lemma string_length_append (s1 s2 : string) :
  String.length (s1 ++ s2)%string = (String.length s1 + String.length s2)%nat.
Proof. induction s1 as [|a s1 IH]; simpl; [reflexivity | now rewrite IH]. Qed.

Lemma substring_whole (s : string) : substring 0 (String.length s) s = s.
Proof. induction s as [|a s IH]; simpl; [reflexivity | now rewrite IH]. Qed.

Lemma substring_prefix (s1 s2 : string) :
  substring 0 (String.length s1) (s1 ++ s2)%string = s1.
Proof.
  induction s1 as [|a s1 IH]; simpl; [now destruct s2 | now rewrite IH].
Qed.

Lemma substring_suffix (s1 s2 : string) :
  substring (String.length s1) (String.length s2) (s1 ++ s2)%string = s2.
Proof.
  induction s1 as [|a s1 IH]; simpl; [apply substring_whole | exact IH].
Qed.

Lemma TrimSuffix_append (dir name : string) :
  TrimSuffix (dir ++ name)%string name = dir.
Proof.
  unfold TrimSuffix, HasSuffix. rewrite string_length_append.
  replace (String.length dir + String.length name - String.length name)%nat
    with (String.length dir) by lia.
  rewrite substring_suffix, String.eqb_refl, substring_prefix.
  replace (String.length name <=? String.length dir + String.length name)%nat
    with true by (symmetry; apply Nat.leb_le; lia).
  reflexivity.
Qed.

(** X14. The command-line program puts a file whose remote path ends with
    its name, [dir ++ name], at [output/dir/name]: the name is cut off the
    path, the rest is joined to the output folder, and the name is joined to
    that. *)
Theorem Cli_destination
        (Join : string -> string -> string) (output dir : string)
        (file : diskFile) :
  Path file = (dir ++ Name file)%string ->
  Cli.destination Join output file = Join (Join output dir) (Name file).
Proof.
  intros H. unfold Cli.destination. now rewrite H, TrimSuffix_append.
Qed.

(** ** The callers' loops *)

Lemma downloads_app (t1 t2 : list event) :
  downloads (t1 ++ t2) = downloads t1 ++ downloads t2.
Proof.
  induction t1 as [|e t1 IH]; [reflexivity|]. simpl.
  destruct e as [[q|u] x|d|id n t]; simpl; now rewrite IH.
Qed.

Lemma downloads_after {World : Type}
      (Do : URL -> World -> exchange * World) (u : string) (env : Env World) :
  downloads (trace (after Do (Direct u) env)) = downloads (trace env) ++ [u].
Proof. unfold after. simpl. now rewrite downloads_app. Qed.

Lemma downloads_asks (c : Config) (link : string) (tr : list event) :
  Forall (asks_listing c link) tr -> downloads tr = [].
Proof.
  induction 1 as [|e tr He _ IH]; [reflexivity|].
  destruct e as [[q|u] x|d|id n t]; simpl; auto. contradiction.
Qed.

Lemma DownloadFile_after {World : Type}
      (Do : URL -> World -> exchange * World) (c : Config)
      (file : diskFile) (writer : Sink) (env : Env World) :
  snd (DownloadFile Do c file writer env) = after Do (Direct (File file)) env.
Proof.
  unfold DownloadFile, send, after, reply.
  destruct (Do (Direct (File file)) (world env)) as [x w']. cbn [fst snd].
  destruct x as [e|e|status body]; try reflexivity.
  destruct (ChunkSize c <? 0); [reflexivity|].
  now destruct (CopyBuffer _ _ _).
Qed.

Lemma read_write_loop_returns (fuel : nat) :
  forall rd dst,
    (read_budget rd <= fuel)%nat ->
    exists oe, fst (read_write_loop fuel rd dst) = Returned oe.
Proof.
  induction fuel as [|fuel IH]; intros rd dst Hb.
  - unfold read_budget in Hb. lia.
  - cbn [read_write_loop].
    destruct (Read rd (Z.to_nat CHUNKSIZE)) as [[chunk er] rd'] eqn:R.
    destruct (Read_step _ _ _ _ _ R) as (_ & _ & _ & Her).
    destruct er as [| |e]; [|simpl; eauto..].
    assert (Hpos : (0 < Z.to_nat CHUNKSIZE)%nat) by (unfold CHUNKSIZE; lia).
    specialize (Her Hpos).
    destruct (Write dst chunk) as [[nw ew] dst'].
    destruct ew as [e|]; [simpl; eauto|]. apply IH. lia.
Qed.

Section Callers.

Variable World : Type.
Variable Do : URL -> World -> exchange * World.
Variable Unmarshal : list byte -> error + response.
Variable c : Config.
Variable OS : Type.
Variable Stat : string -> OS -> stat.
Variable MkdirAll : string -> Z -> OS -> option error * OS.
Variable Create : string -> OS -> (error + Sink) * OS.
Variable Join : string -> string -> string.

(** *** The loop of [main] *)

Lemma Cli_fetch_steps (output : string) (file : diskFile)
      (m : Machine World OS) :
  exists asked : bool,
    downloads (trace (net (snd (Cli.fetch World Do c OS Stat MkdirAll Create
                                          Join output file m))))
    = downloads (trace (net m)) ++ (if asked then [File file] else []) /\
    (fst (Cli.fetch World Do c OS Stat MkdirAll Create Join output file m)
     = None ->
     asked = true /\
     map fst (stored (snd (Cli.fetch World Do c OS Stat MkdirAll Create Join
                                     output file m)))
     = map fst (stored m) ++ [Cli.destination Join output file] /\
     logged (snd (Cli.fetch World Do c OS Stat MkdirAll Create Join
                            output file m))
     = logged m).
Proof.
  unfold Cli.fetch, Cli.destination, Cli.Fatal.
  destruct (Cli.makeFolder OS Stat MkdirAll _ _ _) as [[e|] d].
  - exists false. simpl. rewrite app_nil_r. split; [reflexivity|discriminate].
  - destruct (Create _ d) as [[e|f] d'].
    + exists false. simpl. rewrite app_nil_r.
      split; [reflexivity|discriminate].
    + pose proof (DownloadFile_after Do c file f (net m)) as Ha.
      destruct (DownloadFile Do c file f (net m)) as [[res f'] env'].
      simpl in Ha. subst env'. exists true.
      destruct res as [[e|]| |]; cbn [fst snd net stored logged];
        rewrite downloads_after; (split; [reflexivity|]); try discriminate.
      intros _. rewrite map_app. auto.
Qed.

Lemma Cli_range_files_steps
        (output : string) (files : list diskFile) (m : Machine World OS) :
  exists k,
    (k <= length files)%nat /\
    downloads (trace (net (snd (Cli.range_files World Do c OS Stat MkdirAll
                                                Create Join output files m))))
    = downloads (trace (net m)) ++ map File (firstn k files) /\
    (fst (Cli.range_files World Do c OS Stat MkdirAll Create Join output
                          files m) = None ->
     k = length files /\
     map fst (stored (snd (Cli.range_files World Do c OS Stat MkdirAll Create
                                           Join output files m)))
     = map fst (stored m) ++ map (Cli.destination Join output) files /\
     logged (snd (Cli.range_files World Do c OS Stat MkdirAll Create Join
                                  output files m))
     = logged m).
Proof.
  revert m. induction files as [|file rest IH]; intros m.
  - exists 0%nat. simpl. rewrite !app_nil_r. auto.
  - cbn [Cli.range_files].
    destruct (Cli_fetch_steps output file m) as (asked & Hd & Hok).
    destruct (Cli.fetch World Do c OS Stat MkdirAll Create Join output file m)
      as [[x|] m1]; cbn [fst snd] in *.
    + exists (if asked then 1%nat else 0%nat).
      split; [destruct asked; simpl; lia|].
      split; [rewrite Hd; now destruct asked | discriminate].
    + destruct (Hok eq_refl) as (-> & Hs & Hl).
      destruct (IH m1) as (k & Hk & Hdk & Hokk).
      exists (S k). split; [simpl; lia|]. split.
      * rewrite Hdk, Hd. simpl. now rewrite <- app_assoc.
      * intros Hn. destruct (Hokk Hn) as (-> & Hs' & Hl').
        split; [reflexivity|]. rewrite Hs', Hs, Hl', Hl. simpl.
        now rewrite <- app_assoc.
Qed.

(** X15. The loop of [main] asks for the files' URLs in the order of the
    list and never for anything else: what it has asked for when it ends is
    a prefix of them.  It ends normally only when it has asked for every
    file; then one file per result has been created, each at its
    destination, and nothing was logged. *)
Theorem Cli_range_files_in_order
        (output : string) (files : list diskFile) (m : Machine World OS) :
  exists k,
    (k <= length files)%nat /\
    downloads (trace (net (snd (Cli.range_files World Do c OS Stat MkdirAll
                                                Create Join output files m))))
    = downloads (trace (net m)) ++ map File (firstn k files) /\
    (fst (Cli.range_files World Do c OS Stat MkdirAll Create Join output
                          files m) = None ->
     k = length files /\
     map fst (stored (snd (Cli.range_files World Do c OS Stat MkdirAll Create
                                           Join output files m)))
     = map fst (stored m) ++ map (Cli.destination Join output) files /\
     logged (snd (Cli.range_files World Do c OS Stat MkdirAll Create Join
                                  output files m))
     = logged m).
Proof. apply Cli_range_files_steps. Qed.


(** *** [downloadFiles] of yadloader.go *)

Lemma Script_downloadFile_returns (url output : string)
      (m : Machine World OS) :
  (exists oe,
      fst (Script.downloadFile World Do OS Create url output m)
      = Returned oe) /\
  downloads (trace (net (snd (Script.downloadFile World Do OS Create url
                                                  output m))))
  = downloads (trace (net m)) ++ [url].
Proof.
  unfold Script.downloadFile, send.
  pose proof (downloads_after Do url (net m)) as Ha.
  unfold after, reply in Ha.
  destruct (Do (Direct url) (world (net m))) as [x w']. cbn [fst snd] in Ha.
  cbn [trace] in Ha.
  destruct x as [e|e|status body];
    try (cbn [fst snd net trace]; split; [eauto | exact Ha]).
  destruct (negb (status =? StatusOK));
    [cbn [fst snd net trace]; split; [eauto | exact Ha]|].
  destruct (Create output (disk m)) as [[e|outFile] d];
    [cbn [fst snd net trace]; split; [eauto | exact Ha]|].
  destruct (read_write_loop_returns _ body outFile (Nat.le_refl _))
    as (oe & Hoe).
  destruct (read_write_loop _ _ _) as [res outFile']. simpl in Hoe.
  subst res. cbn [fst snd net trace]. split; [eauto | exact Ha].
Qed.

Lemma Script_range_files_all (output : string) :
  (forall p perm d, fst (MkdirAll p perm d) = None) ->
  forall files m,
  exists m',
    Script.range_files World Do OS Stat MkdirAll Create Join output files m
    = (Returned None, m') /\
    downloads (trace (net m'))
    = downloads (trace (net m)) ++ map File files.
Proof.
  intros Hmk fs. induction fs as [|file rest IH]; intros m.
  - exists m. simpl. now rewrite app_nil_r.
  - cbn [Script.range_files]. cbv zeta.
    set (folder := Join output (TrimSuffix (Path file) (Name file))).
    assert (Hd : exists d,
               match Stat folder (disk m) with
               | NotExist => MkdirAll folder rwxr_xr_x (disk m)
               | _ => (None, disk m)
               end = (None, d)).
    { destruct (Stat folder (disk m)); eauto.
      specialize (Hmk folder rwxr_xr_x (disk m)).
      destruct (MkdirAll folder rwxr_xr_x (disk m)) as [oe d].
      simpl in Hmk. subst oe. eauto. }
    destruct Hd as (d & ->).
    set (m0 := mkMachine (net m) d (stored m) (logged m)).
    destruct (Script_downloadFile_returns (File file)
                (Join folder (Name file)) m0) as ((oe & Hoe) & Hdl).
    destruct (Script.downloadFile World Do OS Create (File file) _ m0)
      as [res m1]. simpl in Hoe, Hdl. subst res.
    destruct oe as [e|].
    + destruct (IH (mkMachine (net m1) (disk m1) (stored m1)
                      (logged m1
                       ++ [("error downloading file: " ++ Name file ++ ", "
                            ++ e)%string]))) as (m' & E & Hd').
      exists m'. split; [exact E|]. rewrite Hd'. simpl.
      rewrite Hdl. simpl. now rewrite <- app_assoc.
    + destruct (IH m1) as (m' & E & Hd').
      exists m'. split; [exact E|]. rewrite Hd', Hdl. simpl.
      now rewrite <- app_assoc.
Qed.

(** X17. [downloadFiles] of yadloader.go on a disk where folders can be
    made: whatever the downloads do (a request that fails, a status other
    than 200, a file that cannot be created, a body that breaks off), it
    goes on to the next file, asks for every file's URL in order, and
    returns no error. *)
Theorem Script_downloadFiles_goes_on
        (files : list diskFile) (output : string) (m : Machine World OS) :
  (forall p perm d, fst (MkdirAll p perm d) = None) ->
  (forall e, Stat output (disk m) <> StatError e) ->
  exists m',
    Script.downloadFiles World Do OS Stat MkdirAll Create Join files output m
    = (Returned None, m') /\
    downloads (trace (net m'))
    = downloads (trace (net m)) ++ map File files.
Proof.
  intros Hmk Hst. unfold Script.downloadFiles.
  destruct (Stat output (disk m)) as [| |e].
  - now apply Script_range_files_all.
  - pose proof (Hmk output rwxr_xr_x (disk m)) as H.
    destruct (MkdirAll output rwxr_xr_x (disk m)) as [oe d]. simpl in H.
    subst oe.
    apply (Script_range_files_all output Hmk files
             (mkMachine (net m) d (stored m) (logged m))).
  - now destruct (Hst e).
Qed.

(** X18. Without an output folder, [main] only lists: it makes no download
    request and touches no file or folder.  When [GetTree] returns the
    files, it logs one line per file, path and URL, and exits with code 0;
    when [GetTree] returns an error, it logs the error and exits with
    code 1. *)
Theorem Cli_main_lists_only
        (args : Cli.Args) (fuel : nat) (w : World) (d : OS) :
  Cli.aFolder args = "" ->
  downloads (trace (net (snd (Cli.main World Do Unmarshal c OS Stat MkdirAll
                                       Create Join args fuel w d)))) = [] /\
  disk (snd (Cli.main World Do Unmarshal c OS Stat MkdirAll Create Join
                      args fuel w d)) = d /\
  stored (snd (Cli.main World Do Unmarshal c OS Stat MkdirAll Create Join
                        args fuel w d)) = [] /\
  match fst (GetTree Do Unmarshal c (Cli.aLink args) (Cli.aPath args) []
                     fuel w) with
  | Returned (fs, None) =>
      fst (Cli.main World Do Unmarshal c OS Stat MkdirAll Create Join
                    args fuel w d) = Exit 0 /\
      logged (snd (Cli.main World Do Unmarshal c OS Stat MkdirAll Create Join
                            args fuel w d))
      = map Cli.listing_line (elems fs)
  | Returned (_, Some e) =>
      fst (Cli.main World Do Unmarshal c OS Stat MkdirAll Create Join
                    args fuel w d) = Exit 1 /\
      logged (snd (Cli.main World Do Unmarshal c OS Stat MkdirAll Create Join
                            args fuel w d)) = [e]
  | Panicked msg =>
      fst (Cli.main World Do Unmarshal c OS Stat MkdirAll Create Join
                    args fuel w d) = Crash msg
  | OutOfFuel =>
      fst (Cli.main World Do Unmarshal c OS Stat MkdirAll Create Join
                    args fuel w d) = Running
  end.
Proof.
  intros Hf. unfold Cli.main, Cli.Fatal.
  pose proof (downloads_asks _ _ _
                (GetTree_trace_asks World Do Unmarshal c (Cli.aLink args)
                                    (Cli.aPath args) [] fuel w)) as Hd.
  destruct (GetTree Do Unmarshal c (Cli.aLink args) (Cli.aPath args) []
                    fuel w) as [res env]. simpl in Hd.
  destruct res as [[fs [e|]]|msg|]; simpl; auto.
  rewrite Hf. simpl. auto.
Qed.

(** *** [main] from end to end *)

Lemma Cli_fetch_goes_on (output : string) (file : diskFile)
      (m : Machine World OS) :
  0 < ChunkSize c ->
  (forall u w, exists status body,
      fst (Do (Direct u) w) = Response status body /\ ending body = None) ->
  (forall p perm d, fst (MkdirAll p perm d) = None) ->
  (forall p d e, Stat p d <> StatError e) ->
  (forall p d, exists s, fst (Create p d) = inr s /\ room s = None) ->
  fst (Cli.fetch World Do c OS Stat MkdirAll Create Join output file m) = None.
Proof.
  intros Hc Hdl Hmk Hst Hcr. unfold Cli.fetch, Cli.makeFolder.
  set (folder := Join output (TrimSuffix (Path file) (Name file))).
  assert (Hd : exists d,
             match Stat folder (disk m) with
             | Exists => (None, disk m)
             | NotExist =>
                 MkdirAll folder
                          (if rwxr_xr_x =? 0 then rwxr_xr_x else rwxr_xr_x)
                          (disk m)
             | StatError e => (Some e, disk m)
             end = (None, d)).
  { pose proof (Hst folder (disk m)) as Hs.
    destruct (Stat folder (disk m)) as [| |e]; [eauto| |now destruct (Hs e)].
    pose proof (Hmk folder (if rwxr_xr_x =? 0 then rwxr_xr_x else rwxr_xr_x)
                    (disk m)) as H.
    destruct (MkdirAll folder _ (disk m)) as [oe d]. simpl in H. subst oe.
    eauto. }
  destruct Hd as (d & ->).
  destruct (Hcr (Join folder (Name file)) d) as (s & Hs & Hroom).
  destruct (Create (Join folder (Name file)) d) as [cr d']. simpl in Hs.
  subst cr.
  destruct (Hdl (File file) (world (net m))) as (status & body & Hx & He).
  rewrite (DownloadFile_response World Do c file s (net m) status body Hx).
  destruct (ChunkSize c <? 0) eqn:L; [apply Z.ltb_lt in L; lia|].
  unfold CopyBuffer. destruct (Z.to_nat (ChunkSize c)) as [|n] eqn:N; [lia|].
  rewrite copy_loop_unbounded by (auto; lia). now rewrite He.
Qed.

Lemma Cli_range_files_goes_on (output : string) :
  0 < ChunkSize c ->
  (forall u w, exists status body,
      fst (Do (Direct u) w) = Response status body /\ ending body = None) ->
  (forall p perm d, fst (MkdirAll p perm d) = None) ->
  (forall p d e, Stat p d <> StatError e) ->
  (forall p d, exists s, fst (Create p d) = inr s /\ room s = None) ->
  forall fs m,
    fst (Cli.range_files World Do c OS Stat MkdirAll Create Join output fs m)
    = None.
Proof.
  intros Hc Hdl Hmk Hst Hcr fs. induction fs as [|file rest IH]; intros m.
  - reflexivity.
  - cbn [Cli.range_files].
    pose proof (Cli_fetch_goes_on output file m Hc Hdl Hmk Hst Hcr) as H.
    destruct (Cli.fetch World Do c OS Stat MkdirAll Create Join output file m)
      as [[x|] m1]; [discriminate H | apply IH].
Qed.

(** X19. [main] from end to end, on a server that pages by the limit.  The
    server answers the [k]-th listing request for each directory of a tree
    under the starting path, the request with offset [k * Limit], with page
    [k] of a cut of the directory's listing into non-empty pages, and any
    later request with no items; the offsets asked for fit in [int64].  It
    answers every download with a body that ends with EOF; folders can be
    made and files created without bound; the limit and the chunk size are
    positive and an output folder is given.  Then, given enough fuel, [main]
    exits with code 0 and logs nothing, having asked for the download URL of
    every file of the tree, depth first, and created one file per result at
    its destination under the output folder.  (A server that counts offsets
    in entries and sends pages shorter than the limit is not such a server:
    the walk skips entries there.) *)
Theorem Cli_main_mirrors_tree
        (args : Cli.Args) (w : World) (d : OS)
        (name : string) (children : list rnode) :
  let t := RDir name (root_if_empty (Cli.aPath args)) children in
  0 < Limit c ->
  0 < ChunkSize c ->
  Cli.aFolder args <> "" ->
  serves Do Unmarshal (Limit c) (Cli.aLink args) t ->
  (forall u w, exists status body,
      fst (Do (Direct u) w) = Response status body /\ ending body = None) ->
  (forall p perm d, fst (MkdirAll p perm d) = None) ->
  (forall p d e, Stat p d <> StatError e) ->
  (forall p d, exists s, fst (Create p d) = inr s /\ room s = None) ->
  exists n0, forall fuel, (n0 <= fuel)%nat ->
    exists m',
      Cli.main World Do Unmarshal c OS Stat MkdirAll Create Join args fuel w d
      = (Exit 0, m') /\
      downloads (trace (net m')) = map File (files_of t) /\
      map fst (stored m')
      = map (Cli.destination Join (Cli.aFolder args)) (files_of t) /\
      logged m' = [].
Proof.
  cbv zeta. intros Hl Hc Hf Hs Hdl Hmk Hst Hcr.
  destruct (getTree_tree World Do Unmarshal c (Cli.aLink args)
                         (first_callback []) Hl _ Hs) as (n0 & Hn0).
  exists n0. intros fuel Hfuel.
  destruct (Hn0 fuel Hfuel (mkWalk (Some []) 0 0) (mkEnv w []))
    as (a' & env' & E & Hfs & Hnn).
  pose proof (downloads_asks _ _ _
                (GetTree_trace_asks World Do Unmarshal c (Cli.aLink args)
                                    (Cli.aPath args) [] fuel w)) as Hd0.
  unfold Cli.main. unfold GetTree, GetTree_walk in *.
  destruct (Limit c <? 0) eqn:L; [apply Z.ltb_lt in L; lia|].
  rewrite E in *. simpl in Hd0, Hfs, Hnn.
  destruct (files a') as [fs|] eqn:F; [|now destruct Hnn].
  simpl in Hfs. subst fs.
  destruct (Cli.aFolder args =? "")%string eqn:Ef;
    [apply String.eqb_eq in Ef; contradiction|].
  assert (Hmf : exists d',
             Cli.makeFolder OS Stat MkdirAll (Cli.aFolder args) rwxr_xr_x d
             = (None, d')).
  { unfold Cli.makeFolder. pose proof (Hst (Cli.aFolder args) d) as Hs0.
    destruct (Stat (Cli.aFolder args) d) as [| |e];
      [eauto| |now destruct (Hs0 e)].
    pose proof (Hmk (Cli.aFolder args)
                    (if rwxr_xr_x =? 0 then rwxr_xr_x else rwxr_xr_x) d) as H.
    destruct (MkdirAll (Cli.aFolder args) _ d) as [oe d']. simpl in H.
    subst oe. eauto. }
  destruct Hmf as (d' & ->). cbn [elems].
  set (fs := flat_map files_of children) in *.
  set (m0 := mkMachine env' d' [] []).
  pose proof (Cli_range_files_goes_on (Cli.aFolder args) Hc Hdl Hmk Hst Hcr
                                      fs m0) as Hgo.
  destruct (Cli_range_files_steps (Cli.aFolder args) fs m0)
    as (k & _ & Hdk & Hok).
  destruct (Cli.range_files World Do c OS Stat MkdirAll Create Join
                            (Cli.aFolder args) fs m0) as [r m'].
  simpl in Hgo, Hdk, Hok. subst r.
  destruct (Hok eq_refl) as (-> & Hst' & Hlg).
  exists m'. split; [reflexivity|].
  rewrite Hdk, Hst', Hlg, firstn_all. simpl. rewrite Hd0. auto.
Qed.

End Callers.

(** ** The further properties on the small share *)

Lemma DownloadFile_read_error_witness :
  DownloadFile cut_server two_per_page (file_of "a" "/a" 13) empty_sink
               (mkEnv tt [])
  = (Returned (Some "unexpected EOF"),
     mkSink (list_byte_of_string "hello, ") None None,
     after cut_server (Direct (File (file_of "a" "/a" 13))) (mkEnv tt [])).
Proof.
  apply (DownloadFile_read_error
           unit cut_server two_per_page (file_of "a" "/a" 13) empty_sink
           (mkEnv tt []) 200
           (mkReader [list_byte_of_string "hello, "] (Some "unexpected EOF")
                     false) "unexpected EOF");
    reflexivity.
Defined.

(** Thirteen bytes for a disk with room for five. *)
Lemma DownloadFile_bounded_sink_witness :
  DownloadFile content_server two_per_page (file_of "a" "/a" 13) small_sink
               (mkEnv tt [])
  = (Returned (Some "no space left on device"),
     mkSink (list_byte_of_string "hello") (Some 0%nat)
            (Some "no space left on device"),
     after content_server (Direct (File (file_of "a" "/a" 13)))
           (mkEnv tt [])).
Proof.
  apply (DownloadFile_bounded_sink
           unit content_server two_per_page (file_of "a" "/a" 13) small_sink
           (mkEnv tt []) 200
           (mkReader [list_byte_of_string "hello, ";
                      list_byte_of_string "world!"] None true) 5);
    reflexivity.
Defined.

Lemma DownloadFile_bad_chunk_size_witness :
  exists msg,
    DownloadFile content_server no_chunk (file_of "a" "/a" 13) empty_sink
                 (mkEnv tt [])
    = (Panicked msg, empty_sink,
       after content_server (Direct (File (file_of "a" "/a" 13)))
             (mkEnv tt [])).
Proof.
  apply (DownloadFile_bad_chunk_size
           unit content_server no_chunk (file_of "a" "/a" 13) empty_sink
           (mkEnv tt []) 200
           (mkReader [list_byte_of_string "hello, ";
                      list_byte_of_string "world!"] None true)).
  - discriminate.
  - reflexivity.
Defined.

Lemma downloadFile_copies_when_eof_alone_witness :
  downloadFile plain_server "https://downloader.disk/a" (inr empty_sink)
               (mkEnv tt [])
  = (Returned None, Some (mkSink content None None),
     after plain_server (Direct "https://downloader.disk/a") (mkEnv tt [])).
Proof.
  apply (downloadFile_copies_when_eof_alone
           unit plain_server "https://downloader.disk/a" empty_sink
           (mkEnv tt [])
           (mkReader [list_byte_of_string "hello, ";
                      list_byte_of_string "world!"] None false));
    reflexivity.
Defined.

Lemma downloadFile_truncates_witness :
  exists k,
    (k < 13)%nat /\
    downloadFile content_server "https://downloader.disk/a" (inr empty_sink)
                 (mkEnv tt [])
    = (Returned None, Some (mkSink (firstn k content) None None),
       after content_server (Direct "https://downloader.disk/a")
             (mkEnv tt [])).
Proof.
  apply (downloadFile_truncates
           unit content_server "https://downloader.disk/a" empty_sink
           (mkEnv tt [])
           (mkReader [list_byte_of_string "hello, ";
                      list_byte_of_string "world!"] None true));
    try reflexivity.
  discriminate.
Defined.

Lemma complete_table_pages : complete_pages (decode_by_table complete_table).
Proof.
  intros b r H. destruct b as [|x [|y b]]; try discriminate H.
  destruct x; vm_compute in H; try discriminate H;
    inversion H; subst; repeat constructor;
    intros Hty; first [discriminate Hty | vm_compute; discriminate].
Qed.

Lemma GetTree_no_panic_on_complete_entries_witness :
  fst (GetTree share_server (decode_by_table complete_table) two_per_page
               "link" "" [] 9 tt)
  <> Panicked nil_dereference.
Proof.
  apply (GetTree_no_panic_on_complete_entries
           unit share_server (decode_by_table complete_table) two_per_page
           "link" "" [] 9 tt nil_dereference).
  - discriminate.
  - exact complete_table_pages.
Defined.

Lemma Script_getTree_is_GetTree_witness :
  Script.getTree unit share_server (decode_by_table share_table)
                 (fun _ => None) "link" "" 9 tt
  = (Script.of_result
       (fst (GetTree_v1 share_server (decode_by_table share_table)
                        NewDefaultConfig "link" "" 9 tt)),
     snd (GetTree_v1 share_server (decode_by_table share_table)
                     NewDefaultConfig "link" "" 9 tt)) /\
  fst (Script.getTree unit share_server (decode_by_table share_table)
                      (fun _ => Some "close failed") "link" "" 9 tt)
  = Script.Fatal "close failed".
Proof.
  split.
  - apply (Script_getTree_is_GetTree
             unit share_server (decode_by_table share_table) (fun _ => None)
             NewDefaultConfig "link" "" 9 tt eq_refl eq_refl).
    reflexivity.
  - destruct (Script_getTree_is_GetTree
                unit share_server (decode_by_table share_table)
                (fun _ => Some "close failed")
                NewDefaultConfig "link" "" 8 tt eq_refl eq_refl)
      as [_ H].
    now rewrite (H 200 (mkReader [[x01]] None false) "close failed" eq_refl eq_refl).
Defined.

Lemma Cli_destination_witness :
  Cli.destination slash_join "out" (file_of "c" "/d/c" 5) = "out//d//c".
Proof.
  rewrite (Cli_destination slash_join "out" "/d/" (file_of "c" "/d/c" 5)
                           eq_refl).
  reflexivity.
Defined.


(** Every download gets a 404: all three are asked for, no error comes
    back. *)
Lemma Script_downloadFiles_goes_on_witness :
  exists m',
    Script.downloadFiles unit not_found_server unit stat_there mkdir_ok
                         create_ok slash_join (files_of share) "out"
                         fresh_machine
    = (Returned None, m') /\
    downloads (trace (net m'))
    = downloads (trace (net fresh_machine)) ++ map File (files_of share).
Proof.
  apply (Script_downloadFiles_goes_on
           unit not_found_server unit stat_there mkdir_ok create_ok
           slash_join (files_of share) "out" fresh_machine).
  - reflexivity.
  - discriminate.
Defined.

Lemma Cli_main_lists_only_witness :
  fst (Cli.main unit share_server (decode_by_table share_table) two_per_page
                unit stat_there mkdir_ok create_ok slash_join
                (Cli.mkArgs "link" "" "") 9 tt tt) = Exit 0 /\
  logged (snd (Cli.main unit share_server (decode_by_table share_table)
                        two_per_page unit stat_there mkdir_ok create_ok
                        slash_join (Cli.mkArgs "link" "" "") 9 tt tt))
  = ["/a https://downloader.disk/a"; "/d/c https://downloader.disk/c";
     "/b https://downloader.disk/b"].
Proof.
  destruct (Cli_main_lists_only
              unit share_server (decode_by_table share_table) two_per_page
              unit stat_there mkdir_ok create_ok slash_join
              (Cli.mkArgs "link" "" "") 9 tt tt eq_refl)
    as (_ & _ & _ & H).
  exact H.
Defined.

(** A server that lists the share holds it, whatever it sends for a
    download. *)
Lemma share_pages_served (download : string -> exchange) :
  serves (paged_server share_pages download) (decode_by_table share_table)
         2 "link" share.
Proof.
  assert (Hidx : forall k, Z.to_nat (Z.of_nat k * 2 / 2) = k)
    by (intros k; rewrite Z.div_mul by lia; apply Nat2Z.id).
  assert (Hfit : forall n : nat, (n <= 3)%nat -> in_int64 (Z.of_nat n * 2))
    by (intros n Hn; unfold in_int64, int64_min, int64_max; lia).
  apply serves_dir
    with (pages := [[RFile (file_of "a" "/a" 3);
                     RDir "d" "/d" [RFile (file_of "c" "/d/c" 5)]];
                    [RFile (file_of "b" "/b" 4)]]).
  - split; [reflexivity | repeat constructor; discriminate].
  - intros k w. unfold paged_server. cbn [q_path q_offset q_limit].
    rewrite Hidx. destruct k as [|[|k]].
    + eexists. split; [reflexivity|]. repeat constructor.
    + eexists. split; [reflexivity|]. repeat constructor.
    + exists (listing "/" 0 None). split; [now destruct k|].
      destruct k; constructor.
  - apply Hfit. simpl. lia.
  - repeat constructor.
    apply serves_dir with (pages := [[RFile (file_of "c" "/d/c" 5)]]).
    + split; [reflexivity | repeat constructor; discriminate].
    + intros k w. unfold paged_server.
      cbn [q_path q_offset q_limit]. rewrite Hidx. destruct k as [|k].
      * eexists. split; [reflexivity|]. repeat constructor.
      * exists (listing "/" 0 None). split; [now destruct k|].
        destruct k; constructor.
    + apply Hfit. simpl. lia.
    + repeat constructor.
Qed.

(** The program on the share: three files asked for and created. *)
Lemma Cli_main_mirrors_tree_witness :
  exists n0, forall fuel, (n0 <= fuel)%nat ->
    exists m',
      Cli.main unit plain_server (decode_by_table share_table) two_per_page
               unit stat_there mkdir_ok create_ok slash_join
               (Cli.mkArgs "link" "" "out") fuel tt tt
      = (Exit 0, m') /\
      downloads (trace (net m')) = map File (files_of share) /\
      map fst (stored m')
      = map (Cli.destination slash_join "out") (files_of share) /\
      logged m' = [].
Proof.
  apply (Cli_main_mirrors_tree
           unit plain_server (decode_by_table share_table) two_per_page
           unit stat_there mkdir_ok create_ok slash_join
           (Cli.mkArgs "link" "" "out") tt tt ""
           [RFile (file_of "a" "/a" 3);
            RDir "d" "/d" [RFile (file_of "c" "/d/c" 5)];
            RFile (file_of "b" "/b" 4)]).
  - reflexivity.
  - reflexivity.
  - discriminate.
  - apply share_pages_served.
  - intros u w. eexists _, _. split; reflexivity.
  - reflexivity.
  - discriminate.
  - intros p d. exists empty_sink. split; reflexivity.
Defined.
